(** * gracevisord: the App (app.go) and the configuration loader (config.go)

    A shallow embedding of the two Go files of [gracevisord]:
    - [app.go]: the [App] with its updater loop, [reserveInstance],
      [StartNewInstance] and the reverse-proxy handler [ServeHTTP];
    - [config.go]: the YAML-tagged configuration records and [ParseConfing]
      (module [ConfigGo]).

    Pointers to instances are addresses into a heap, so that pointer
    identity ([instance != a.activeInstance]) and aliasing are kept.  Every
    call that leaves [app.go] (mutex, instance methods, log, response
    writer, reverse proxy) is recorded in a trace of events, which is what
    the ordering properties are stated on.

    The methods of [App] are first given as they run alone, one call at a
    time; the module [Interleaving] then cuts [reserveInstance], [ServeHTTP]
    and the updater loop at each access to the shared state and runs any
    number of them together.  The definitions come first, the facts
    after. *)

From Stdlib Require Import ZArith String Ascii List Lia DecimalString.
From stdpp Require Import base option list gmap strings.

Local Open Scope Z_scope.

(** ** Machine integers *)

(** [uint32] arithmetic: [atomic.AddUint32] wraps modulo 2^32. *)
Definition uint32_modulus : Z := 2 ^ 32.
Definition uint32_add (x y : Z) : Z := (x + y) mod uint32_modulus.

(** [fmt.Sprintf("%d", n)] for a non-negative integer. *)
Definition fmt_d (n : Z) : string := NilZero.string_of_int (Z.to_int n).

(** ** Instances and the port pool (instance.go, portpool.go) *)

(** A pointer to an instance, [*Instance], is an address of the heap; [nil]
    is [None] of [option ptr]. *)
Abbreviation ptr := nat (only parsing).

Inductive InstanceStatus :=
| InstanceStatusServing
| InstanceStatusStarting
| InstanceStatusStopping
| InstanceStatusStopped
| InstanceStatusFailed
| InstanceStatusExited.

#[global] Instance InstanceStatus_eq_dec : EqDecision InstanceStatus.
Proof. solve_decision. Defined.

Record Instance := mkInstance {
  instance_id : Z;
  instance_port : Z;
  instance_internalHost : string;
  instance_status : InstanceStatus;
  instance_inFlight : Z
}.

Definition set_status (s : InstanceStatus) (i : Instance) : Instance :=
  mkInstance (instance_id i) (instance_port i) (instance_internalHost i) s
             (instance_inFlight i).

Definition set_inFlight (n : Z) (i : Instance) : Instance :=
  mkInstance (instance_id i) (instance_port i) (instance_internalHost i)
             (instance_status i) n.

Definition terminal (s : InstanceStatus) : bool :=
  match s with
  | InstanceStatusStopped | InstanceStatusFailed | InstanceStatusExited => true
  | _ => false
  end.

(** Modelled from the spec: the body of [Instance.Serve] is not in the
    sources; "Serve(): increments inFlight", and it "must fail-fast (return
    an error) if the instance is not in Serving": then nothing is counted.
    The only call site, [reserveInstance] (line 148), drops what the call
    returns. *)
Definition Instance_Serve (i : Instance) : Instance :=
  if bool_decide (instance_status i = InstanceStatusServing)
  then set_inFlight (instance_inFlight i + 1) i
  else i.

(** Modelled from the spec: the body of [Instance.Done] is not in the
    sources; "Done(): decrements inFlight". *)
Definition Instance_Done (i : Instance) : Instance :=
  set_inFlight (instance_inFlight i - 1) i.

(** Modelled from the spec: the body of [Instance.Stop] is not in the
    sources; "Stop(): idempotent. Transitions Starting|Serving -> Stopping";
    terminal statuses are sticky.  The stop signal and the stop timeout act
    on the child process and are not part of the App's state. *)
Definition Instance_Stop (i : Instance) : Instance :=
  match instance_status i with
  | InstanceStatusStarting | InstanceStatusServing =>
      set_status InstanceStatusStopping i
  | _ => i
  end.

(** Modelled from the spec: the body of [Instance.UpdateStatus] is not in
    the sources; "Returns the current status", after the probes and the
    reaping of the child have moved the instance.  What the outside world
    (health probe, child process) yields at this call is the argument
    [observed]; "once a terminal status is set, it never changes". *)
Definition Instance_UpdateStatus (observed : InstanceStatus) (i : Instance)
  : Instance :=
  if terminal (instance_status i) then i else set_status observed i.

(** The call moves the instance to a terminal status: this is when
    [UpdateStatus] "releases the port". *)
Definition turns_terminal (observed : InstanceStatus) (i : Instance) : bool :=
  negb (terminal (instance_status i)) && terminal observed.

(** Modelled from the spec: the body of [Instance.Hostname] is not in the
    sources; "Hostname(): returns internalHost:port". *)
Definition Instance_Hostname (i : Instance) : string :=
  instance_internalHost i +:+ ":" +:+ fmt_d (instance_port i).

(** Modelled from the spec: the port pool is not in the sources; "a set of
    integers [from, to] (inclusive) partitioned into free and in-use",
    "reserve() -> port | ErrPortsExhausted: returns a port from the free
    set and marks it in-use"; the lowest free port is taken. *)
Record PortPool := mkPortPool {
  pool_from : Z;
  pool_to : Z;
  pool_inUse : list Z
}.

Fixpoint lowest_free (inUse : list Z) (p : Z) (n : nat) : option Z :=
  match n with
  | O => None
  | S n' => if bool_decide (p ∈ inUse) then lowest_free inUse (p + 1) n'
            else Some p
  end.

Definition PortPool_reserve (pp : PortPool) : option (Z * PortPool) :=
  match lowest_free (pool_inUse pp) (pool_from pp)
          (Z.to_nat (pool_to pp - pool_from pp + 1)) with
  | Some p => Some (p, mkPortPool (pool_from pp) (pool_to pp) (p :: pool_inUse pp))
  | None => None
  end.

(** Modelled from the spec: "release(port): returns a port to the free
    set". *)
Definition PortPool_release (port : Z) (pp : PortPool) : PortPool :=
  mkPortPool (pool_from pp) (pool_to pp)
             (filter (λ q, q ≠ port) (pool_inUse pp)).

(** ** The App (app.go) *)

Inductive error :=
| ErrNoActiveInstances
| ErrPortsExhausted.

#[global] Instance error_eq_dec : EqDecision error.
Proof. solve_decision. Defined.

(** What [panic] carries: an [error] value ([panic(err)] in [ServeHTTP]), a
    run-time error of Go itself, or any other value raised by code called
    from the handler. *)
Inductive panic_value :=
| PanicError (e : error)
| PanicRuntime (msg : string)
| PanicOther (n : nat).

#[global] Instance panic_value_eq_dec : EqDecision panic_value.
Proof. solve_decision. Defined.

Record AppConfig := mkAppConfig {
  name : string;
  command : string;
  healthcheck : string;
  stopSignal : Z;
  timeout : Z;
  internalHost : string;
  externalHost : string;
  externalPort : Z
}.

Record App := mkApp {
  config : AppConfig;
  instances : list ptr;
  activeInstance : option ptr;
  activeInstanceLock : bool;
  instanceId : Z
}.

(** The parts of [*http.Request] and [http.ResponseWriter] the handler
    touches.  [Header] is Go's [map[string][]string]. *)
Record Request := mkRequest {
  URL_Scheme : string;
  URL_Host : string;
  RemoteAddr : string;
  Header : gmap string (list string);
  Body_closed : bool
}.

Record ResponseWriter := mkResponseWriter {
  rw_status : option Z
}.

(** Calls that leave [app.go], and the accesses to the shared slot
    [a.activeInstance], in the order they happen. *)
Inductive event :=
| EvLock
| EvUnlock
| EvReadActive (v : option ptr)
| EvWriteActive (v : option ptr)
| EvUpdateStatus (p : ptr) (s : InstanceStatus)
| EvServe (p : ptr)
| EvDone (p : ptr)
| EvStop (p : ptr)
| EvNewInstance (id : Z) (r : option ptr)
| EvLog (v : panic_value)
| EvWriteHeader (code : Z)
| EvBodyClose
| EvProxy (r : Request)
| EvReport.

(** What the reverse proxy sends to the upstream, as far as it is
    modelled: the URL, and the values of the two headers X-Real-IP and
    X-Forwarded-For. *)
Record Outgoing := mkOutgoing {
  out_Scheme : string;
  out_Host : string;
  out_X_Real_IP : option (list string);
  out_X_Forwarded_For : option (list string)
}.

(** [sent] is what the upstream has been sent, in order; [None] stands for
    a request that is sent but is left out of the model of the proxy. *)
Record World := mkWorld {
  heap : list Instance;
  portPool : PortPool;
  app : App;
  req : Request;
  rw : ResponseWriter;
  trace : list event;
  sent : list (option Outgoing)
}.

Definition with_heap (h : list Instance) (w : World) : World :=
  mkWorld h (portPool w) (app w) (req w) (rw w) (trace w) (sent w).
Definition with_portPool (pp : PortPool) (w : World) : World :=
  mkWorld (heap w) pp (app w) (req w) (rw w) (trace w) (sent w).
Definition with_app (a : App) (w : World) : World :=
  mkWorld (heap w) (portPool w) a (req w) (rw w) (trace w) (sent w).
Definition with_req (r : Request) (w : World) : World :=
  mkWorld (heap w) (portPool w) (app w) r (rw w) (trace w) (sent w).
Definition with_rw (r : ResponseWriter) (w : World) : World :=
  mkWorld (heap w) (portPool w) (app w) (req w) r (trace w) (sent w).
Definition with_event (e : event) (w : World) : World :=
  mkWorld (heap w) (portPool w) (app w) (req w) (rw w) (trace w ++ [e]) (sent w).
Definition with_sent (o : option Outgoing) (w : World) : World :=
  mkWorld (heap w) (portPool w) (app w) (req w) (rw w) (trace w) (sent w ++ [o]).

Definition set_instances (l : list ptr) (a : App) : App :=
  mkApp (config a) l (activeInstance a) (activeInstanceLock a) (instanceId a).
Definition set_activeInstance (v : option ptr) (a : App) : App :=
  mkApp (config a) (instances a) v (activeInstanceLock a) (instanceId a).
Definition set_activeInstanceLock (b : bool) (a : App) : App :=
  mkApp (config a) (instances a) (activeInstance a) b (instanceId a).
Definition set_instanceId (n : Z) (a : App) : App :=
  mkApp (config a) (instances a) (activeInstance a) (activeInstanceLock a) n.

(** *** Control: return, panic, or wait for ever (on the mutex, or on a
    call that does not come back) *)

Inductive outcome (A : Type) :=
| Ret (a : A)
| Panic (v : panic_value)
| Blocked.
Arguments Ret {A} a.
Arguments Panic {A} v.
Arguments Blocked {A}.

Definition M (A : Type) : Type := World → outcome A * World.

#[global] Instance M_ret : MRet M := λ A a w, (Ret a, w).
#[global] Instance M_bind : MBind M := λ A B f m w,
  match m w with
  | (Ret a, w') => f a w'
  | (Panic v, w') => (Panic v, w')
  | (Blocked, w') => (Blocked, w')
  end.

Definition panic {A} (v : panic_value) : M A := λ w, (Panic v, w).
Definition emit (e : event) : M unit := λ w, (Ret (), with_event e w).
Definition gets {A} (f : World → A) : M A := λ w, (Ret (f w), w).
Definition modify (f : World → World) : M unit := λ w, (Ret (), f w).

(** [defer d(); body]: [d] runs when [body] returns or panics; a panic of
    [body] goes on after [d]. *)
Definition defer_ {A} (d : M unit) (body : M A) : M A := λ w,
  match body w with
  | (Blocked, w') => (Blocked, w')
  | (r, w') =>
      match d w' with
      | (Ret _, w'') => (r, w'')
      | (Panic v, w'') => (Panic v, w'')
      | (Blocked, w'') => (Blocked, w'')
      end
  end.

(** [defer func() { ... recover() ... }(); body]: the deferred closure gets
    what [recover()] returns, [None] when [body] returned normally; a
    recovered panic stops there and the function returns normally. *)
Definition defer_recover (d : option panic_value → M unit) (body : M unit)
  : M unit := λ w,
  match body w with
  | (Ret _, w') => d None w'
  | (Panic v, w') => d (Some v) w'
  | (Blocked, w') => (Blocked, w')
  end.

Fixpoint forM_ {A} (l : list A) (f : A → M unit) : M unit :=
  match l with
  | [] => mret ()
  | x :: l' => f x;; forM_ l' f
  end.

(** *** Primitives *)

(** [sync.Mutex]: [Lock] on a held mutex waits; with nobody else running it
    waits for ever. *)
Definition Lock : M unit := λ w,
  if activeInstanceLock (app w) then (Blocked, w)
  else (Ret (), with_event EvLock (with_app (set_activeInstanceLock true (app w)) w)).

Definition Unlock : M unit := λ w,
  if activeInstanceLock (app w)
  then (Ret (), with_event EvUnlock (with_app (set_activeInstanceLock false (app w)) w))
  else (Panic (PanicRuntime "sync: unlock of unlocked mutex"), w).

Definition readActive : M (option ptr) := λ w,
  (Ret (activeInstance (app w)),
   with_event (EvReadActive (activeInstance (app w))) w).

Definition writeActive (v : option ptr) : M unit := λ w,
  (Ret (), with_event (EvWriteActive v) (with_app (set_activeInstance v (app w)) w)).

Definition nil_dereference : panic_value :=
  PanicRuntime "invalid memory address or nil pointer dereference".

(** A method call on an instance pointer: [None] is Go's [nil]. *)
Definition Serve (p : option ptr) : M unit :=
  match p with
  | None => panic nil_dereference
  | Some p => λ w, (Ret (), with_event (EvServe p) (with_heap (alter Instance_Serve p (heap w)) w))
  end.

Definition Done (p : ptr) : M unit := λ w,
  (Ret (), with_event (EvDone p) (with_heap (alter Instance_Done p (heap w)) w)).

Definition Stop (p : ptr) : M unit := λ w,
  (Ret (), with_event (EvStop p) (with_heap (alter Instance_Stop p (heap w)) w)).

Definition status_of (w : World) (p : ptr) : option InstanceStatus :=
  instance_status <$> heap w !! p.

(** [instance.UpdateStatus()]: the instance moves, its port goes back to
    the pool when it reaches a terminal status, and the status is
    returned. *)
Definition UpdateStatus (observed : InstanceStatus) (p : ptr) : M InstanceStatus := λ w,
  let h := alter (Instance_UpdateStatus observed) p (heap w) in
  let s := default observed (instance_status <$> h !! p) in
  let pp := match heap w !! p with
            | Some i => if turns_terminal observed i
                        then PortPool_release (instance_port i) (portPool w)
                        else portPool w
            | None => portPool w
            end in
  (Ret s, with_event (EvUpdateStatus p s) (with_portPool pp (with_heap h w))).

Definition Hostname_of (p : option ptr) : M string :=
  match p with
  | None => panic nil_dereference
  | Some p => λ w,
      match heap w !! p with
      | Some i => (Ret (Instance_Hostname i), w)
      | None => (Panic nil_dereference, w)
      end
  end.

(** Modelled from the spec: [NewInstance] is not in the sources; an
    instance is "created by App.StartNewInstance in state Starting", with
    the given id and a port of the pool; "failure to reserve a port
    surfaces as an error to the caller". *)
Definition NewInstance (id : Z) : M (ptr + error) := λ w,
  match PortPool_reserve (portPool w) with
  | None => (Ret (inr ErrPortsExhausted), with_event (EvNewInstance id None) w)
  | Some (port, pp) =>
      let p := length (heap w) in
      let i := mkInstance id port (internalHost (config (app w)))
                          InstanceStatusStarting 0 in
      (Ret (inl p),
       with_event (EvNewInstance id (Some p))
         (with_portPool pp (with_heap (heap w ++ [i]) w)))
  end.

(** [atomic.AddUint32(&a.instanceId, delta)]: adds and returns the new value. *)
Definition AddUint32_instanceId (delta : Z) : M Z := λ w,
  let n := uint32_add (instanceId (app w)) delta in
  (Ret n, with_app (set_instanceId n (app w)) w).

(** *** Library functions called by the handler *)

Fixpoint index_byte (c : ascii) (s : string) : option nat :=
  match s with
  | EmptyString => None
  | String a s' => if Ascii.eqb a c then Some O else S <$> index_byte c s'
  end.

Fixpoint last_byte (c : ascii) (s : string) : option nat :=
  match s with
  | EmptyString => None
  | String a s' =>
      match last_byte c s' with
      | Some i => Some (S i)
      | None => if Ascii.eqb a c then Some O else None
      end
  end.

(** Go's slices of a string: [s[:n]], [s[n:]] and [s[n:m]]. *)
Definition str_to (n : nat) (s : string) : string := substring 0 n s.
Definition str_from (n : nat) (s : string) : string :=
  substring n (String.length s - n) s.
Definition str_slice (n m : nat) (s : string) : string := substring n (m - n) s.

(** [net.SplitHostPort]: host, port and the error if there is one. *)
Definition SplitHostPort (hostport : string) : string * string * option string :=
  let addrErr (why : string) := (EmptyString, EmptyString, Some why) in
  let finish (host : string) (i j k : nat) :=
    if index_byte "[" (str_from j hostport) is Some _
    then addrErr "unexpected '[' in address"
    else if index_byte "]" (str_from k hostport) is Some _
    then addrErr "unexpected ']' in address"
    else (host, str_from (S i) hostport, None) in
  match last_byte ":" hostport with
  | None => addrErr "missing port in address"
  | Some i =>
      if bool_decide (String.get 0 hostport = Some "["%char) then
        match index_byte "]" hostport with
        | None => addrErr "missing ']' in address"
        | Some end_ =>
            if bool_decide (S end_ = String.length hostport)
            then addrErr "missing port in address"
            else if bool_decide (S end_ = i)
            then finish (str_slice 1 end_ hostport) i 1%nat (S end_)
            else if bool_decide (String.get (S end_) hostport = Some ":"%char)
            then addrErr "too many colons in address"
            else addrErr "missing port in address"
        end
      else
        let host := str_to i hostport in
        if index_byte ":" host is Some _
        then addrErr "too many colons in address"
        else finish host i O O
  end.

(** [textproto.CanonicalMIMEHeaderKey]: a key made of token bytes gets an
    upper-case letter first and after each dash and lower-case letters
    elsewhere; any other key is left as it is. *)
Definition validHeaderFieldByte (c : ascii) : bool :=
  let n := nat_of_ascii c in
  ((48 <=? n) && (n <=? 57) || (65 <=? n) && (n <=? 90)
   || (97 <=? n) && (n <=? 122)
   || bool_decide (n ∈ [33; 35; 36; 37; 38; 39; 42; 43; 45; 46; 94; 95; 96; 124; 126]))%nat.

Fixpoint all_bytes (f : ascii → bool) (s : string) : bool :=
  match s with
  | EmptyString => true
  | String a s' => f a && all_bytes f s'
  end.

Fixpoint canonical_case (upper : bool) (s : string) : string :=
  match s with
  | EmptyString => EmptyString
  | String a s' =>
      let n := nat_of_ascii a in
      let c := (if upper && (97 <=? n) && (n <=? 122) then ascii_of_nat (n - 32)
                else if negb upper && (65 <=? n) && (n <=? 90) then ascii_of_nat (n + 32)
                else a)%nat in
      String c (canonical_case (Ascii.eqb c "-") s')
  end.

Definition CanonicalMIMEHeaderKey (s : string) : string :=
  if all_bytes validHeaderFieldByte s then canonical_case true s else s.

(** [http.Header.Add]: appends to the values of the canonical key. *)
Definition Header_Add (key value : string) (h : gmap string (list string))
  : gmap string (list string) :=
  let k := CanonicalMIMEHeaderKey key in
  <[k := default [] (h !! k) ++ [value]]> h.

(** [http.Header.Get]: the first value of the canonical key, or the empty
    string. *)
Definition Header_Get (key : string) (h : gmap string (list string)) : string :=
  match h !! CanonicalMIMEHeaderKey key with
  | Some (v :: _) => v
  | _ => EmptyString
  end.

Definition set_URL_Scheme (s : string) (r : Request) : Request :=
  mkRequest s (URL_Host r) (RemoteAddr r) (Header r) (Body_closed r).
Definition set_URL_Host (s : string) (r : Request) : Request :=
  mkRequest (URL_Scheme r) s (RemoteAddr r) (Header r) (Body_closed r).
Definition set_Header (h : gmap string (list string)) (r : Request) : Request :=
  mkRequest (URL_Scheme r) (URL_Host r) (RemoteAddr r) h (Body_closed r).
Definition set_Body_closed (b : bool) (r : Request) : Request :=
  mkRequest (URL_Scheme r) (URL_Host r) (RemoteAddr r) (Header r) b.

Definition log_Print (v : panic_value) : M unit := emit (EvLog v).

(** [rw.WriteHeader]: the first status written is the one sent. *)
Definition WriteHeader_rw (code : Z) (r : ResponseWriter) : ResponseWriter :=
  match rw_status r with
  | Some _ => r
  | None => mkResponseWriter (Some code)
  end.

Definition WriteHeader (code : Z) : M unit := λ w,
  (Ret (), with_event (EvWriteHeader code) (with_rw (WriteHeader_rw code (rw w)) w)).

Definition Body_Close : M unit := λ w,
  (Ret (), with_event EvBodyClose (with_req (set_Body_closed true (req w)) w)).

(** What the reverse proxy and the upstream do with a request is the
    environment's.  For a call of [a.rp.ServeHTTP] that comes back: the
    status the proxy writes to the client (its own error response when the
    upstream fails), if it gets that far; whether the body of the request
    has been closed (the transport closes the body of a request that has
    one); and the value the call panics with, if it does. *)
Record proxy_result := mkProxyResult {
  proxy_written : option Z;
  proxy_panic : option panic_value;
  proxy_closes_body : bool
}.

(** [strings.Join]. *)
Fixpoint Join (l : list string) (sep : string) : string :=
  match l with
  | [] => EmptyString
  | x :: l' =>
      match l' with
      | [] => x
      | _ :: _ => x +:+ sep +:+ Join l' sep
      end
  end.

(** The value [httputil.ReverseProxy] gives to X-Forwarded-For: the values
    that came with the request, folded into one, and then the client's
    address.  (A header of a request read from the wire has at least one
    value.) *)
Definition forwarded_for (prior : option (list string)) (clientIP : string)
  : string :=
  match prior with
  | Some (x :: l) => Join (x :: l) ", " +:+ ", " +:+ clientIP
  | _ => clientIP
  end.

(** The reverse proxy drops the headers that the request names in its
    Connection header, and newer releases take a X-Forwarded-For header
    that is there without a value as a request to send none.  A request
    with a Connection header, or with such a X-Forwarded-For header, is
    left out of the model. *)
Definition plain_headers (r : Request) : bool :=
  bool_decide (Header r !! "Connection" = None)
  && negb (bool_decide (Header r !! "X-Forwarded-For" = Some [])).

(** The request the reverse proxy sends for [r]: the [Director] of [NewApp]
    does nothing, so the URL is that of [r]; X-Forwarded-For is set when the
    remote address of [r] is a host and a port, and left as it came
    otherwise; X-Real-IP is no concern of the proxy. *)
Definition outgoing (r : Request) : option Outgoing :=
  if plain_headers r then
    Some (mkOutgoing (URL_Scheme r) (URL_Host r)
            (Header r !! "X-Real-Ip")
            (match SplitHostPort (RemoteAddr r) with
             | (clientIP, _, None) =>
                 Some [forwarded_for (Header r !! "X-Forwarded-For") clientIP]
             | _ => Header r !! "X-Forwarded-For"
             end))
  else None.

(** [a.rp.ServeHTTP(rw, req)], with the no-op [Director] of [NewApp].  The
    proxy sends the request on and waits for the upstream: a request has no
    deadline of the supervisor's, so the call may never come back, which is
    [None] of [call]. *)
Definition rp_ServeHTTP (call : Request → option proxy_result) : M unit := λ w,
  let w1 := with_sent (outgoing (req w)) (with_event (EvProxy (req w)) w) in
  match call (req w) with
  | None => (Blocked, w1)
  | Some r =>
      let w2 := match proxy_written r with
                | Some code => with_rw (WriteHeader_rw code (rw w1)) w1
                | None => w1
                end in
      let w3 := if proxy_closes_body r
                then with_req (set_Body_closed true (req w2)) w2
                else w2 in
      match proxy_panic r with
      | Some v => (Panic v, w3)
      | None => (Ret (), w3)
      end
  end.

(** *** The methods of [App] *)

(** [NewApp]: no instance, no active instance, counter at zero.  (It also
    builds the reverse proxy, with a [Director] that does nothing, and
    starts the updater goroutine, [startInstanceUpdater] below.) *)
Definition NewApp (cfg : AppConfig) : App := mkApp cfg [] None false 0.

(** One pass of the body of [for _, instance := range a.instances] in
    [startInstanceUpdater]. [observed] is what the outside world yields to
    [instance.UpdateStatus()] at this call. *)
Definition updateInstance (observed : InstanceStatus) (instance : ptr) : M unit :=
  status ← UpdateStatus observed instance;
  promote ← (if bool_decide (status = InstanceStatusServing)
             then cur ← readActive; mret (bool_decide (Some instance ≠ cur))
             else mret false);
  if (promote : bool) then
    Lock;;
    currentActive ← readActive;
    writeActive (Some instance);;
    Unlock;;
    match currentActive with
    | Some p => Stop p
    | None => mret ()
    end
  else if bool_decide (status = InstanceStatusExited) then
    writeActive None
  else mret ().

(** [Report] prints the instances and changes nothing; what it prints is
    not modelled. *)
Definition Report : M unit := emit EvReport.

(** One round of the [for { ... }] of the updater goroutine, up to the wait
    on the ticker. *)
Definition updaterTick (observe : ptr → InstanceStatus) : M unit :=
  l ← gets (λ w, instances (app w));
  forM_ l (λ instance, updateInstance (observe instance) instance);;
  Report.

(** The goroutine of [startInstanceUpdater], for as many rounds as there
    are observations. *)
Fixpoint startInstanceUpdater (ticks : list (ptr → InstanceStatus)) : M unit :=
  match ticks with
  | [] => mret ()
  | observe :: ticks' => updaterTick observe;; startInstanceUpdater ticks'
  end.

Definition reserveInstance : M (option ptr * option error) :=
  Lock;;
  defer_ Unlock
    (cur ← readActive;
     match cur with
     | None => mret (None, Some ErrNoActiveInstances)
     | Some _ =>
         target ← readActive;
         Serve target;;
         res ← readActive;
         mret (res, None)
     end).

(** The body of the first loop of [StartNewInstance]. *)
Definition stopIfStarting (instance : ptr) : M unit :=
  st ← gets (λ w, status_of w instance);
  if bool_decide (st = Some InstanceStatusStarting) then Stop instance
  else mret ().

Definition StartNewInstance : M (option error) :=
  l ← gets (λ w, instances (app w));
  forM_ l stopIfStarting;;
  id ← AddUint32_instanceId 1;
  r ← NewInstance id;
  match r with
  | inr err => mret (Some err)
  | inl newInstance =>
      modify (λ w, with_app (set_instances (instances (app w) ++ [newInstance]) (app w)) w);;
      mret None
  end.

(** The closure deferred by [ServeHTTP]; [recovered] is what [recover()]
    returns in it. *)
Definition ServeHTTP_deferred (instance : option ptr)
    (recovered : option panic_value) : M unit :=
  match recovered with
  | Some v =>
      if bool_decide (v = PanicError ErrNoActiveInstances) then
        log_Print v;;
        WriteHeader 503;;
        Body_Close
      else log_Print v
  | None => mret ()
  end;;
  match instance with
  | Some p => Done p
  | None => mret ()
  end.

(** The statements of [ServeHTTP] after the [defer]. *)
Definition ServeHTTP_body (call : Request → option proxy_result)
    (instance : option ptr) (err : option error) : M unit :=
  match err with
  | Some e => panic (PanicError e)
  | None =>
      modify (λ w, with_req (set_URL_Scheme "http" (req w)) w);;
      h ← Hostname_of instance;
      modify (λ w, with_req (set_URL_Host h (req w)) w);;
      host ← gets (λ w, (SplitHostPort (RemoteAddr (req w))).1.1);
      modify (λ w, with_req (set_Header (Header_Add "X-Real-IP" host (Header (req w))) (req w)) w);;
      rp_ServeHTTP call
  end.

(** [ServeHTTP], for what the call of the reverse proxy does. *)
Definition ServeHTTP_call (call : Request → option proxy_result) : M unit :=
  '(instance, err) ← reserveInstance;
  defer_recover (ServeHTTP_deferred instance)
                (ServeHTTP_body call instance err).

(** A reverse proxy whose calls all come back, and [ServeHTTP] with such a
    proxy. *)
Definition returning (upstream : Request → proxy_result)
  : Request → option proxy_result :=
  λ r, Some (upstream r).

Definition ServeHTTP (upstream : Request → proxy_result) : M unit :=
  ServeHTTP_call (returning upstream).

(** [App.Hostname]: the external address the App listens on. *)
Definition Hostname (a : App) : string :=
  externalHost (config a) +:+ ":" +:+ fmt_d (externalPort (config a)).

(** ** Sample worlds *)

Definition sample_config : AppConfig :=
  mkAppConfig "web" "./web" "/health" 15 10 "127.0.0.1" "0.0.0.0" 8000.

Definition sample_request : Request :=
  mkRequest "" "example.org" "10.1.2.3:51234" ∅ false.

Definition sample_instance (id : Z) (port : Z) (s : InstanceStatus) : Instance :=
  mkInstance id port "127.0.0.1" s 0.

Definition sample_world (h : list Instance) (active : option ptr) (next : Z)
    (inUse : list Z) : World :=
  mkWorld h (mkPortPool 20000 20001 inUse)
          (mkApp sample_config (seq 0 (length h)) active false next)
          sample_request (mkResponseWriter None) [] [].

Definition upstream_ok : Request → proxy_result :=
  λ _, mkProxyResult (Some 200) None true.

(** ** Reading traces *)

(** The instances [Serve()] and [Done()] were called on, in order. *)
Definition Serve_calls (evs : list event) : list ptr :=
  omap (λ e, match e with EvServe p => Some p | _ => None end) evs.
Definition Done_calls (evs : list event) : list ptr :=
  omap (λ e, match e with EvDone p => Some p | _ => None end) evs.
Definition Stop_calls (evs : list event) : list ptr :=
  omap (λ e, match e with EvStop p => Some p | _ => None end) evs.
(** The ids handed to [NewInstance], in order. *)
Definition assigned_ids (evs : list event) : list Z :=
  omap (λ e, match e with EvNewInstance id _ => Some id | _ => None end) evs.
(** The requests handed to the reverse proxy, in order. *)
Definition proxied (evs : list event) : list Request :=
  omap (λ e, match e with EvProxy r => Some r | _ => None end) evs.

(** ** Notions used in the statements *)

(** What the deferred closure of [ServeHTTP] adds to the trace before its
    call of [Done()]. *)
Definition recovery_events (recovered : option panic_value) : list event :=
  match recovered with
  | Some v =>
      if bool_decide (v = PanicError ErrNoActiveInstances)
      then [EvLog v; EvWriteHeader 503; EvBodyClose]
      else [EvLog v]
  | None => []
  end.

(** The events of a promotion of [instance] over the prior active [prior]:
    the swap under the lock, then [Stop()] on the prior active if there is
    one. *)
Definition promotion_events (instance : ptr) (prior : option ptr) : list event :=
  [EvLock; EvReadActive prior; EvWriteActive (Some instance); EvUnlock] ++
  match prior with
  | Some p => [EvStop p]
  | None => []
  end.

(** Two instances: the first (address 0) has exited and is not the active
    one, the second (address 1) is serving and is the active one. *)
Definition world_stale_exited : World :=
  sample_world [sample_instance 1 20000 InstanceStatusExited;
                sample_instance 2 20001 InstanceStatusServing]
               (Some 1%nat) 2 [20001].

(** The instances of the App that are in Starting when the call begins. *)
Definition starting_in (w : World) (p : ptr) : Prop :=
  p ∈ instances (app w) ∧ status_of w p = Some InstanceStatusStarting.

#[global] Instance starting_in_dec w p : Decision (starting_in w p).
Proof. unfold starting_in. apply _. Defined.

(** One instance, still in Starting, and a pool with no free port. *)
Definition world_starting_exhausted : World :=
  sample_world [sample_instance 1 20000 InstanceStatusStarting]
               None 1 [20000; 20001].

(** The world after a call of [StartNewInstance], and after [n] calls in a
    row.  The number of calls is a binary number: a run can be long. *)
Definition call_StartNewInstance (w : World) : World := (StartNewInstance w).2.

Definition after_calls (n : N) (w : World) : World :=
  N.iter n call_StartNewInstance w.

(** The ids handed to [NewInstance] by the call made in world [w]. *)
Definition ids_of_call (w : World) : list Z :=
  assigned_ids (drop (length (trace w)) (trace (call_StartNewInstance w))).

(** The ids handed out by the call number [k + 1] of a run that starts in [w]. *)
Definition ids_of_nth_call (k : N) (w : World) : list Z :=
  ids_of_call (after_calls k w).

(** The world of a run that begins: [NewApp], empty heap, empty trace. *)
Definition fresh_world (cfg : AppConfig) (pp : PortPool) : World :=
  mkWorld [] pp (NewApp cfg) sample_request (mkResponseWriter None) [] [].

(** The computation leaves the id counter of the App as it is. *)
Definition keeps_instanceId {A} (m : M A) : Prop :=
  ∀ w, instanceId (app (m w).2) = instanceId (app w).

(** The request as [ServeHTTP] leaves it for the reverse proxy, for the
    instance [i]. *)
Definition rewritten (i : Instance) (r : Request) : Request :=
  mkRequest "http" (Instance_Hostname i) (RemoteAddr r)
            (Header_Add "X-Real-IP" (SplitHostPort (RemoteAddr r)).1.1 (Header r))
            (Body_closed r).

(** ** Notions used in the further facts *)

(** What the body of the updater loop leaves in the slot, for the status
    that [UpdateStatus()] returned. *)
Definition next_active (instance : ptr) (s : InstanceStatus) (a : option ptr)
  : option ptr :=
  if bool_decide (s = InstanceStatusServing) then Some instance
  else if bool_decide (s = InstanceStatusExited) then None
  else a.

(** The events of one pass of the body of the updater loop, for the status
    returned and the slot as it was. *)
Definition update_events (instance : ptr) (s : InstanceStatus) (a : option ptr)
  : list event :=
  EvUpdateStatus instance s ::
  (if bool_decide (s = InstanceStatusServing) then
     EvReadActive a ::
     (if bool_decide (Some instance ≠ a) then promotion_events instance a else [])
   else if bool_decide (s = InstanceStatusExited) then [EvWriteActive None]
   else []).

(** The events of the passes of one round, for the statuses returned. *)
Fixpoint tick_events (reports : list (ptr * InstanceStatus)) (a : option ptr)
  : list event :=
  match reports with
  | [] => []
  | (p, s) :: reports' =>
      update_events p s a ++ tick_events reports' (next_active p s a)
  end.

(** The slot after the passes of one round. *)
Definition active_after (reports : list (ptr * InstanceStatus)) (a : option ptr)
  : option ptr :=
  foldl (λ a r, next_active r.1 r.2 a) a reports.

(** The calls of [UpdateStatus()] of a trace, with what they returned. *)
Definition status_reports (evs : list event) : list (ptr * InstanceStatus) :=
  omap (λ e, match e with EvUpdateStatus p s => Some (p, s) | _ => None end) evs.

(** The events on the mutex ([true] for [Lock], [false] for [Unlock]) and
    the writes of the slot. *)
Definition lock_events (evs : list event) : list bool :=
  omap (λ e, match e with EvLock => Some true | EvUnlock => Some false | _ => None end) evs.
Definition active_writes (evs : list event) : list (option ptr) :=
  omap (λ e, match e with EvWriteActive v => Some v | _ => None end) evs.

(** What is done to an App from outside, one thing after the other: a call
    of [StartNewInstance], a round of the updater, a request. *)
Inductive op :=
| OpStartNewInstance
| OpTick (observe : ptr → InstanceStatus)
| OpServeHTTP (call : Request → option proxy_result) (r : Request).

(** A request arrives: its [*http.Request], and a response writer with
    nothing written. *)
Definition receive (r : Request) : M unit :=
  modify (λ w, with_rw (mkResponseWriter None) (with_req r w)).

Definition do_op (o : op) : M unit :=
  match o with
  | OpStartNewInstance => StartNewInstance;; mret ()
  | OpTick observe => updaterTick observe
  | OpServeHTTP call r => receive r;; ServeHTTP_call call
  end.

(** The calls of the reverse proxy that the operation makes come back. *)
Definition comes_back (o : op) : Prop :=
  match o with
  | OpServeHTTP call _ => ∀ r, is_Some (call r)
  | _ => True
  end.

Definition do_ops (l : list op) : M unit := forM_ l do_op.

(** The reports of a round that decide the slot: those of Serving and of
    Exited; the last of them has the last word. *)
Definition deciding (r : ptr * InstanceStatus) : bool :=
  bool_decide (r.2 = InstanceStatusServing) || bool_decide (r.2 = InstanceStatusExited).

Definition last_word (reports : list (ptr * InstanceStatus))
  : option (ptr * InstanceStatus) :=
  last (filter (λ r, deciding r = true) reports).

Definition decided (reports : list (ptr * InstanceStatus)) (a : option ptr)
  : option ptr :=
  match last_word reports with
  | Some (p, s) => if bool_decide (s = InstanceStatusServing) then Some p else None
  | None => a
  end.

(** The events of a call of [reserveInstance] that finds [p] in the slot,
    and of the call of [Done()] of the deferred closure of [ServeHTTP]. *)
Definition reserve_events (p : ptr) : list event :=
  [EvLock; EvReadActive (Some p); EvReadActive (Some p); EvServe p;
   EvReadActive (Some p); EvUnlock].

Definition done_events (instance : option ptr) : list event :=
  match instance with
  | Some p => [EvDone p]
  | None => []
  end.

(** The response writer after the reverse proxy is through with it. *)
Definition proxy_rw (res : proxy_result) (r : ResponseWriter) : ResponseWriter :=
  match proxy_written res with
  | Some code => WriteHeader_rw code r
  | None => r
  end.

(** The request after the reverse proxy is through with it. *)
Definition proxy_req (res : proxy_result) (r : Request) : Request :=
  if proxy_closes_body res then set_Body_closed true r else r.

(** No counter of the heap is above zero: no request is still counted. *)
Definition settled (h : list Instance) : Prop :=
  Forall (λ i, instance_inFlight i ≤ 0) h.

(** The App between two operations, when they come one after the other:
    the mutex is free; the slot holds nil or an instance of the list; the
    instances of the list are in the heap, each once in the list; every
    call of [Serve()] so far has been followed by its call of [Done()]; no
    request is still counted. *)
Record run_ok (w : World) : Prop := mkRunOk {
  ok_lock : activeInstanceLock (app w) = false;
  ok_active : ∀ p, activeInstance (app w) = Some p → p ∈ instances (app w);
  ok_valid : ∀ p, p ∈ instances (app w) → is_Some (heap w !! p);
  ok_nodup : NoDup (instances (app w));
  ok_balanced : Serve_calls (trace w) = Done_calls (trace w);
  ok_settled : settled (heap w)
}.

(** What [instance.UpdateStatus()] returns in world [w], for what the
    outside world yields. *)
Definition status_returned (observed : InstanceStatus) (instance : ptr) (w : World)
  : InstanceStatus :=
  default observed
    (instance_status <$>
       alter (Instance_UpdateStatus observed) instance (heap w) !! instance).

(** * The configuration file (config.go) *)

Module ConfigGo.

(** ** Struct tags *)

(** The double quote, and a tag [yaml:"k"] as the source writes it between
    back quotes. *)
Definition dq : string := String (ascii_of_nat 34) EmptyString.
Definition yaml_tag (k : string) : string := "yaml:" +:+ dq +:+ k +:+ dq.

(** The tag of [InternalPorts.From] as the source has it between the back
    quotes: yaml, a colon, a double quote, from, a colon; the double quote
    is never closed. *)
Definition tag_From : string := "yaml:" +:+ dq +:+ "from:".

(** [reflect.StructTag.Get] of the standard library: a tag is a list of
    [key:"value"] pairs separated by spaces; the scan stops, with nothing
    found, at the first pair that is not so written. *)
Fixpoint skip_spaces (s : string) : string :=
  match s with
  | String c s' => if Ascii.eqb c " " then skip_spaces s' else s
  | EmptyString => s
  end.

Definition name_byte (c : ascii) : bool :=
  let n := nat_of_ascii c in
  ((32 <? n) && negb (n =? 58) && negb (n =? 34) && negb (n =? 127))%nat.

Fixpoint scan_name (s : string) : nat :=
  match s with
  | String c s' => if name_byte c then S (scan_name s') else O
  | EmptyString => O
  end.

(** The index of the quote that closes the value, counted from [i] for the
    first byte of [s]; a backslash takes the next byte with it. *)
Fixpoint scan_quoted (s : string) (i : nat) : option nat :=
  match s with
  | EmptyString => None
  | String c s' =>
      if Ascii.eqb c (ascii_of_nat 34) then Some i
      else if Ascii.eqb c (ascii_of_nat 92) then
        match s' with
        | EmptyString => None
        | String _ s'' => scan_quoted s'' (i + 2)
        end
      else scan_quoted s' (i + 1)
  end.

(** [strconv.Unquote] of a double-quoted value without escape sequence; a
    value with a backslash or a line feed is not decoded here (no tag of
    config.go has one). *)
Definition Unquote (q : string) : option string :=
  let body := str_slice 1 (String.length q - 1) q in
  if all_bytes (λ c, negb (Ascii.eqb c (ascii_of_nat 92))
                     && negb (Ascii.eqb c (ascii_of_nat 10))) body
  then Some body else None.

Fixpoint StructTag_Lookup (fuel : nat) (tag key : string) : option string :=
  match fuel with
  | O => None
  | S fuel' =>
      let tag := skip_spaces tag in
      let i := scan_name tag in
      if bool_decide (i = O) || (String.length tag <=? i + 1)%nat
         || negb (bool_decide (String.get i tag = Some ":"%char))
         || negb (bool_decide (String.get (i + 1) tag = Some (ascii_of_nat 34)))
      then None
      else
        let name := str_to i tag in
        let tag := str_from (i + 1) tag in
        match scan_quoted (str_from 1 tag) 1 with
        | None => None
        | Some j =>
            if String.eqb key name then Unquote (str_to (j + 1) tag)
            else StructTag_Lookup fuel' (str_from (j + 1) tag) key
        end
  end.

Definition StructTag_Get (tag key : string) : string :=
  default EmptyString (StructTag_Lookup (S (String.length tag)) tag key).

(** ** The key of a field (yaml.v2, [getStructInfo]) *)

Fixpoint split_on (c : ascii) (s : string) : list string :=
  match s with
  | EmptyString => [EmptyString]
  | String a s' =>
      if Ascii.eqb a c then EmptyString :: split_on c s'
      else match split_on c s' with
           | x :: l => String a x :: l
           | [] => [String a EmptyString]
           end
  end.

Fixpoint ToLower (s : string) : string :=
  match s with
  | EmptyString => EmptyString
  | String a s' =>
      let n := nat_of_ascii a in
      String (if (65 <=? n) && (n <=? 90) then ascii_of_nat (n + 32) else a)%nat
             (ToLower s')
  end.

Inductive fieldKey :=
| KeyNamed (k : string)
| KeySkipped
| KeyInline
| KeyUnsupportedFlag.

#[global] Instance fieldKey_eq_dec : EqDecision fieldKey.
Proof. solve_decision. Defined.

(** The [yaml] value of the tag, or the whole tag when it has no colon;
    ["-"] skips the field; what follows the first comma are flags; an empty
    key is replaced by the lower-cased name of the field. *)
Definition yaml_fieldKey (name tag : string) : fieldKey :=
  let t := StructTag_Get tag "yaml" in
  let t := if String.eqb t "" && bool_decide (index_byte ":" tag = None)
           then tag else t in
  if String.eqb t "-" then KeySkipped
  else
    match split_on "," t with
    | [] => KeyNamed (ToLower name)
    | k :: flags =>
        if forallb (λ f, bool_decide (f ∈ ["omitempty"; "flow"; "inline"])) flags
        then if bool_decide ("inline" ∈ flags) then KeyInline
             else KeyNamed (if String.eqb k "" then ToLower name else k)
        else KeyUnsupportedFlag
    end.

(** ** The records of config.go, with their tags *)

Record InternalPorts := mkInternalPorts {
  From : Z;
  To : Z
}.

Record AppConfig := mkAppConfig {
  Name : string;
  Command : string;
  HealthCheck : string;
  StopSignal : string;
  MaxRetries : Z;
  StartTimeout : Z;
  StopTimeout : Z;
  InternalHost : string;
  ExternalHost : string;
  ExternalPort : Z
}.

Record RpcConfig := mkRpcConfig {
  Host : string;
  Port : Z
}.

(** The three fields of [Config] are pointers or a slice of pointers:
    [None] is [nil]. *)
Record Config := mkConfig {
  PortRange : option InternalPorts;
  Apps : list (option AppConfig);
  Rpc : option RpcConfig
}.

Definition configFile : string := "gracevisor.yaml".

(** ** Decoding (yaml.v2, [Unmarshal]) *)

(** A YAML document once parsed, its plain scalars resolved to the value
    they denote; a plain [<<] resolves to the merge key.  Anchors and
    aliases are not modelled.  A floating-point scalar carries its integer
    part, which is what goes to an integer field. *)
Inductive resolved :=
| RNull
| RBool (b : bool)
| RInt (z : Z)
| RFloat (truncated : Z)
| RStr
| RMerge.

#[local] Unset Elimination Schemes.
Inductive node :=
| scalarNode (value : string) (r : resolved)
| mappingNode (children : list (node * node))
| sequenceNode (children : list node).
#[local] Set Elimination Schemes.

(** Induction on a node, with the property known of the nodes below it. *)
Fixpoint node_ind (P : node → Prop)
    (Hscalar : ∀ v r, P (scalarNode v r))
    (Hmapping : ∀ children,
        Forall (λ kv, P kv.1 ∧ P kv.2) children → P (mappingNode children))
    (Hsequence : ∀ children, Forall P children → P (sequenceNode children))
    (n : node) {struct n} : P n :=
  match n with
  | scalarNode v r => Hscalar v r
  | mappingNode children =>
      Hmapping children
        ((fix go (l : list (node * node)) : Forall (λ kv, P kv.1 ∧ P kv.2) l :=
            match l with
            | [] => List.Forall_nil _
            | (k, v) :: l' =>
                List.Forall_cons (λ kv, P kv.1 ∧ P kv.2) (k, v) l'
                  (conj (node_ind P Hscalar Hmapping Hsequence k)
                        (node_ind P Hscalar Hmapping Hsequence v))
                  (go l')
            end) children)
  | sequenceNode children =>
      Hsequence children
        ((fix go (l : list node) : Forall P l :=
            match l with
            | [] => List.Forall_nil _
            | x :: l' =>
                List.Forall_cons P x l' (node_ind P Hscalar Hmapping Hsequence x) (go l')
            end) children)
  end.

(** What goes wrong while decoding.  A type error, which is kept until the
    end: the YAML tag of the node, its text as the message shows it, and the
    Go type it does not fit.  And a merge whose value is no map and no
    sequence of maps, at which the decoder gives up: whatever else it meets
    no longer counts. *)
Inductive terror :=
| mkTerror (tag value type : string)
| wantMap.

#[global] Instance terror_eq_dec : EqDecision terror.
Proof. solve_decision. Defined.

(** What [d.unmarshal(n, out)] gives: the new value of [out], whether the
    node was decoded, and the type errors met. *)
Record decoded (T : Type) := mkDecoded {
  value : T;
  good : bool;
  terrors : list terror
}.
Arguments mkDecoded {T} value good terrors.
Arguments value {T} d.
Arguments good {T} d.
Arguments terrors {T} d.

Definition decoder (T : Type) : Type := node → T → decoded T.

Definition tag_of (r : resolved) : string :=
  match r with
  | RNull => "!!null"
  | RBool _ => "!!bool"
  | RInt _ => "!!int"
  | RFloat _ => "!!float"
  | RStr => "!!str"
  | RMerge => "!!merge"
  end.

(** The text of a scalar as a type error shows it: a text of more than 10
    bytes is cut to its first 7 bytes and three dots. *)
Definition short_value (v : string) : string :=
  if (10 <? String.length v)%nat then substring 0 7 v +:+ "..." else v.

Definition fail {T} (n : node) (type : string) (out : T) : decoded T :=
  match n with
  | scalarNode v r => mkDecoded out false [mkTerror (tag_of r) (short_value v) type]
  | mappingNode _ => mkDecoded out false [mkTerror "!!map" "" type]
  | sequenceNode _ => mkDecoded out false [mkTerror "!!seq" "" type]
  end.

(** A scalar into a [uint32]: an integer from 0 to 2^32 - 1 (for a float,
    its integer part); null gives the zero value. *)
Definition decode_uint32 : decoder Z := λ n out,
  match n with
  | scalarNode _ RNull => mkDecoded 0 true []
  | scalarNode _ (RInt z) | scalarNode _ (RFloat z) =>
      if (0 <=? z) && (z <? 2 ^ 32) then mkDecoded z true []
      else fail n "uint32" out
  | _ => fail n "uint32" out
  end.

(** A scalar into an [int] (64 bits).  A float goes in when it is at most
    2^63; one that [int64] cannot hold is converted all the same, and the
    conversion gives -2^63 (on amd64). *)
Definition decode_int : decoder Z := λ n out,
  match n with
  | scalarNode _ RNull => mkDecoded 0 true []
  | scalarNode _ (RInt z) =>
      if (- 2 ^ 63 <=? z) && (z <? 2 ^ 63) then mkDecoded z true []
      else fail n "int" out
  | scalarNode _ (RFloat z) =>
      if z <=? 2 ^ 63
      then mkDecoded (if (- 2 ^ 63 <=? z) && (z <? 2 ^ 63) then z else - 2 ^ 63)
                     true []
      else fail n "int" out
  | _ => fail n "int" out
  end.

(** A scalar into a [string]: the text of any scalar but null. *)
Definition decode_string : decoder string := λ n out,
  match n with
  | scalarNode _ RNull => mkDecoded EmptyString true []
  | scalarNode v _ => mkDecoded v true []
  | _ => fail n "string" out
  end.

(** A field of a struct of type [S]: its Go name, its tag, and the decoder
    of a node into the field. *)
Record field (S : Type) := mkField {
  field_name : string;
  field_tag : string;
  field_decode : node → S → decoded S
}.
Arguments mkField {S} field_name field_tag field_decode.
Arguments field_name {S} f.
Arguments field_tag {S} f.
Arguments field_decode {S} f.

Definition into {S A} (get : S → A) (set : A → S → S) (d : decoder A)
  : node → S → decoded S :=
  λ n s, let r := d n (get s) in mkDecoded (set (value r) s) (good r) (terrors r).

Definition field_key {S} (f : field S) : fieldKey :=
  yaml_fieldKey (field_name f) (field_tag f).

(** [sinfo.FieldsMap[name]]: the field whose key is [name]. *)
Definition lookup_field {S} (fields : list (field S)) (name : string)
  : option (field S) :=
  List.find (λ f, bool_decide (field_key f = KeyNamed name)) fields.
Arguments lookup_field : simpl never.

(** The key node of a mapping entry decoded into a string, when it is a
    scalar. *)
Definition key_name (k : node) : option string :=
  let r := decode_string k EmptyString in
  if good r then Some (value r) else None.
Arguments key_name : simpl never.

(** The decoder gives up at a merge whose value is no map and no sequence
    of maps: nothing is decoded after that. *)
Definition gave_up {T} (r : decoded T) : bool := bool_decide (wantMap ∈ terrors r).

(** One step of decoding and then the next, from what the first has
    written, unless the first gave up. *)
Definition and_then {S} (r : decoded S) (next : S → decoded S) : decoded S :=
  if gave_up r then r
  else let r' := next (value r) in
       mkDecoded (value r') (good r') (terrors r ++ terrors r').

(** [isMerge]: the key [<<], plain or tagged as a merge. *)
Definition isMerge (k : node) : bool :=
  match k with
  | scalarNode v RMerge => String.eqb v "<<"
  | _ => false
  end.

(** An entry whose key is no merge key.  The key is decoded into a string,
    which is a type error for a key that is no scalar; an entry whose key is
    no field of the struct is passed over. *)
Definition keyed_entry {S} (fields : list (field S)) (k v : node) (out : S)
  : decoded S :=
  match key_name k with
  | Some name =>
      match lookup_field fields name with
      | Some f => field_decode f v out
      | None => mkDecoded out true []
      end
  | None => mkDecoded out true (terrors (decode_string k EmptyString))
  end.

(** [d.mapping] on a mapping node, into a struct: the entries in order
    ([mappingStruct]).  The value under a merge key is decoded into the same
    struct ([merge]): a mapping as it is; a sequence from its last element
    to its first, each of which has to be a mapping.  (The function is
    called on mapping nodes only.) *)
Fixpoint mapping {S} (fields : list (field S)) (n : node) (out : S) {struct n}
  : decoded S :=
  match n with
  | mappingNode children =>
      (fix entries (l : list (node * node)) (out : S) {struct l} : decoded S :=
         match l with
         | [] => mkDecoded out true []
         | (k, v) :: rest =>
             and_then
               (if isMerge k
                then match v with
                     | mappingNode _ => mapping fields v out
                     | sequenceNode ms =>
                         (fix maps (ms : list node) (out : S) {struct ms} : decoded S :=
                            match ms with
                            | [] => mkDecoded out true []
                            | m :: ms' =>
                                and_then (maps ms' out)
                                  (λ out', match m with
                                           | mappingNode _ => mapping fields m out'
                                           | _ => mkDecoded out' false [wantMap]
                                           end)
                            end) ms out
                     | scalarNode _ _ => mkDecoded out false [wantMap]
                     end
                else keyed_entry fields k v out)
               (entries rest)
         end) children out
  | _ => mkDecoded out false []
  end.

Definition mappingStruct {S} (fields : list (field S))
    (children : list (node * node)) (out : S) : decoded S :=
  mapping fields (mappingNode children) out.

(** The parts of [mapping], by name: the maps of a sequence under a merge
    key, the value under a merge key, and one entry. *)
Definition merge_maps {S} (fields : list (field S)) : list node → S → decoded S :=
  fix maps (ms : list node) (out : S) {struct ms} : decoded S :=
    match ms with
    | [] => mkDecoded out true []
    | m :: ms' =>
        and_then (maps ms' out)
          (λ out', match m with
                   | mappingNode _ => mapping fields m out'
                   | _ => mkDecoded out' false [wantMap]
                   end)
    end.

Definition merge {S} (fields : list (field S)) (v : node) (out : S) : decoded S :=
  match v with
  | mappingNode _ => mapping fields v out
  | sequenceNode ms => merge_maps fields ms out
  | scalarNode _ _ => mkDecoded out false [wantMap]
  end.

Definition entry {S} (fields : list (field S)) (k v : node) (out : S) : decoded S :=
  if isMerge k then merge fields v out else keyed_entry fields k v out.

(** [getStructInfo] refuses a struct with an unsupported flag or with two
    fields of one key; no struct of config.go has an inline field. *)
Definition struct_ok {S} (fields : list (field S)) : bool :=
  forallb (λ f, match field_key f with KeyNamed _ => true | _ => false end) fields
  && bool_decide (NoDup (field_key <$> fields)).

(** A node into a struct; null gives the zero value. *)
Definition decode_struct {S} (type : string) (zero : S) (fields : list (field S))
  : decoder S :=
  λ n out,
  match n with
  | scalarNode _ RNull => mkDecoded zero true []
  | mappingNode _ => mapping fields n out
  | _ => fail n type out
  end.

(** A node into a pointer: null sets [nil]; otherwise a [nil] pointer gets
    a new zero value first. *)
Definition decode_ptr {T} (zero : T) (d : decoder T) : decoder (option T) :=
  λ n out,
  match n with
  | scalarNode _ RNull => mkDecoded None true []
  | _ => let r := d n (default zero out) in
         mkDecoded (Some (value r)) (good r) (terrors r)
  end.

(** A sequence into a slice, which is made with the length of the sequence:
    the elements that decode, in order, each decoded into a new zero value
    and then stored; at the end the slice is cut to the elements stored.
    When the decoder gives up in an element, that element is not stored and
    the slice is left at its full length. *)
Fixpoint decode_elements {T} (zero : T) (d : decoder T) (l : list node)
  : list T * list terror :=
  match l with
  | [] => ([], [])
  | n :: l' =>
      let r := d n zero in
      if gave_up r then ([], terrors r)
      else
        let '(vs, es) := decode_elements zero d l' in
        (if good r then value r :: vs else vs, terrors r ++ es)
  end.

Definition decode_slice {T} (type : string) (zero : T) (d : decoder T)
  : decoder (list T) :=
  λ n out,
  match n with
  | scalarNode _ RNull => mkDecoded [] true []
  | sequenceNode l =>
      let '(vs, es) := decode_elements zero d l in
      if bool_decide (wantMap ∈ es)
      then mkDecoded (vs ++ replicate (length l - length vs) zero) false es
      else mkDecoded vs true es
  | _ => fail n type out
  end.

(** ** The structs of config.go as the decoder sees them *)

Definition set_From (z : Z) (p : InternalPorts) : InternalPorts := mkInternalPorts z (To p).
Definition set_To (z : Z) (p : InternalPorts) : InternalPorts := mkInternalPorts (From p) z.

Definition InternalPorts_fields : list (field InternalPorts) :=
  [ mkField "From" tag_From (into From set_From decode_uint32);
    mkField "To" (yaml_tag "to") (into To set_To decode_uint32) ].

Definition set_Name (x : string) (a : AppConfig) : AppConfig :=
  mkAppConfig x (Command a) (HealthCheck a) (StopSignal a) (MaxRetries a)
    (StartTimeout a) (StopTimeout a) (InternalHost a) (ExternalHost a) (ExternalPort a).
Definition set_Command (x : string) (a : AppConfig) : AppConfig :=
  mkAppConfig (Name a) x (HealthCheck a) (StopSignal a) (MaxRetries a)
    (StartTimeout a) (StopTimeout a) (InternalHost a) (ExternalHost a) (ExternalPort a).
Definition set_HealthCheck (x : string) (a : AppConfig) : AppConfig :=
  mkAppConfig (Name a) (Command a) x (StopSignal a) (MaxRetries a)
    (StartTimeout a) (StopTimeout a) (InternalHost a) (ExternalHost a) (ExternalPort a).
Definition set_StopSignal (x : string) (a : AppConfig) : AppConfig :=
  mkAppConfig (Name a) (Command a) (HealthCheck a) x (MaxRetries a)
    (StartTimeout a) (StopTimeout a) (InternalHost a) (ExternalHost a) (ExternalPort a).
Definition set_MaxRetries (x : Z) (a : AppConfig) : AppConfig :=
  mkAppConfig (Name a) (Command a) (HealthCheck a) (StopSignal a) x
    (StartTimeout a) (StopTimeout a) (InternalHost a) (ExternalHost a) (ExternalPort a).
Definition set_StartTimeout (x : Z) (a : AppConfig) : AppConfig :=
  mkAppConfig (Name a) (Command a) (HealthCheck a) (StopSignal a) (MaxRetries a)
    x (StopTimeout a) (InternalHost a) (ExternalHost a) (ExternalPort a).
Definition set_StopTimeout (x : Z) (a : AppConfig) : AppConfig :=
  mkAppConfig (Name a) (Command a) (HealthCheck a) (StopSignal a) (MaxRetries a)
    (StartTimeout a) x (InternalHost a) (ExternalHost a) (ExternalPort a).
Definition set_InternalHost (x : string) (a : AppConfig) : AppConfig :=
  mkAppConfig (Name a) (Command a) (HealthCheck a) (StopSignal a) (MaxRetries a)
    (StartTimeout a) (StopTimeout a) x (ExternalHost a) (ExternalPort a).
Definition set_ExternalHost (x : string) (a : AppConfig) : AppConfig :=
  mkAppConfig (Name a) (Command a) (HealthCheck a) (StopSignal a) (MaxRetries a)
    (StartTimeout a) (StopTimeout a) (InternalHost a) x (ExternalPort a).
Definition set_ExternalPort (x : Z) (a : AppConfig) : AppConfig :=
  mkAppConfig (Name a) (Command a) (HealthCheck a) (StopSignal a) (MaxRetries a)
    (StartTimeout a) (StopTimeout a) (InternalHost a) (ExternalHost a) x.

Definition AppConfig_fields : list (field AppConfig) :=
  [ mkField "Name" (yaml_tag "name") (into Name set_Name decode_string);
    mkField "Command" (yaml_tag "command") (into Command set_Command decode_string);
    mkField "HealthCheck" (yaml_tag "healthcheck") (into HealthCheck set_HealthCheck decode_string);
    mkField "StopSignal" (yaml_tag "stop_signal") (into StopSignal set_StopSignal decode_string);
    mkField "MaxRetries" (yaml_tag "max_retries") (into MaxRetries set_MaxRetries decode_int);
    mkField "StartTimeout" (yaml_tag "start_timeout") (into StartTimeout set_StartTimeout decode_int);
    mkField "StopTimeout" (yaml_tag "stop_timeout") (into StopTimeout set_StopTimeout decode_int);
    mkField "InternalHost" (yaml_tag "internal_host") (into InternalHost set_InternalHost decode_string);
    mkField "ExternalHost" (yaml_tag "external_host") (into ExternalHost set_ExternalHost decode_string);
    mkField "ExternalPort" (yaml_tag "external_port") (into ExternalPort set_ExternalPort decode_uint32) ].

Definition set_Host (x : string) (r : RpcConfig) : RpcConfig := mkRpcConfig x (Port r).
Definition set_Port (x : Z) (r : RpcConfig) : RpcConfig := mkRpcConfig (Host r) x.

Definition RpcConfig_fields : list (field RpcConfig) :=
  [ mkField "Host" (yaml_tag "host") (into Host set_Host decode_string);
    mkField "Port" (yaml_tag "port") (into Port set_Port decode_uint32) ].

Definition zero_InternalPorts : InternalPorts := mkInternalPorts 0 0.
Definition zero_AppConfig : AppConfig := mkAppConfig "" "" "" "" 0 0 0 "" "" 0.
Definition zero_RpcConfig : RpcConfig := mkRpcConfig "" 0.
(** [&Config{}] *)
Definition zero_Config : Config := mkConfig None [] None.

Definition set_PortRange (x : option InternalPorts) (c : Config) : Config :=
  mkConfig x (Apps c) (Rpc c).
Definition set_Apps (x : list (option AppConfig)) (c : Config) : Config :=
  mkConfig (PortRange c) x (Rpc c).
Definition set_Rpc (x : option RpcConfig) (c : Config) : Config :=
  mkConfig (PortRange c) (Apps c) x.

Definition Config_fields : list (field Config) :=
  [ mkField "PortRange" (yaml_tag "port_range")
      (into PortRange set_PortRange
         (decode_ptr zero_InternalPorts
            (decode_struct "main.InternalPorts" zero_InternalPorts
                           InternalPorts_fields)));
    mkField "Apps" (yaml_tag "apps")
      (into Apps set_Apps
         (decode_slice "[]*main.AppConfig" None
            (decode_ptr zero_AppConfig
               (decode_struct "main.AppConfig" zero_AppConfig AppConfig_fields))));
    mkField "Rpc" (yaml_tag "rpc")
      (into Rpc set_Rpc
         (decode_ptr zero_RpcConfig
            (decode_struct "main.RpcConfig" zero_RpcConfig RpcConfig_fields))) ].

(** ** ParseConfing *)

Inductive config_error :=
| ReadError (msg : string)
| YamlSyntaxError (msg : string)
| YamlStructError
| YamlMergeError
| YamlTypeError (errs : list terror).

(** [yaml.Unmarshal(data, config)] on a parsed document: nothing to decode
    for an empty document; an error when a struct is refused, when the
    decoder gave up at a merge, or when type errors were met. *)
Definition Unmarshal (doc : option node) (config : Config) : Config * option config_error :=
  if negb (struct_ok Config_fields && struct_ok InternalPorts_fields
           && struct_ok AppConfig_fields && struct_ok RpcConfig_fields)
  then (config, Some YamlStructError)
  else
    match doc with
    | None => (config, None)
    | Some n =>
        let r := decode_struct "main.Config" zero_Config Config_fields n config in
        (value r,
         match terrors r with
         | [] => None
         | es => Some (if bool_decide (wantMap ∈ es) then YamlMergeError
                       else YamlTypeError es)
         end)
    end.

Section ParseConfing.
(** The world outside: [path.Join], [ioutil.ReadFile], and the YAML
    parser from the bytes of the file to the document. *)
Variable path_Join : string → string → string.
Variable ReadFile : string → string + string.
Variable yaml_parse : string → option node + string.

Definition ParseConfing (configPath : string) : option Config * option config_error :=
  match ReadFile (path_Join configPath configFile) with
  | inr err => (None, Some (ReadError err))
  | inl data =>
      match yaml_parse data with
      | inr err => (None, Some (YamlSyntaxError err))
      | inl doc =>
          match Unmarshal doc zero_Config with
          | (_, Some err) => (None, Some err)
          | (config, None) => (Some config, None)
          end
      end
  end.
End ParseConfing.

(** ** Notions used in the statements *)

(** The type errors that a field meets depend on the node only. *)
Definition terrors_stable {S} (f : field S) : Prop :=
  ∀ n s1 s2, terrors (field_decode f n s1) = terrors (field_decode f n s2).

(** A mapping has the entry [key: v], and no other entry under [key]. *)
Definition only_entry (key : string) (v : node) (children : list (node * node)) : Prop :=
  ∃ l1 k l2,
    children = l1 ++ (k, v) :: l2 ∧
    key_name k = Some key ∧
    ∀ k' v', (k', v') ∈ l1 ++ l2 → key_name k' ≠ Some key.

(** Every key of the mapping is a scalar. *)
Definition scalar_keys (children : list (node * node)) : Prop :=
  ∀ k v, (k, v) ∈ children → is_Some (key_name k).

(** A scalar that is an integer of 16 bits. *)
Definition uint16_scalar (n : node) (z : Z) : Prop :=
  0 ≤ z < 2 ^ 16 ∧ ∃ text, n = scalarNode text (RInt z).

(** The fields of [InternalPorts] and the field [PortRange] of [Config], as
    in the lists above. *)
Definition field_From : field InternalPorts :=
  mkField "From" tag_From (into From set_From decode_uint32).
Definition field_To : field InternalPorts :=
  mkField "To" (yaml_tag "to") (into To set_To decode_uint32).

(** The type errors that a decoder meets depend on the node only. *)
Definition node_only {T} (d : decoder T) : Prop :=
  ∀ n a1 a2, terrors (d n a1) = terrors (d n a2).

Definition field_PortRange : field Config :=
  mkField "PortRange" (yaml_tag "port_range")
    (into PortRange set_PortRange
       (decode_ptr zero_InternalPorts
          (decode_struct "main.InternalPorts" zero_InternalPorts
                         InternalPorts_fields))).

(** A sample file and its document: a port range and one app. *)
Definition sample_data : string :=
  "{port_range: {from: 20000, to: 20010}, apps: [{name: web, external_port: 8000}]}".

(** A plain scalar that is a string, and one that is an integer. *)
Definition str_scalar (text : string) : node := scalarNode text RStr.
Definition int_scalar (text : string) (z : Z) : node := scalarNode text (RInt z).

Definition sample_port_range : list (node * node) :=
  [(str_scalar "from", int_scalar "20000" 20000); (str_scalar "to", int_scalar "20010" 20010)].

Definition sample_apps : node :=
  sequenceNode [mappingNode [(str_scalar "name", str_scalar "web");
                             (str_scalar "external_port", int_scalar "8000" 8000)]].

Definition sample_path_Join (a b : string) : string := a +:+ "/" +:+ b.
Definition sample_ReadFile (p : string) : string + string :=
  if String.eqb p "/etc/gracevisor/gracevisor.yaml" then inl sample_data
  else inr "no such file or directory".
Definition sample_yaml_parse (data : string) : option node + string :=
  if String.eqb data sample_data
  then inl (Some (mappingNode [(str_scalar "port_range", mappingNode sample_port_range);
                               (str_scalar "apps", sample_apps)]))
  else inr "yaml: did not find expected node content".

(** A scalar that goes into a [uint32]. *)
Definition fits_uint32 (r : resolved) : bool :=
  match r with
  | RNull => true
  | RInt z | RFloat z => (0 <=? z) && (z <? 2 ^ 32)
  | _ => false
  end.

(** No entry of the mapping is a merge. *)
Definition no_merge (children : list (node * node)) : Prop :=
  ∀ k v, (k, v) ∈ children → isMerge k = false.

(** No entry of the mapping is under [key]. *)
Definition no_entry (key : string) (children : list (node * node)) : Prop :=
  ∀ k v, (k, v) ∈ children → key_name k ≠ Some key.

(** A file with a port range, and with a number where the mapping [rpc]
    is expected. *)
Definition bad_rpc_data : string :=
  "{port_range: {from: 20000, to: 20010}, rpc: 5}".
Definition bad_rpc_ReadFile (p : string) : string + string :=
  if String.eqb p "/etc/gracevisor/gracevisor.yaml" then inl bad_rpc_data
  else inr "no such file or directory".
Definition bad_rpc_yaml_parse (data : string) : option node + string :=
  if String.eqb data bad_rpc_data
  then inl (Some (mappingNode [(str_scalar "port_range", mappingNode sample_port_range);
                               (str_scalar "rpc", int_scalar "5" 5)]))
  else inr "yaml: did not find expected node content".

(** Sample documents: a port that does not fit, no port range, and an
    entry that is no field of [Config]. *)
Definition sample_doc_bad_port : node :=
  mappingNode [(str_scalar "port_range",
                mappingNode [(str_scalar "from", int_scalar "20000" 20000);
                             (str_scalar "to", int_scalar "-1" (-1))]);
               (str_scalar "apps", sample_apps)].

Definition sample_doc_no_port_range : list (node * node) :=
  [(str_scalar "apps", sample_apps)].

Definition sample_doc_unknown_key : list (node * node) :=
  [(str_scalar "port_range", mappingNode sample_port_range);
   (str_scalar "colour", str_scalar "blue");
   (str_scalar "apps", sample_apps)].

End ConfigGo.

(** * Requests and the updater running together

    The goroutines that touch [a.activeInstance], [a.activeInstanceLock] and
    the in-flight counts, cut at each access to this shared state: any
    number of request goroutines, each running [ServeHTTP], and the updater
    goroutine of [startInstanceUpdater].  A run is a sequence of steps, each
    taken by one goroutine, chosen by the scheduler. *)

Module Interleaving.

(** Where a request goroutine is, in [reserveInstance] and then in
    [ServeHTTP]. *)
Inductive req_pc :=
| RStart                                  (* before [a.activeInstanceLock.Lock()] *)
| RLocked                                 (* before [if a.activeInstance == nil] *)
| RChecked                                (* before the receiver of [.Serve()] is read *)
| RCall (target : option ptr)             (* before the body of [Serve()] *)
| RServed                                 (* before [return a.activeInstance, nil] reads the slot *)
| RReturning (res : option ptr) (err : option error)   (* before the deferred [Unlock()] *)
| RPanicking                              (* [Serve()] on nil; before the deferred [Unlock()] *)
| RHandler (instance : option ptr) (err : option error) (* in [ServeHTTP], up to the deferred closure *)
| RFinished                               (* [ServeHTTP] has returned *)
| RCrashed.                               (* the panic has left [reserveInstance] *)

(** A request goroutine, with two history variables: the instance whose
    count its [Serve()] has incremented while its [Done()] has not run yet,
    and the value the slot [a.activeInstance] had at the step of its
    [Serve()]. *)
Record thread := mkThread {
  pc : req_pc;
  counted : option ptr;
  seen : option (option ptr)
}.

(** Where the updater goroutine is, in the body of its loop. *)
Inductive upd_pc :=
| UIdle                                            (* before [instance.UpdateStatus()] *)
| UStatus (instance : ptr) (returned : InstanceStatus)  (* before the [if] *)
| UWantLock (instance : ptr)                       (* before [Lock()] *)
| UHasLock (instance : ptr)                        (* before [currentActive := a.activeInstance] *)
| UWrite (instance : ptr) (currentActive : option ptr) (* before [a.activeInstance = instance] *)
| UUnlock (currentActive : option ptr)             (* before [Unlock()] *)
| UStop (currentActive : option ptr).              (* before [currentActive.Stop()] *)

Record State := mkState {
  active : option ptr;
  locked : bool;
  inFlight : ptr → Z;
  status : ptr → InstanceStatus;
  threads : list thread;
  updater : upd_pc
}.

(** The in-flight counts, one per instance. *)
Definition bump (f : ptr → Z) (p : ptr) (d : Z) : ptr → Z :=
  λ q, if bool_decide (q = p) then f q + d else f q.

(** Modelled from the spec: the bodies of [Instance.Serve] and
    [Instance.Done] are not in the sources; "Serve(): increments inFlight",
    and it "must fail-fast (return an error) if the instance is not in
    Serving": then nothing is counted; "Done(): decrements inFlight"; and
    "the Instance's inFlight is updated atomically", so each is one step. *)
Definition Serve_inFlight (st : InstanceStatus) (p : ptr) (f : ptr → Z) : ptr → Z :=
  if bool_decide (st = InstanceStatusServing) then bump f p 1 else f.
Definition Done_inFlight (p : ptr) (f : ptr → Z) : ptr → Z := bump f p (-1).

(** Modelled from the spec: the bodies of [Instance.UpdateStatus] and
    [Instance.Stop] are not in the sources.  [UpdateStatus()] "returns the
    current status", after the probes and the reaping of the child have
    moved the instance to what the outside world yields at this call,
    [observed]; "once a terminal status is set, it never changes".
    [Stop()] "transitions Starting|Serving -> Stopping". *)
Definition UpdateStatus_status (observed st : InstanceStatus) : InstanceStatus :=
  if terminal st then st else observed.

Definition Stop_status (st : InstanceStatus) : InstanceStatus :=
  match st with
  | InstanceStatusStarting | InstanceStatusServing => InstanceStatusStopping
  | _ => st
  end.

Definition set_thread (t : nat) (th : thread) (s : State) : State :=
  mkState (active s) (locked s) (inFlight s) (status s) (<[t := th]> (threads s))
          (updater s).
Definition set_locked (b : bool) (s : State) : State :=
  mkState (active s) b (inFlight s) (status s) (threads s) (updater s).
Definition set_active (a : option ptr) (s : State) : State :=
  mkState a (locked s) (inFlight s) (status s) (threads s) (updater s).
Definition set_inFlight (f : ptr → Z) (s : State) : State :=
  mkState (active s) (locked s) f (status s) (threads s) (updater s).
Definition set_status (p : ptr) (st : InstanceStatus) (s : State) : State :=
  mkState (active s) (locked s) (inFlight s)
          (λ q, if bool_decide (q = p) then st else status s q)
          (threads s) (updater s).
Definition set_updater (u : upd_pc) (s : State) : State :=
  mkState (active s) (locked s) (inFlight s) (status s) (threads s) u.

Definition at_pc (c : req_pc) (th : thread) : thread :=
  mkThread c (counted th) (seen th).

(** The next step of the request goroutine [t]; [None] when it cannot move
    (it waits for the mutex, or it is over).  What [Serve()] returns is
    dropped by [reserveInstance] (line 148), which goes on to return the
    slot. *)
Definition step_req (t : nat) (th : thread) (s : State) : option State :=
  match pc th with
  | RStart =>
      if locked s then None
      else Some (set_thread t (at_pc RLocked th) (set_locked true s))
  | RLocked =>
      match active s with
      | None => Some (set_thread t (at_pc (RReturning None (Some ErrNoActiveInstances)) th) s)
      | Some _ => Some (set_thread t (at_pc RChecked th) s)
      end
  | RChecked => Some (set_thread t (at_pc (RCall (active s)) th) s)
  | RCall None => Some (set_thread t (at_pc RPanicking th) s)
  | RCall (Some p) =>
      Some (set_thread t
              (mkThread RServed
                 (if bool_decide (status s p = InstanceStatusServing)
                  then Some p else None)
                 (Some (active s)))
              (set_inFlight (Serve_inFlight (status s p) p (inFlight s)) s))
  | RServed => Some (set_thread t (at_pc (RReturning (active s) None) th) s)
  | RReturning res err =>
      Some (set_thread t (at_pc (RHandler res err) th) (set_locked false s))
  | RPanicking => Some (set_thread t (at_pc RCrashed th) (set_locked false s))
  | RHandler (Some p) _ =>
      Some (set_thread t (mkThread RFinished None (seen th))
              (set_inFlight (Done_inFlight p (inFlight s)) s))
  | RHandler None _ => Some (set_thread t (at_pc RFinished th) s)
  | RFinished | RCrashed => None
  end.

(** The next step of the updater; at the head of the loop body the
    scheduler gives the instance the loop is at and what the outside world
    yields to its [UpdateStatus()]. *)
Definition step_upd (instance : ptr) (observed : InstanceStatus) (s : State)
  : option State :=
  match updater s with
  | UIdle =>
      let st := UpdateStatus_status observed (status s instance) in
      Some (set_updater (UStatus instance st) (set_status instance st s))
  | UStatus i st =>
      if bool_decide (st = InstanceStatusServing) then
        if bool_decide (Some i ≠ active s) then Some (set_updater (UWantLock i) s)
        else Some (set_updater UIdle s)
      else if bool_decide (st = InstanceStatusExited) then
        Some (set_updater UIdle (set_active None s))
      else Some (set_updater UIdle s)
  | UWantLock i =>
      if locked s then None
      else Some (set_updater (UHasLock i) (set_locked true s))
  | UHasLock i => Some (set_updater (UWrite i (active s)) s)
  | UWrite i cur => Some (set_updater (UUnlock cur) (set_active (Some i) s))
  | UUnlock cur => Some (set_updater (UStop cur) (set_locked false s))
  | UStop None => Some (set_updater UIdle s)
  | UStop (Some c) =>
      Some (set_updater UIdle (set_status c (Stop_status (status s c)) s))
  end.

Inductive action :=
| Arrive                                       (* a request arrives: a new goroutine *)
| StepReq (t : nat)                            (* the request goroutine [t] moves *)
| StepUpd (instance : ptr) (observed : InstanceStatus).  (* the updater moves *)

Definition step (a : action) (s : State) : option State :=
  match a with
  | Arrive =>
      Some (mkState (active s) (locked s) (inFlight s) (status s)
                    (threads s ++ [mkThread RStart None None]) (updater s))
  | StepReq t =>
      match threads s !! t with
      | Some th => step_req t th s
      | None => None
      end
  | StepUpd i st => step_upd i st s
  end.

Fixpoint run (sched : list action) (s : State) : option State :=
  match sched with
  | [] => Some s
  | a :: sched' =>
      match step a s with
      | Some s' => run sched' s'
      | None => None
      end
  end.

(** The App when its goroutines start, with whatever active instance: the
    active instance is in Serving, every other one in Starting. *)
Definition init (a : option ptr) : State :=
  mkState a false (λ _, 0)
          (λ p, if bool_decide (a = Some p) then InstanceStatusServing
                else InstanceStatusStarting)
          [] UIdle.

(** The request [t] has been let in against [i] and is not over:
    [reserveInstance] has returned [i] to its [ServeHTTP]. *)
Definition reserved (s : State) (t : nat) (i : ptr) : Prop :=
  ∃ th err, threads s !! t = Some th ∧ pc th = RHandler (Some i) err.

(** ** The invariant *)

(** A goroutine holds the mutex between its [Lock()] and its [Unlock()]. *)
Definition holding (th : thread) : bool :=
  match pc th with
  | RLocked | RChecked | RCall _ | RServed | RReturning _ _ | RPanicking => true
  | _ => false
  end.

Definition upd_holding (u : upd_pc) : bool :=
  match u with
  | UHasLock _ | UWrite _ _ | UUnlock _ => true
  | _ => false
  end.

(** An instance on which the goroutine is counted, if on any. *)
Definition counted_at_most (p : ptr) (th : thread) : Prop :=
  counted th = None ∨ counted th = Some p.

(** What a request goroutine knows at each point, given the slot [a]:
    - with the receiver read, the slot is nil or still the receiver;
    - with [Serve()] done on [p], the goroutine is counted on [p] if on any
      instance, and if the slot is not nil it is [p] and was [p] when
      [Serve()] ran;
    - with the result [i] read from the slot, and from then on, the
      goroutine is counted on [i] if on any instance, and the slot was [i]
      when [Serve()] ran. *)
Definition thread_ok (a : option ptr) (th : thread) : Prop :=
  match pc th with
  | RStart | RLocked | RChecked => counted th = None
  | RCall target => counted th = None ∧ ∀ q, a = Some q → target = Some q
  | RServed =>
      ∃ p, counted_at_most p th ∧
           ∀ q, a = Some q → q = p ∧ seen th = Some (Some p)
  | RReturning (Some i) _ | RHandler (Some i) _ =>
      counted_at_most i th ∧ seen th = Some (Some i)
  | _ => True
  end.

Record Inv (s : State) : Prop := mkInv {
  inv_locked : ∀ t th, threads s !! t = Some th → holding th = true →
                       locked s = true ∧ upd_holding (updater s) = false;
  inv_one : ∀ t1 t2 th1 th2,
      threads s !! t1 = Some th1 → threads s !! t2 = Some th2 →
      holding th1 = true → holding th2 = true → t1 = t2;
  inv_upd : upd_holding (updater s) = true → locked s = true;
  inv_thread : ∀ t th, threads s !! t = Some th → thread_ok (active s) th
}.

(** ** Runs *)

(** The updater finds instance 0 in Serving and promotes it: the seven
    steps of the loop body. *)
Definition schedule_promotion : list action :=
  repeat (StepUpd 0 InstanceStatusServing) 7.

(** Instance 0 is promoted; its child exits, and the [UpdateStatus()] of
    the next round (line 120) returns Exited; before the updater writes nil
    to the slot (line 131), a request arrives and goes through
    [reserveInstance]. *)
Definition schedule_exit_before_reservation : list action :=
  schedule_promotion
  ++ [StepUpd 0 InstanceStatusExited]
  ++ [Arrive; StepReq 0; StepReq 0; StepReq 0; StepReq 0; StepReq 0; StepReq 0].

(** A request is let in against the active instance 0; then the updater
    promotes instance 1 and stops instance 0. *)
Definition schedule_promotion_mid_request : list action :=
  [Arrive; StepReq 0; StepReq 0; StepReq 0; StepReq 0; StepReq 0; StepReq 0]
  ++ repeat (StepUpd 1 InstanceStatusServing) 7.

(** The branch for Exited of the updater writes nil to the slot without the
    mutex; when that write falls between the [Serve()] of a request and the
    read of its result, [reserveInstance] returns nil with no error:
    [ServeHTTP] has no instance to call [Done()] on, and the count of
    instance 0 stays at 1 with every request over. *)
Definition schedule_clear_during_reservation : list action :=
  [Arrive; StepReq 0; StepReq 0; StepReq 0; StepReq 0;
   StepUpd 0 InstanceStatusExited; StepUpd 0 InstanceStatusExited;
   StepReq 0; StepReq 0; StepReq 0].

(** What holds of a request goroutine by its own steps alone: up to its
    [Serve()] it is counted nowhere, and a result that comes with an error
    is nil, with the goroutine counted nowhere. *)
Definition uncounted_ok (th : thread) : Prop :=
  match pc th with
  | RStart | RLocked | RChecked | RCall _ | RPanicking | RCrashed =>
      counted th = None
  | RReturning res (Some _) | RHandler res (Some _) =>
      res = None ∧ counted th = None
  | _ => True
  end.

(** A run in which the updater has just seen instance 0 exit while a
    request is between its [Serve()] and the read of its result. *)
Definition schedule_exit_seen_during_reservation : list action :=
  [Arrive; StepReq 0; StepReq 0; StepReq 0; StepReq 0;
   StepUpd 0 InstanceStatusExited].

(** A run in which a request finds the slot nil. *)
Definition schedule_no_active : list action :=
  [Arrive; StepReq 0; StepReq 0; StepReq 0].

End Interleaving.

(** * Facts on the App *)

(** ** reserveInstance *)

Lemma reserveInstance_none w :
  activeInstance (app w) = None →
  activeInstanceLock (app w) = false →
  reserveInstance w =
    (Ret (None, Some ErrNoActiveInstances),
     mkWorld (heap w) (portPool w) (app w) (req w) (rw w)
             (trace w ++ [EvLock; EvReadActive None; EvUnlock]) (sent w)).
Proof.
  intros Hact Hlock. destruct w as [h pp [c l a lk n] rq r t snt].
  simpl in *. subst.
  unfold reserveInstance, mbind, M_bind, defer_, Lock, Unlock, readActive; simpl.
  unfold with_event; simpl. by rewrite <- !app_assoc.
Qed.

Lemma reserveInstance_some w p :
  activeInstance (app w) = Some p →
  activeInstanceLock (app w) = false →
  reserveInstance w =
    (Ret (Some p, None),
     mkWorld (alter Instance_Serve p (heap w)) (portPool w) (app w) (req w) (rw w)
             (trace w ++ [EvLock; EvReadActive (Some p); EvReadActive (Some p);
                          EvServe p; EvReadActive (Some p); EvUnlock])
             (sent w)).
Proof.
  intros Hact Hlock. destruct w as [h pp [c l a lk n] rq r t snt].
  simpl in *. subst.
  unfold reserveInstance, mbind, M_bind, defer_, Lock, Unlock, readActive, Serve; simpl.
  unfold with_event; simpl. by rewrite <- !app_assoc.
Qed.

(** With the mutex held by somebody else, the call waits. *)
Lemma reserveInstance_blocked w :
  activeInstanceLock (app w) = true → reserveInstance w = (Blocked, w).
Proof.
  intros Hlock. unfold reserveInstance, mbind, M_bind, Lock. by rewrite Hlock.
Qed.

(** ** ServeHTTP *)

(** C2. A request that finds no active instance ([a.activeInstance == nil]
    at the read under the lock) is answered with status 503, its body is
    closed, and [Done()] is called on no instance: the handler logs, writes
    the header and closes the body, and nothing else. *)
Theorem ServeHTTP_no_active_instance upstream w :
  activeInstance (app w) = None →
  activeInstanceLock (app w) = false →
  rw_status (rw w) = None →
  ∃ w' evs,
    ServeHTTP upstream w = (Ret (), w') ∧
    trace w' = trace w ++ evs ∧
    evs = [EvLock; EvReadActive None; EvUnlock;
           EvLog (PanicError ErrNoActiveInstances); EvWriteHeader 503; EvBodyClose] ∧
    rw_status (rw w') = Some 503 ∧
    Body_closed (req w') = true ∧
    Done_calls evs = [] ∧
    Serve_calls evs = [] ∧
    proxied evs = [] ∧
    heap w' = heap w.
Proof.
  intros Hact Hlock Hrw.
  unfold ServeHTTP, ServeHTTP_call, mbind, M_bind.
  rewrite (reserveInstance_none _ Hact Hlock).
  destruct w as [h pp a rq [st] t snt]. simpl in *. subst st.
  eexists _, [EvLock; EvReadActive None; EvUnlock;
              EvLog (PanicError ErrNoActiveInstances); EvWriteHeader 503; EvBodyClose].
  split; [reflexivity|]. simpl.
  split; [by rewrite <- !app_assoc|]. done.
Qed.

Lemma ServeHTTP_no_active_instance_witness :
  let w := sample_world [] None 0 [] in
  ∃ w' evs,
    ServeHTTP upstream_ok w = (Ret (), w') ∧
    trace w' = trace w ++ evs ∧
    evs = [EvLock; EvReadActive None; EvUnlock;
           EvLog (PanicError ErrNoActiveInstances); EvWriteHeader 503; EvBodyClose] ∧
    rw_status (rw w') = Some 503 ∧
    Body_closed (req w') = true ∧
    Done_calls evs = [] ∧
    Serve_calls evs = [] ∧
    proxied evs = [] ∧
    heap w' = heap w.
Proof.
  apply (ServeHTTP_no_active_instance upstream_ok (sample_world [] None 0 []));
    reflexivity.
Defined.

Lemma recovery_events_calls recovered :
  Serve_calls (recovery_events recovered) = [] ∧
  Done_calls (recovery_events recovered) = [] ∧
  proxied (recovery_events recovered) = [].
Proof. destruct recovered as [v|]; simpl; [case_bool_decide|]; done. Qed.

(** The deferred closure returns normally, and calls [Done()] once, last,
    on the instance it was given. *)
Lemma ServeHTTP_deferred_spec p recovered w :
  ∃ w', ServeHTTP_deferred (Some p) recovered w = (Ret (), w') ∧
        trace w' = trace w ++ recovery_events recovered ++ [EvDone p] ∧
        heap w' = alter Instance_Done p (heap w) ∧
        app w' = app w.
Proof.
  unfold ServeHTTP_deferred, mbind, M_bind.
  destruct recovered as [v|]; simpl.
  - case_bool_decide; simpl; eexists; (split; [reflexivity|]); simpl;
      rewrite <- ?app_assoc; done.
  - eexists; split; [reflexivity|]. done.
Qed.

(** The statements after the [defer] return or panic; they call neither
    [Serve()] nor [Done()], and never touch the heap or the App. *)
Lemma ServeHTTP_body_spec upstream p w :
  ∃ r w' evs, ServeHTTP_body (returning upstream) (Some p) None w = (r, w') ∧
        r ≠ Blocked ∧
        trace w' = trace w ++ evs ∧
        Serve_calls evs = [] ∧ Done_calls evs = [] ∧
        heap w' = heap w ∧ app w' = app w.
Proof.
  unfold ServeHTTP_body, mbind, M_bind, modify, gets, Hostname_of, rp_ServeHTTP,
    returning.
  simpl. destruct (heap w !! p) as [i|]; simpl.
  - destruct (upstream _) as [wr [v|] cl]; simpl.
    + eexists _, _, [EvProxy _]. split; [reflexivity|].
      destruct wr, cl; simpl; done.
    + eexists _, _, [EvProxy _]. split; [reflexivity|].
      destruct wr, cl; simpl; done.
  - eexists _, _, []. split; [reflexivity|]. simpl.
    rewrite app_nil_r. done.
Qed.

(** C3. When [reserveInstance] hands an instance to [ServeHTTP] (it called
    [Serve()] on it), the handler returns normally whatever the proxy does
    (answer, error answer, panic), and between the reservation and the
    return [Done()] is called exactly once, on that instance, as the last
    thing; no other [Serve()] or [Done()] happens.  So the calls of
    [Serve()] and [Done()] of one request are one each, on one instance. *)
Theorem ServeHTTP_Done_exactly_once upstream w p w1 :
  reserveInstance w = (Ret (Some p, None), w1) →
  ∃ w' mid,
    ServeHTTP upstream w = (Ret (), w') ∧
    trace w' = trace w1 ++ mid ++ [EvDone p] ∧
    Serve_calls mid = [] ∧
    Done_calls mid = [] ∧
    Serve_calls (drop (length (trace w)) (trace w')) = [p] ∧
    Done_calls (drop (length (trace w)) (trace w')) = [p].
Proof.
  intros Hres.
  destruct (activeInstanceLock (app w)) eqn:Hlock.
  { rewrite (reserveInstance_blocked _ Hlock) in Hres. discriminate. }
  destruct (activeInstance (app w)) as [q|] eqn:Hact; last first.
  { rewrite (reserveInstance_none _ Hact Hlock) in Hres. discriminate. }
  pose proof Hres as Hres'.
  rewrite (reserveInstance_some _ _ Hact Hlock) in Hres'.
  injection Hres' as Hq Hw1. subst q.
  assert (Htr1 : trace w1 = trace w ++
                 [EvLock; EvReadActive (Some p); EvReadActive (Some p);
                  EvServe p; EvReadActive (Some p); EvUnlock]).
  { by rewrite <- Hw1. }
  destruct (ServeHTTP_body_spec upstream p w1)
    as (r & w2 & bevs & Hbody & Hr & Htr2 & HS2 & HD2 & _ & _).
  set (recovered := match r with Panic v => Some v | _ => None end).
  destruct (ServeHTTP_deferred_spec p recovered w2) as (w3 & Hdef & Htr3 & _ & _).
  destruct (recovery_events_calls recovered) as (HS3 & HD3 & _).
  exists w3, (bevs ++ recovery_events recovered).
  assert (Hrun : ServeHTTP upstream w = (Ret (), w3)).
  { unfold ServeHTTP, ServeHTTP_call, mbind, M_bind. rewrite Hres.
    unfold defer_recover. rewrite Hbody.
    destruct r as [[]|v|]; [exact Hdef|exact Hdef|done]. }
  assert (Htr : trace w3 = trace w1 ++ (bevs ++ recovery_events recovered) ++ [EvDone p]).
  { rewrite Htr3, Htr2, <- !app_assoc. done. }
  split; [done|]. split; [done|].
  unfold Done_calls, Serve_calls in *.
  rewrite !omap_app, ?HS2, ?HS3, ?HD2, ?HD3.
  split; [done|]. split; [done|].
  rewrite Htr, Htr1, <- !app_assoc, drop_app_length.
  rewrite !omap_app, ?HS2, ?HS3, ?HD2, ?HD3. done.
Qed.

Lemma ServeHTTP_Done_exactly_once_witness :
  let w := sample_world [sample_instance 1 20000 InstanceStatusServing]
                        (Some 0%nat) 1 [20000] in
  ∃ w' mid,
    ServeHTTP upstream_ok w = (Ret (), w') ∧
    trace w' = trace (reserveInstance w).2 ++ mid ++ [EvDone 0%nat] ∧
    Serve_calls mid = [] ∧
    Done_calls mid = [] ∧
    Serve_calls (drop (length (trace w)) (trace w')) = [0%nat] ∧
    Done_calls (drop (length (trace w)) (trace w')) = [0%nat].
Proof.
  apply (ServeHTTP_Done_exactly_once upstream_ok
           (sample_world [sample_instance 1 20000 InstanceStatusServing]
                         (Some 0%nat) 1 [20000])
           0%nat).
  vm_compute. reflexivity.
Defined.

(** ** The updater loop *)

(** C4. In the updater loop, when [UpdateStatus()] returns Serving for an
    instance other than the current active, the loop body does exactly
    this, in this order: lock, read the prior active, write the instance as
    active, unlock, and then, outside the lock, [Stop()] on the prior active
    if there was one.  The write of the new active comes before the
    [Stop()]; afterwards the instance is the active one and the lock is
    free. *)
Theorem updater_promotion_order observed instance w w1 :
  UpdateStatus observed instance w = (Ret InstanceStatusServing, w1) →
  activeInstance (app w) ≠ Some instance →
  activeInstanceLock (app w) = false →
  ∃ w',
    updateInstance observed instance w = (Ret (), w') ∧
    trace w' = trace w1 ++ [EvReadActive (activeInstance (app w))] ++
               promotion_events instance (activeInstance (app w)) ∧
    activeInstance (app w') = Some instance ∧
    activeInstanceLock (app w') = false ∧
    heap w' = match activeInstance (app w) with
              | Some p => alter Instance_Stop p (heap w1)
              | None => heap w1
              end.
Proof.
  intros Hup Hact Hlock.
  unfold updateInstance, mbind, M_bind. rewrite Hup.
  unfold UpdateStatus in Hup. injection Hup as Hs Hw1.
  rewrite bool_decide_eq_true_2 by done.
  assert (Happ : app w1 = app w) by (by rewrite <- Hw1).
  unfold readActive at 1. rewrite Happ.
  rewrite bool_decide_eq_true_2 by congruence.
  unfold Lock, readActive, writeActive, Unlock, mret, M_ret. simpl.
  rewrite Happ, Hlock. simpl.
  destruct (activeInstance (app w)) as [p|]; simpl;
    (eexists; split; [reflexivity|]); simpl; rewrite <- ?app_assoc; done.
Qed.

Lemma updater_promotion_order_witness :
  let w := sample_world [sample_instance 1 20000 InstanceStatusServing;
                         sample_instance 2 20001 InstanceStatusStarting]
                        (Some 0%nat) 2 [20000; 20001] in
  ∃ w',
    updateInstance InstanceStatusServing 1%nat w = (Ret (), w') ∧
    trace w' = trace (UpdateStatus InstanceStatusServing 1%nat w).2 ++
               [EvReadActive (Some 0%nat)] ++
               promotion_events 1%nat (Some 0%nat) ∧
    activeInstance (app w') = Some 1%nat ∧
    activeInstanceLock (app w') = false ∧
    heap w' = alter Instance_Stop 0%nat
                (heap (UpdateStatus InstanceStatusServing 1%nat w).2).
Proof.
  apply (updater_promotion_order InstanceStatusServing 1%nat
           (sample_world [sample_instance 1 20000 InstanceStatusServing;
                          sample_instance 2 20001 InstanceStatusStarting]
                         (Some 0%nat) 2 [20000; 20001])).
  - reflexivity.
  - simpl. discriminate.
  - reflexivity.
Defined.

(** When the instance is the active one already, a Serving result changes
    nothing: no lock, no write, no [Stop()]. *)
Lemma updater_serving_active observed instance w w1 :
  UpdateStatus observed instance w = (Ret InstanceStatusServing, w1) →
  activeInstance (app w) = Some instance →
  updateInstance observed instance w =
    (Ret (), with_event (EvReadActive (Some instance)) w1).
Proof.
  intros Hup Hact.
  unfold updateInstance, mbind, M_bind. rewrite Hup.
  unfold UpdateStatus in Hup. injection Hup as Hs Hw1.
  rewrite bool_decide_eq_true_2 by done.
  assert (Happ : app w1 = app w) by (by rewrite <- Hw1).
  unfold readActive. rewrite Happ, Hact.
  rewrite bool_decide_eq_false_2 by (intros H; by apply H).
  rewrite bool_decide_eq_false_2 by done. done.
Qed.

(** An Exited result clears the slot, whichever instance it comes from:
    the branch has no comparison with [a.activeInstance] and takes no
    lock. *)
Lemma updater_exited_clears observed instance w w1 :
  UpdateStatus observed instance w = (Ret InstanceStatusExited, w1) →
  updateInstance observed instance w =
    (Ret (), with_event (EvWriteActive None)
               (with_app (set_activeInstance None (app w1)) w1)).
Proof.
  intros Hup.
  unfold updateInstance, mbind, M_bind. rewrite Hup.
  rewrite bool_decide_eq_false_2 by done. done.
Qed.

(** Any other result leaves the slot alone. *)
Lemma updater_other_status observed instance w w1 s :
  UpdateStatus observed instance w = (Ret s, w1) →
  s ≠ InstanceStatusServing → s ≠ InstanceStatusExited →
  updateInstance observed instance w = (Ret (), w1).
Proof.
  intros Hup H1 H2.
  unfold updateInstance, mbind, M_bind. rewrite Hup.
  rewrite bool_decide_eq_false_2 by done. simpl.
  rewrite bool_decide_eq_false_2 by done. done.
Qed.

(** C5. The loop body on the exited instance, which is not the active one:
    [UpdateStatus()] returns Exited and the slot, which held the serving
    instance, is set to nil.  A request arriving before the loop reaches
    the serving instance again gets 503. *)
Theorem updater_exited_not_active_clears_active :
  activeInstance (app world_stale_exited) = Some 1%nat ∧
  (UpdateStatus InstanceStatusExited 0%nat world_stale_exited).1
    = Ret InstanceStatusExited ∧
  activeInstance (app (updateInstance InstanceStatusExited 0%nat world_stale_exited).2)
    = None ∧
  rw_status (rw (ServeHTTP upstream_ok
       (updateInstance InstanceStatusExited 0%nat world_stale_exited).2).2)
    = Some 503.
Proof. repeat split; reflexivity. Qed.

(** The part of C5 that holds: an Exited result for the active instance
    clears the slot. *)
Lemma updater_exited_active_clears observed instance w w1 :
  UpdateStatus observed instance w = (Ret InstanceStatusExited, w1) →
  activeInstance (app w) = Some instance →
  activeInstance (app (updateInstance observed instance w).2) = None.
Proof.
  intros Hup _. by rewrite (updater_exited_clears _ _ _ _ Hup).
Qed.

(** ** StartNewInstance *)

Lemma status_of_Stop_eq w x :
  status_of w x = Some InstanceStatusStarting →
  instance_status <$> alter Instance_Stop x (heap w) !! x
    = Some InstanceStatusStopping.
Proof.
  unfold status_of. rewrite list_lookup_alter_eq.
  destruct (heap w !! x) as [i|]; simpl; [|done].
  intros [= Hs]. unfold Instance_Stop. by rewrite Hs.
Qed.

(** The first loop: [Stop()] goes to the instances of the list that are in
    Starting when the loop begins, to each of them, and to no other; the
    rest of the world stays as it is. *)
Lemma stop_loop_spec l w :
  ∃ w' stopped,
    forM_ l stopIfStarting w = (Ret (), w') ∧
    trace w' = trace w ++ (EvStop <$> stopped) ∧
    (∀ p, p ∈ stopped ↔ p ∈ l ∧ status_of w p = Some InstanceStatusStarting) ∧
    (∀ p, heap w' !! p =
          if bool_decide (p ∈ stopped) then Instance_Stop <$> heap w !! p
          else heap w !! p) ∧
    app w' = app w ∧ portPool w' = portPool w ∧
    length (heap w') = length (heap w).
Proof.
  revert w. induction l as [|x l IH]; intros w.
  - exists w, []. simpl. split; [done|]. split; [by rewrite app_nil_r|].
    split; [|done]. intros p. split; [by intros ?%elem_of_nil|].
    by intros [?%elem_of_nil _].
  - simpl. unfold mbind at 1, M_bind at 1.
    unfold stopIfStarting at 1, mbind at 1, M_bind at 1, gets. simpl.
    case_bool_decide as Hx.
    + set (w1 := with_event (EvStop x) (with_heap (alter Instance_Stop x (heap w)) w)).
      destruct (IH w1) as (w' & stopped & Hrun & Htr & Hmem & Hheap & Happ & Hpp & Hlen).
      assert (Hst1 : ∀ p, status_of w1 p = Some InstanceStatusStarting ↔
                          p ≠ x ∧ status_of w p = Some InstanceStatusStarting).
      { intros p. unfold status_of at 1. simpl. destruct (decide (p = x)) as [->|Hne].
        - rewrite (status_of_Stop_eq _ _ Hx). split; [done|]. by intros [? _].
        - rewrite list_lookup_alter_ne by done. fold (status_of w p). tauto. }
      exists w', (x :: stopped). unfold Stop. fold w1. rewrite Hrun.
      split; [done|]. split.
      { rewrite Htr. simpl. by rewrite <- app_assoc. }
      split.
      { intros p. rewrite !elem_of_cons, Hmem, Hst1.
        destruct (decide (p = x)) as [->|Hne]; tauto. }
      split.
      { intros p. rewrite Hheap. simpl. destruct (decide (p = x)) as [->|Hne].
        - rewrite bool_decide_eq_false_2; last first.
          { rewrite Hmem, Hst1. tauto. }
          rewrite bool_decide_eq_true_2 by apply list_elem_of_here.
          apply list_lookup_alter_eq.
        - rewrite list_lookup_alter_ne by done.
          destruct (decide (p ∈ stopped)) as [Hin|Hin].
          + rewrite !bool_decide_eq_true_2; [done| |done].
            by apply list_elem_of_further.
          + rewrite !bool_decide_eq_false_2; [done| |done].
            rewrite elem_of_cons. tauto. }
      rewrite Happ, Hpp, Hlen. simpl. by rewrite length_alter.
    + destruct (IH w) as (w' & stopped & Hrun & Htr & Hmem & Hheap & Hrest).
      exists w', stopped. unfold mret, M_ret. rewrite Hrun.
      split; [done|]. split; [done|]. split; [|done].
      intros p. rewrite Hmem, elem_of_cons. split.
      * intros [? ?]. tauto.
      * intros [[->|?] Hs]; [done|tauto].
Qed.

(** The whole of [StartNewInstance], by the answer of the port pool. *)
Lemma StartNewInstance_spec w :
  ∃ w1 stopped,
    forM_ (instances (app w)) stopIfStarting w = (Ret (), w1) ∧
    trace w1 = trace w ++ (EvStop <$> stopped) ∧
    (∀ p, p ∈ stopped ↔ starting_in w p) ∧
    (∀ p, heap w1 !! p =
          if bool_decide (starting_in w p) then Instance_Stop <$> heap w !! p
          else heap w !! p) ∧
    length (heap w1) = length (heap w) ∧
    let id := uint32_add (instanceId (app w)) 1 in
    StartNewInstance w =
      match PortPool_reserve (portPool w) with
      | None =>
          (Ret (Some ErrPortsExhausted),
           mkWorld (heap w1) (portPool w) (set_instanceId id (app w)) (req w1) (rw w1)
                   (trace w1 ++ [EvNewInstance id None]) (sent w1))
      | Some (port, pp) =>
          let p := length (heap w) in
          let i := mkInstance id port (internalHost (config (app w)))
                              InstanceStatusStarting 0 in
          (Ret None,
           mkWorld (heap w1 ++ [i]) pp
                   (set_instances (instances (app w) ++ [p]) (set_instanceId id (app w)))
                   (req w1) (rw w1)
                   (trace w1 ++ [EvNewInstance id (Some p)]) (sent w1))
      end.
Proof.
  destruct (stop_loop_spec (instances (app w)) w)
    as (w1 & stopped & Hrun & Htr & Hmem & Hheap & Happ & Hpp & Hlen).
  exists w1, stopped. split; [done|]. split; [done|]. split; [done|].
  split.
  { intros p. rewrite Hheap.
    destruct (decide (p ∈ stopped)) as [Hin|Hin].
    - rewrite !bool_decide_eq_true_2; [done| |done]. by apply Hmem.
    - rewrite !bool_decide_eq_false_2; [done| |done].
      intros Hs. by apply Hin, Hmem. }
  split; [done|].
  unfold StartNewInstance, mbind, M_bind, gets. simpl. rewrite Hrun.
  unfold AddUint32_instanceId, NewInstance. simpl. rewrite Hpp, Happ, Hlen.
  destruct (PortPool_reserve (portPool w)) as [[port pp]|];
    unfold modify, mret, M_ret, with_app, with_event, with_portPool, with_heap;
    simpl; rewrite ?Happ, ?Hpp; done.
Qed.

(** C6. [StartNewInstance] first calls [Stop()] on the instances of the App
    that are in Starting, on each of them and on nothing else, and only
    after the last of these calls asks for the new instance, once.  The
    new instance is created whenever the pool has a port to give (and only
    then): it is a new instance of the heap, in Starting, with the next id
    and the port taken from the pool, and it is appended to the list, which
    is otherwise as it was.  When the pool has no port, the call returns
    the error and the list is as it was. *)
Theorem StartNewInstance_stops_starting_first w :
  ∃ r w' stopped created,
    StartNewInstance w = (Ret r, w') ∧
    trace w' = trace w ++ (EvStop <$> stopped) ++
               [EvNewInstance (uint32_add (instanceId (app w)) 1) created] ∧
    (∀ p, p ∈ stopped ↔
          p ∈ instances (app w) ∧ status_of w p = Some InstanceStatusStarting) ∧
    (is_Some created ↔ is_Some (PortPool_reserve (portPool w))) ∧
    (∀ p, created = Some p →
          ∃ port pp, PortPool_reserve (portPool w) = Some (port, pp) ∧
                     portPool w' = pp ∧
                     heap w' !! p =
                       Some (mkInstance (uint32_add (instanceId (app w)) 1) port
                               (internalHost (config (app w)))
                               InstanceStatusStarting 0)) ∧
    match created with
    | Some p =>
        r = None ∧
        instances (app w') = instances (app w) ++ [p] ∧
        heap w !! p = None ∧
        status_of w' p = Some InstanceStatusStarting
    | None =>
        r = Some ErrPortsExhausted ∧
        instances (app w') = instances (app w)
    end.
Proof.
  destruct (StartNewInstance_spec w)
    as (w1 & stopped & _ & Htr & Hmem & _ & Hlen & Hrun).
  simpl in Hrun.
  destruct (PortPool_reserve (portPool w)) as [[port pp]|].
  - eexists _, _, stopped, (Some (length (heap w))).
    split; [exact Hrun|]. simpl. rewrite Htr, <- app_assoc.
    split; [done|]. split; [done|]. split; [done|].
    split.
    { intros p [= <-]. exists port, pp. split; [done|]. split; [done|].
      rewrite <- Hlen. by rewrite lookup_app_r, Nat.sub_diag. }
    split; [done|]. split; [done|].
    split; [by apply lookup_ge_None_2|].
    unfold status_of. simpl. rewrite <- Hlen.
    by rewrite lookup_app_r, Nat.sub_diag.
  - eexists _, _, stopped, None.
    split; [exact Hrun|]. simpl. rewrite Htr, <- app_assoc.
    split; [done|]. split; [done|].
    split. { split; intros [? ?]; done. }
    split; [done|]. done.
Qed.

(** C7, as stated, fails: with the pool exhausted the call returns the
    error and appends nothing, but the instance that was in Starting has
    received [Stop()] before the pool was asked, and is now in Stopping. *)
Lemma StartNewInstance_failure_stops_starting :
  let w := world_starting_exhausted in
  let w' := (StartNewInstance w).2 in
  (StartNewInstance w).1 = Ret (Some ErrPortsExhausted) ∧
  instances (app w') = instances (app w) ∧
  Stop_calls (trace w') = [0%nat] ∧
  status_of w 0%nat = Some InstanceStatusStarting ∧
  status_of w' 0%nat = Some InstanceStatusStopping ∧
  heap w' ≠ heap w.
Proof. repeat split; try reflexivity. discriminate. Qed.

(** C7, amended. When the port pool has no free port, [StartNewInstance]
    returns the pool's error and appends nothing: the instance list, the
    active instance and the pool are as before; every instance that was not
    in Starting is untouched.  The instances that were in Starting have
    received [Stop()], and the id counter has advanced by one. *)
Theorem StartNewInstance_port_exhaustion w :
  PortPool_reserve (portPool w) = None →
  ∃ w',
    StartNewInstance w = (Ret (Some ErrPortsExhausted), w') ∧
    instances (app w') = instances (app w) ∧
    activeInstance (app w') = activeInstance (app w) ∧
    portPool w' = portPool w ∧
    length (heap w') = length (heap w) ∧
    (∀ p, ¬ starting_in w p → heap w' !! p = heap w !! p) ∧
    (∀ p, starting_in w p → heap w' !! p = Instance_Stop <$> heap w !! p) ∧
    (∀ p, p ∈ Stop_calls (drop (length (trace w)) (trace w')) ↔ starting_in w p) ∧
    instanceId (app w') = uint32_add (instanceId (app w)) 1.
Proof.
  intros Hpool.
  destruct (StartNewInstance_spec w)
    as (w1 & stopped & _ & Htr & Hmem & Hheap & Hlen & Hrun).
  simpl in Hrun. rewrite Hpool in Hrun.
  eexists. split; [exact Hrun|]. simpl.
  split; [done|]. split; [done|]. split; [done|]. split; [done|].
  split.
  { intros p Hp. rewrite Hheap. by rewrite bool_decide_eq_false_2. }
  split.
  { intros p Hp. rewrite Hheap. by rewrite bool_decide_eq_true_2. }
  split; [|done].
  intros p. rewrite Htr, <- app_assoc, drop_app_length.
  unfold Stop_calls. rewrite omap_app. simpl. rewrite app_nil_r.
  rewrite <- Hmem.
  replace (omap _ (EvStop <$> stopped)) with stopped; [done|].
  clear. induction stopped as [|x l IH]; simpl; [done|]. by f_equal.
Qed.

Lemma StartNewInstance_port_exhaustion_witness :
  let w := world_starting_exhausted in
  ∃ w',
    StartNewInstance w = (Ret (Some ErrPortsExhausted), w') ∧
    instances (app w') = instances (app w) ∧
    activeInstance (app w') = activeInstance (app w) ∧
    portPool w' = portPool w ∧
    length (heap w') = length (heap w) ∧
    (∀ p, ¬ starting_in w p → heap w' !! p = heap w !! p) ∧
    (∀ p, starting_in w p → heap w' !! p = Instance_Stop <$> heap w !! p) ∧
    (∀ p, p ∈ Stop_calls (drop (length (trace w)) (trace w')) ↔ starting_in w p) ∧
    instanceId (app w') = uint32_add (instanceId (app w)) 1.
Proof.
  apply (StartNewInstance_port_exhaustion world_starting_exhausted).
  reflexivity.
Defined.

(** ** Instance ids *)

Lemma assigned_ids_Stop l : assigned_ids (EvStop <$> l) = [].
Proof. induction l as [|x l IH]; simpl; done. Qed.

Lemma call_StartNewInstance_spec w :
  instanceId (app (call_StartNewInstance w)) = uint32_add (instanceId (app w)) 1 ∧
  ids_of_call w = [uint32_add (instanceId (app w)) 1].
Proof.
  unfold ids_of_call, call_StartNewInstance.
  destruct (StartNewInstance_spec w)
    as (w1 & stopped & _ & Htr & _ & _ & _ & Hrun).
  simpl in Hrun. rewrite Hrun.
  destruct (PortPool_reserve (portPool w)) as [[port pp]|]; simpl;
    (split; [done|]);
    rewrite Htr, <- app_assoc, drop_app_length;
    unfold assigned_ids; rewrite omap_app;
    fold (assigned_ids (EvStop <$> stopped)); by rewrite assigned_ids_Stop.
Qed.

Lemma after_calls_succ n w :
  after_calls (N.succ n) w = call_StartNewInstance (after_calls n w).
Proof. unfold after_calls. apply N.iter_succ. Qed.

(** The counter after [n] calls: it counts the calls modulo 2^32, whether
    they succeeded or not. *)
Lemma instanceId_after_calls n w :
  0 ≤ instanceId (app w) < uint32_modulus →
  instanceId (app (after_calls n w)) =
    (instanceId (app w) + Z.of_N n) mod uint32_modulus.
Proof.
  intros Hrange. induction n as [|n IH] using N.peano_ind.
  - unfold after_calls. simpl. rewrite Z.add_0_r.
    symmetry. by apply Z.mod_small.
  - rewrite after_calls_succ.
    destruct (call_StartNewInstance_spec (after_calls n w)) as [-> _].
    rewrite IH. unfold uint32_add.
    rewrite Zplus_mod_idemp_l. f_equal. lia.
Qed.

Lemma ids_of_nth_call_spec k w :
  0 ≤ instanceId (app w) < uint32_modulus →
  ids_of_nth_call k w = [(instanceId (app w) + Z.of_N k + 1) mod uint32_modulus].
Proof.
  intros Hrange. unfold ids_of_nth_call.
  destruct (call_StartNewInstance_spec (after_calls k w)) as [_ ->].
  rewrite instanceId_after_calls by done. unfold uint32_add.
  by rewrite Zplus_mod_idemp_l.
Qed.

(** Only [StartNewInstance] writes the counter: a request and a round of
    the updater leave it as it is, so that what happens between two calls
    of [StartNewInstance] does not change the ids. *)
Lemma keeps_instanceId_bind {A B} (m : M A) (f : A → M B) :
  keeps_instanceId m → (∀ a, keeps_instanceId (f a)) →
  keeps_instanceId (m ≫= f).
Proof.
  intros Hm Hf w. unfold mbind, M_bind. specialize (Hm w).
  destruct (m w) as [[a|v|] w1]; simpl in *; [|done|done].
  by rewrite Hf.
Qed.

Lemma keeps_instanceId_ret {A} (a : A) : keeps_instanceId (mret a).
Proof. done. Qed.

Lemma keeps_instanceId_forM {A} (l : list A) (f : A → M unit) :
  (∀ a, keeps_instanceId (f a)) → keeps_instanceId (forM_ l f).
Proof.
  intros Hf. induction l as [|x l IH]; simpl; [done|].
  apply keeps_instanceId_bind; [apply Hf|done].
Qed.

Lemma Lock_keeps_instanceId : keeps_instanceId Lock.
Proof. intros w. unfold Lock. by destruct (activeInstanceLock (app w)). Qed.

Lemma Unlock_keeps_instanceId : keeps_instanceId Unlock.
Proof. intros w. unfold Unlock. by destruct (activeInstanceLock (app w)). Qed.

Local Ltac keeps_id :=
  repeat first
    [ apply keeps_instanceId_ret
    | apply Lock_keeps_instanceId
    | apply Unlock_keeps_instanceId
    | apply keeps_instanceId_bind; [|intros ?]
    | apply keeps_instanceId_forM; intros ?
    | case_bool_decide
    | match goal with
      | |- keeps_instanceId (match ?x with _ => _ end) => destruct x
      | |- keeps_instanceId (if ?x then _ else _) => destruct x
      end
    | by (intros w; try destruct w as [? ? [] ? ? ?]; simpl;
          repeat case_match; simpl) ].

Lemma updateInstance_keeps_instanceId observed instance :
  keeps_instanceId (updateInstance observed instance).
Proof.
  unfold updateInstance. keeps_id.
Qed.

Lemma updaterTick_keeps_instanceId observe :
  keeps_instanceId (updaterTick observe).
Proof.
  unfold updaterTick.
  apply keeps_instanceId_bind; [done|intros l].
  apply keeps_instanceId_bind; [|done].
  apply keeps_instanceId_forM. intros instance.
  apply updateInstance_keeps_instanceId.
Qed.

Lemma ServeHTTP_keeps_instanceId upstream :
  keeps_instanceId (ServeHTTP upstream).
Proof.
  intros w. unfold ServeHTTP, ServeHTTP_call, mbind, M_bind.
  destruct (activeInstanceLock (app w)) eqn:Hlock.
  { by rewrite (reserveInstance_blocked _ Hlock). }
  destruct (activeInstance (app w)) as [p|] eqn:Hact.
  - rewrite (reserveInstance_some _ _ Hact Hlock).
    unfold defer_recover.
    set (w1 := mkWorld _ _ _ _ _ _ _).
    destruct (ServeHTTP_body_spec upstream p w1)
      as (r & w2 & evs & -> & Hr & _ & _ & _ & _ & Happ).
    destruct r as [[]|v|]; [| |done].
    + destruct (ServeHTTP_deferred_spec p None w2) as (w3 & -> & _ & _ & Happ3).
      simpl. by rewrite Happ3, Happ.
    + destruct (ServeHTTP_deferred_spec p (Some v) w2) as (w3 & -> & _ & _ & Happ3).
      simpl. by rewrite Happ3, Happ.
  - rewrite (reserveInstance_none _ Hact Hlock). done.
Qed.

(** C9, as stated, fails: in a run that starts from [NewApp], the call
    number 2^32 - 1 gets the id 2^32 - 1 and the next call gets the id 0,
    which is smaller; the call after that gets the id 1 again, the id of
    the first call. *)
Lemma instance_ids_wrap_around :
  let w := fresh_world sample_config (mkPortPool 20000 20001 []) in
  ids_of_nth_call 4294967294 w = [4294967295] ∧
  ids_of_nth_call 4294967295 w = [0] ∧
  ids_of_nth_call 0 w = [1] ∧
  ids_of_nth_call 4294967296 w = [1].
Proof.
  simpl. rewrite !ids_of_nth_call_spec by (simpl; unfold uint32_modulus; lia).
  repeat split.
Qed.

(** C9, amended. In a run that starts from [NewApp], as long as fewer than
    2^32 calls of [StartNewInstance] have been made, each call hands out one
    id, the number of the call, so the ids are strictly increasing and no id
    is used twice.  (From the call number 2^32 on the 32-bit counter has
    wrapped around.) *)
Theorem instance_ids_strictly_increasing cfg pp (i j : N) :
  (i < j)%N →
  (j < 4294967295)%N →
  ∃ x y,
    ids_of_nth_call i (fresh_world cfg pp) = [x] ∧
    ids_of_nth_call j (fresh_world cfg pp) = [y] ∧
    x = Z.of_N i + 1 ∧ y = Z.of_N j + 1 ∧
    x < y.
Proof.
  intros Hij Hj.
  rewrite !ids_of_nth_call_spec by (simpl; unfold uint32_modulus; lia).
  simpl. eexists _, _. split; [done|]. split; [done|].
  unfold uint32_modulus.
  rewrite !Z.mod_small by lia. lia.
Qed.

Lemma instance_ids_strictly_increasing_witness :
  ∃ x y,
    ids_of_nth_call 0 (fresh_world sample_config (mkPortPool 20000 20001 [])) = [x] ∧
    ids_of_nth_call 1 (fresh_world sample_config (mkPortPool 20000 20001 [])) = [y] ∧
    x = Z.of_N 0 + 1 ∧ y = Z.of_N 1 + 1 ∧
    x < y.
Proof.
  apply (instance_ids_strictly_increasing sample_config
           (mkPortPool 20000 20001 []) 0%N 1%N); reflexivity.
Defined.

(** ** The rewriting of the request *)

Lemma ServeHTTP_body_rewrites call p i w :
  heap w !! p = Some i →
  ServeHTTP_body call (Some p) None w =
    rp_ServeHTTP call (with_req (rewritten i (req w)) w).
Proof.
  intros Hi.
  unfold ServeHTTP_body, mbind, M_bind, modify, gets, Hostname_of. simpl.
  by rewrite Hi.
Qed.

Lemma Header_Add_lookup key value h :
  Header_Add key value h !! CanonicalMIMEHeaderKey key
    = Some (default [] (h !! CanonicalMIMEHeaderKey key) ++ [value]).
Proof. unfold Header_Add. apply lookup_insert_eq. Qed.


(** [Serve()] leaves the address of the instance alone. *)
Lemma rewritten_Serve i r : rewritten (Instance_Serve i) r = rewritten i r.
Proof. unfold Instance_Serve. by case_bool_decide. Qed.

(** ** A round of the updater as a whole *)

Lemma updateInstance_returned observed instance w :
  activeInstanceLock (app w) = false →
  let s := status_returned observed instance w in
  ∃ w',
    updateInstance observed instance w = (Ret (), w') ∧
    trace w' = trace w ++ update_events instance s (activeInstance (app w)) ∧
    activeInstance (app w') = next_active instance s (activeInstance (app w)) ∧
    activeInstanceLock (app w') = false ∧
    instances (app w') = instances (app w) ∧
    instanceId (app w') = instanceId (app w) ∧
    config (app w') = config (app w) ∧
    pool_inUse (portPool w') ⊆ pool_inUse (portPool w) ∧
    length (heap w') = length (heap w).
Proof.
  intros Hlock. unfold status_returned.
  unfold updateInstance, mbind, M_bind, UpdateStatus. simpl.
  set (h := alter (Instance_UpdateStatus observed) instance (heap w)).
  set (s := default observed (instance_status <$> h !! instance)).
  set (pp := match heap w !! instance with Some _ => _ | None => _ end).
  assert (Hpp : pool_inUse pp ⊆ pool_inUse (portPool w)).
  { unfold pp. destruct (heap w !! instance) as [i|]; [|done].
    destruct (turns_terminal observed i); [|done].
    simpl. intros q Hq. by apply list_elem_of_filter in Hq as [_ Hq]. }
  assert (Hlen : length h = length (heap w)) by apply length_alter.
  unfold update_events, next_active.
  destruct (decide (s = InstanceStatusServing)) as [Hs|Hs].
  - rewrite !(bool_decide_eq_true_2 _ Hs). simpl.
    destruct (decide (Some instance ≠ activeInstance (app w))) as [Hne|Heq].
    + rewrite !(bool_decide_eq_true_2 _ Hne).
      unfold Lock, Unlock, Stop, mret, M_ret. simpl.
      rewrite Hlock. simpl. unfold promotion_events.
      destruct (activeInstance (app w)) as [p|]; simpl;
        (eexists; split; [reflexivity|]); simpl;
        rewrite <- ?app_assoc, ?length_alter; done.
    + rewrite !(bool_decide_eq_false_2 _ Heq).
      rewrite (bool_decide_eq_false_2 (s = InstanceStatusExited)) by congruence.
      eexists. split; [reflexivity|]. simpl.
      rewrite <- ?app_assoc. repeat split; try done.
      destruct (decide (Some instance = activeInstance (app w))); [done|].
      by exfalso.
  - rewrite !(bool_decide_eq_false_2 _ Hs). simpl.
    destruct (decide (s = InstanceStatusExited)) as [He|He].
    + rewrite !(bool_decide_eq_true_2 _ He).
      eexists. split; [reflexivity|]. simpl. rewrite <- ?app_assoc. done.
    + rewrite !(bool_decide_eq_false_2 _ He).
      eexists. split; [reflexivity|]. simpl. rewrite <- ?app_assoc. done.
Qed.

Lemma updateInstance_spec observed instance w :
  activeInstanceLock (app w) = false →
  ∃ s w',
    updateInstance observed instance w = (Ret (), w') ∧
    trace w' = trace w ++ update_events instance s (activeInstance (app w)) ∧
    activeInstance (app w') = next_active instance s (activeInstance (app w)) ∧
    activeInstanceLock (app w') = false ∧
    instances (app w') = instances (app w) ∧
    instanceId (app w') = instanceId (app w) ∧
    config (app w') = config (app w) ∧
    pool_inUse (portPool w') ⊆ pool_inUse (portPool w) ∧
    length (heap w') = length (heap w).
Proof.
  intros Hlock. exists (status_returned observed instance w).
  by apply updateInstance_returned.
Qed.

Lemma tick_loop_spec observe l w :
  activeInstanceLock (app w) = false →
  ∃ reports w',
    forM_ l (λ instance, updateInstance (observe instance) instance) w = (Ret (), w') ∧
    reports.*1 = l ∧
    trace w' = trace w ++ tick_events reports (activeInstance (app w)) ∧
    activeInstance (app w') = active_after reports (activeInstance (app w)) ∧
    activeInstanceLock (app w') = false ∧
    instances (app w') = instances (app w) ∧
    instanceId (app w') = instanceId (app w) ∧
    config (app w') = config (app w) ∧
    pool_inUse (portPool w') ⊆ pool_inUse (portPool w) ∧
    length (heap w') = length (heap w).
Proof.
  revert w. induction l as [|x l IH]; intros w Hlock.
  - exists [], w. simpl. by rewrite app_nil_r.
  - destruct (updateInstance_spec (observe x) x w Hlock)
      as (s & w1 & Hrun & Htr & Hact & Hlk & Hinst & Hid & Hcfg & Hpp & Hlen).
    destruct (IH w1 Hlk)
      as (reports & w' & Hrun' & Hfst & Htr' & Hact' & Hlk' & Hinst' & Hid' & Hcfg' & Hpp' & Hlen').
    exists ((x, s) :: reports), w'. simpl.
    unfold mbind at 1, M_bind at 1. rewrite Hrun, Hrun'.
    split; [done|]. split; [by f_equal|]. split.
    { rewrite Htr', Htr, Hact, <- app_assoc. done. }
    split; [by rewrite Hact', Hact|].
    split; [done|]. split; [congruence|]. split; [congruence|].
    split; [congruence|]. split; [by etrans|congruence].
Qed.

Lemma updaterTick_spec observe w :
  activeInstanceLock (app w) = false →
  ∃ reports w',
    updaterTick observe w = (Ret (), w') ∧
    reports.*1 = instances (app w) ∧
    trace w' = trace w ++ tick_events reports (activeInstance (app w)) ++ [EvReport] ∧
    activeInstance (app w') = active_after reports (activeInstance (app w)) ∧
    activeInstanceLock (app w') = false ∧
    instances (app w') = instances (app w) ∧
    instanceId (app w') = instanceId (app w) ∧
    config (app w') = config (app w) ∧
    pool_inUse (portPool w') ⊆ pool_inUse (portPool w) ∧
    length (heap w') = length (heap w).
Proof.
  intros Hlock.
  destruct (tick_loop_spec observe (instances (app w)) w Hlock)
    as (reports & w1 & Hrun & Hfst & Htr & Hrest).
  exists reports, (with_event EvReport w1).
  unfold updaterTick, mbind, M_bind, gets. simpl. rewrite Hrun.
  split; [done|]. split; [done|]. split; [|done].
  simpl. by rewrite Htr, <- app_assoc.
Qed.

Lemma status_reports_app evs1 evs2 :
  status_reports (evs1 ++ evs2) = status_reports evs1 ++ status_reports evs2.
Proof. apply omap_app. Qed.

Lemma status_reports_tick_events reports a :
  status_reports (tick_events reports a) = reports.
Proof.
  revert a. induction reports as [|[p s] r IH]; intros a; [done|].
  cbn [tick_events]. rewrite status_reports_app, IH.
  unfold update_events, status_reports, promotion_events.
  repeat case_bool_decide; simpl; try done; by destruct a.
Qed.

Lemma active_after_app r1 r2 a :
  active_after (r1 ++ r2) a = active_after r2 (active_after r1 a).
Proof. apply foldl_app. Qed.

Lemma tick_events_app r1 r2 a :
  tick_events (r1 ++ r2) a =
  tick_events r1 a ++ tick_events r2 (active_after r1 a).
Proof.
  revert a. induction r1 as [|[p s] r1 IH]; intros a; simpl; [done|].
  by rewrite IH, <- app_assoc.
Qed.

Lemma decided_snoc reports p s a :
  decided (reports ++ [(p, s)]) a = next_active p s (decided reports a).
Proof.
  unfold decided, last_word, next_active. rewrite filter_app.
  rewrite filter_cons, filter_nil.
  destruct (decide (deciding (p, s) = true)) as [Hd|Hd];
    unfold deciding in Hd; simpl in Hd.
  - rewrite last_snoc.
    repeat case_bool_decide; done.
  - rewrite app_nil_r.
    repeat case_bool_decide; try done; simpl in Hd; by exfalso.
Qed.

(** Folding over the reports is hearing the last word. *)
Lemma active_after_decided reports a :
  active_after reports a = decided reports a.
Proof.
  induction reports as [|[p s] r IH] using rev_ind; [done|].
  by rewrite active_after_app, decided_snoc, IH.
Qed.

(** X1. A round of the updater, with the mutex free at its start, returns
    with the mutex free; it calls [UpdateStatus()] once on each instance of
    the list, in the order of the list, and reports last.  The slot after
    the round is decided by the last instance that returned Serving or
    Exited: it holds that instance if it returned Serving and nil if it
    returned Exited; if no instance returned either, the slot is as it
    was.  The list and the counter are left alone, and the round takes no
    port from the pool: the ports in use after it were in use before (it
    gives back those of the instances that reached a terminal status). *)
Theorem updaterTick_decides_active observe w :
  activeInstanceLock (app w) = false →
  ∃ w' evs,
    updaterTick observe w = (Ret (), w') ∧
    trace w' = trace w ++ evs ++ [EvReport] ∧
    (status_reports evs).*1 = instances (app w) ∧
    activeInstance (app w') = decided (status_reports evs) (activeInstance (app w)) ∧
    activeInstanceLock (app w') = false ∧
    instances (app w') = instances (app w) ∧
    instanceId (app w') = instanceId (app w) ∧
    pool_inUse (portPool w') ⊆ pool_inUse (portPool w).
Proof.
  intros Hlock.
  destruct (updaterTick_spec observe w Hlock)
    as (reports & w' & Hrun & Hfst & Htr & Hact & Hlk & Hinst & Hid & _ & Hpp & _).
  exists w', (tick_events reports (activeInstance (app w))).
  rewrite status_reports_tick_events, <- active_after_decided. done.
Qed.

Lemma updaterTick_decides_active_witness :
  let w := world_stale_exited in
  ∃ w' evs,
    updaterTick (λ _, InstanceStatusServing) w = (Ret (), w') ∧
    trace w' = trace w ++ evs ++ [EvReport] ∧
    (status_reports evs).*1 = instances (app w) ∧
    activeInstance (app w') = decided (status_reports evs) (activeInstance (app w)) ∧
    activeInstanceLock (app w') = false ∧
    instances (app w') = instances (app w) ∧
    instanceId (app w') = instanceId (app w) ∧
    pool_inUse (portPool w') ⊆ pool_inUse (portPool w).
Proof.
  apply (updaterTick_decides_active (λ _, InstanceStatusServing) world_stale_exited).
  reflexivity.
Defined.

Lemma tick_events_quiet reports a :
  Forall (λ r, deciding r = false) reports →
  tick_events reports a = (λ r, EvUpdateStatus r.1 r.2) <$> reports ∧
  active_after reports a = a.
Proof.
  revert a. induction reports as [|[p s] r IH]; intros a Hq; [done|].
  apply Forall_cons in Hq as [Hps Hr]. unfold deciding in Hps. simpl in Hps.
  apply orb_false_iff in Hps as [H1 H2].
  assert (Hnext : next_active p s a = a).
  { unfold next_active. by rewrite H1, H2. }
  destruct (IH a Hr) as [IH1 IH2].
  split.
  - cbn [tick_events]. rewrite Hnext, IH1.
    unfold update_events. by rewrite H1, H2.
  - unfold active_after in *. simpl. by rewrite Hnext.
Qed.

Lemma omap_status_events {A} (f : event → option A) reports :
  (∀ p s, f (EvUpdateStatus p s) = None) →
  omap f ((λ r, EvUpdateStatus r.1 r.2) <$> reports) = [].
Proof.
  intros Hf. induction reports as [|[p s] r IH]; simpl; [done|].
  by rewrite Hf.
Qed.

(** X2. A round in which no instance returns Serving or Exited only calls
    [UpdateStatus()] and reports: it takes no lock, writes nothing to the
    slot, stops no instance, and the slot is as it was. *)
Theorem updaterTick_quiet observe w w' :
  activeInstanceLock (app w) = false →
  updaterTick observe w = (Ret (), w') →
  Forall (λ r, deciding r = false)
         (status_reports (drop (length (trace w)) (trace w'))) →
  activeInstance (app w') = activeInstance (app w) ∧
  lock_events (drop (length (trace w)) (trace w')) = [] ∧
  active_writes (drop (length (trace w)) (trace w')) = [] ∧
  Stop_calls (drop (length (trace w)) (trace w')) = [].
Proof.
  intros Hlock Hrun Hq.
  destruct (updaterTick_spec observe w Hlock)
    as (reports & w2 & Hrun2 & _ & Htr & Hact & _).
  rewrite Hrun in Hrun2. injection Hrun2 as <-.
  rewrite Htr, drop_app_length in Hq |- *.
  rewrite status_reports_app, status_reports_tick_events in Hq.
  simpl in Hq. rewrite app_nil_r in Hq.
  destruct (tick_events_quiet reports (activeInstance (app w)) Hq) as [Hev Hsame].
  rewrite Hact, Hsame, Hev. split; [done|].
  unfold lock_events, active_writes, Stop_calls. rewrite !omap_app. simpl.
  rewrite !omap_status_events by done. done.
Qed.

Lemma updaterTick_quiet_witness :
  let w := world_starting_exhausted in
  let w' := (updaterTick (λ _, InstanceStatusStarting) w).2 in
  activeInstance (app w') = activeInstance (app w) ∧
  lock_events (drop (length (trace w)) (trace w')) = [] ∧
  active_writes (drop (length (trace w)) (trace w')) = [] ∧
  Stop_calls (drop (length (trace w)) (trace w')) = [].
Proof.
  apply (updaterTick_quiet (λ _, InstanceStatusStarting) world_starting_exhausted).
  - reflexivity.
  - reflexivity.
  - vm_compute. repeat constructor.
Defined.

(** X3. When the last instance of the list returns Serving in a round, it
    is the active instance after the round, whatever the instances before
    it returned; the round ends with its pass: the read of the slot, and if
    the slot held another instance, the swap under the lock and then
    [Stop()] on that other instance, and the report. *)
Theorem updaterTick_last_serving_wins observe w w' b :
  activeInstanceLock (app w) = false →
  updaterTick observe w = (Ret (), w') →
  last (status_reports (drop (length (trace w)) (trace w')))
    = Some (b, InstanceStatusServing) →
  last (instances (app w)) = Some b ∧
  activeInstance (app w') = Some b ∧
  ∃ pre prior,
    drop (length (trace w)) (trace w') =
      pre ++ update_events b InstanceStatusServing prior ++ [EvReport].
Proof.
  intros Hlock Hrun Hlast.
  destruct (updaterTick_spec observe w Hlock)
    as (reports & w2 & Hrun2 & Hfst & Htr & Hact & _).
  rewrite Hrun in Hrun2. injection Hrun2 as <-.
  rewrite Htr, drop_app_length in Hlast |- *.
  rewrite status_reports_app, status_reports_tick_events in Hlast.
  simpl in Hlast. rewrite app_nil_r in Hlast.
  apply last_Some in Hlast as [r ->].
  split.
  { rewrite <- Hfst, fmap_app. simpl. by rewrite last_snoc. }
  split.
  { rewrite Hact, active_after_app. done. }
  exists (tick_events r (activeInstance (app w))),
         (active_after r (activeInstance (app w))).
  rewrite tick_events_app. simpl. by rewrite app_nil_r, <- app_assoc.
Qed.

Lemma updaterTick_last_serving_wins_witness :
  let w := world_stale_exited in
  let w' := (updaterTick (λ _, InstanceStatusServing) w).2 in
  last (instances (app w)) = Some 1%nat ∧
  activeInstance (app w') = Some 1%nat ∧
  ∃ pre prior,
    drop (length (trace w)) (trace w') =
      pre ++ update_events 1%nat InstanceStatusServing prior ++ [EvReport].
Proof.
  apply (updaterTick_last_serving_wins (λ _, InstanceStatusServing) world_stale_exited);
    vm_compute; reflexivity.
Defined.

(** ** A request as a whole *)

Lemma Instance_Done_Serve i :
  instance_status i = InstanceStatusServing →
  Instance_Done (Instance_Serve i) = i.
Proof.
  intros Hs. destruct i. simpl in Hs. subst.
  unfold Instance_Done, Instance_Serve, set_inFlight. simpl.
  f_equal. lia.
Qed.

Lemma Instance_Done_Serve_refused i :
  instance_status i ≠ InstanceStatusServing →
  Instance_Done (Instance_Serve i) = Instance_Done i.
Proof. intros Hs. unfold Instance_Serve. by rewrite bool_decide_eq_false_2. Qed.

Lemma heap_Done_Serve p i (h : list Instance) :
  h !! p = Some i → instance_status i = InstanceStatusServing →
  alter Instance_Done p (alter Instance_Serve p h) = h.
Proof.
  intros Hp Hs. rewrite list_alter_alter_eq.
  apply list_eq. intros q. destruct (decide (p = q)) as [<-|Hne].
  - rewrite list_lookup_alter_eq, Hp. simpl. f_equal.
    by apply Instance_Done_Serve.
  - by rewrite list_lookup_alter_ne.
Qed.

(** The deferred closure, whatever it is given. *)
Lemma ServeHTTP_deferred_events instance recovered w :
  ∃ w', ServeHTTP_deferred instance recovered w = (Ret (), w') ∧
        trace w' = trace w ++ recovery_events recovered ++ done_events instance ∧
        heap w' = (if instance is Some p then alter Instance_Done p (heap w)
                   else heap w) ∧
        app w' = app w ∧ portPool w' = portPool w ∧ sent w' = sent w ∧
        (recovered ≠ Some (PanicError ErrNoActiveInstances) →
         req w' = req w ∧ rw w' = rw w).
Proof.
  unfold ServeHTTP_deferred, mbind, M_bind.
  destruct recovered as [v|]; simpl.
  - case_bool_decide as Hv; destruct instance as [p|]; simpl;
      eexists; (split; [reflexivity|]); simpl;
      rewrite <- ?app_assoc, ?app_nil_r;
      (split; [done|]); (split; [done|]); (split; [done|]); (split; [done|]);
      (split; [done|]);
      intros Hne; try done; by subst v.
  - destruct instance as [p|]; simpl; eexists; (split; [reflexivity|]); simpl;
      rewrite ?app_nil_r; done.
Qed.

(** The statements after the [defer], for an instance whose address is in
    the heap: the request is rewritten and handed to the reverse proxy,
    whose call comes back. *)
Lemma ServeHTTP_body_proxied call p i w res :
  heap w !! p = Some i →
  call (rewritten i (req w)) = Some res →
  ∃ w', ServeHTTP_body call (Some p) None w =
          (if proxy_panic res is Some v then Panic v else Ret (), w') ∧
        trace w' = trace w ++ [EvProxy (rewritten i (req w))] ∧
        heap w' = heap w ∧ app w' = app w ∧ portPool w' = portPool w ∧
        sent w' = sent w ++ [outgoing (rewritten i (req w))] ∧
        req w' = proxy_req res (rewritten i (req w)) ∧
        rw w' = proxy_rw res (rw w).
Proof.
  intros Hi Hcall. rewrite (ServeHTTP_body_rewrites _ _ _ _ Hi).
  unfold rp_ServeHTTP, proxy_rw, proxy_req. simpl. rewrite Hcall.
  destruct res as [[code|] [v|] []]; simpl;
    eexists; (split; [reflexivity|]); done.
Qed.

(** The same, for a call that does not come back. *)
Lemma ServeHTTP_body_waits call p i w :
  heap w !! p = Some i →
  call (rewritten i (req w)) = None →
  ∃ w', ServeHTTP_body call (Some p) None w = (Blocked, w') ∧
        trace w' = trace w ++ [EvProxy (rewritten i (req w))] ∧
        heap w' = heap w ∧ app w' = app w ∧ portPool w' = portPool w.
Proof.
  intros Hi Hcall. rewrite (ServeHTTP_body_rewrites _ _ _ _ Hi).
  unfold rp_ServeHTTP. simpl. rewrite Hcall.
  eexists; (split; [reflexivity|]); done.
Qed.

(** A request that finds [p] in the slot, [p] being an address of the
    heap, with a call of the reverse proxy that comes back: the whole
    run. *)
Lemma ServeHTTP_call_run call w p i res :
  activeInstance (app w) = Some p →
  activeInstanceLock (app w) = false →
  heap w !! p = Some i →
  call (rewritten i (req w)) = Some res →
  ∃ w', ServeHTTP_call call w = (Ret (), w') ∧
        trace w' = trace w ++ reserve_events p ++
                   [EvProxy (rewritten i (req w))] ++
                   recovery_events (proxy_panic res) ++ [EvDone p] ∧
        heap w' = alter Instance_Done p (alter Instance_Serve p (heap w)) ∧
        app w' = app w ∧ portPool w' = portPool w ∧
        sent w' = sent w ++ [outgoing (rewritten i (req w))] ∧
        (proxy_panic res ≠ Some (PanicError ErrNoActiveInstances) →
         req w' = proxy_req res (rewritten i (req w)) ∧
         rw w' = proxy_rw res (rw w)).
Proof.
  intros Hact Hlock Hi Hcall.
  unfold ServeHTTP_call, mbind, M_bind.
  rewrite (reserveInstance_some _ _ Hact Hlock).
  set (w1 := mkWorld _ _ _ _ _ _ _).
  assert (Hi1 : heap w1 !! p = Some (Instance_Serve i)).
  { unfold w1. simpl. by rewrite list_lookup_alter_eq, Hi. }
  assert (Hrw1 : rewritten (Instance_Serve i) (req w1) = rewritten i (req w)).
  { apply rewritten_Serve. }
  rewrite <- Hrw1 in Hcall.
  destruct (ServeHTTP_body_proxied call p _ w1 res Hi1 Hcall)
    as (w2 & Hbody & Htr2 & Hh2 & Ha2 & Hp2 & Hs2 & Hrq2 & Hrw2).
  rewrite Hrw1 in Htr2, Hs2, Hrq2.
  destruct (ServeHTTP_deferred_events (Some p) (proxy_panic res) w2)
    as (w3 & Hdef & Htr3 & Hh3 & Ha3 & Hp3 & Hs3 & Hkeep).
  exists w3. split.
  { unfold defer_recover. rewrite Hbody.
    destruct (proxy_panic res); exact Hdef. }
  split. { rewrite Htr3, Htr2. unfold w1, reserve_events. simpl.
           by rewrite <- !app_assoc. }
  split. { by rewrite Hh3, Hh2. }
  split. { by rewrite Ha3, Ha2. }
  split. { by rewrite Hp3, Hp2. }
  split. { by rewrite Hs3, Hs2. }
  intros Hne. destruct (Hkeep Hne) as [-> ->]. by rewrite Hrq2, Hrw2.
Qed.

Lemma ServeHTTP_proxied_run upstream w p i :
  activeInstance (app w) = Some p →
  activeInstanceLock (app w) = false →
  heap w !! p = Some i →
  ∃ w', ServeHTTP upstream w = (Ret (), w') ∧
        trace w' = trace w ++ reserve_events p ++
                   [EvProxy (rewritten i (req w))] ++
                   recovery_events (proxy_panic (upstream (rewritten i (req w)))) ++
                   [EvDone p] ∧
        heap w' = alter Instance_Done p (alter Instance_Serve p (heap w)) ∧
        app w' = app w ∧ portPool w' = portPool w ∧
        sent w' = sent w ++ [outgoing (rewritten i (req w))] ∧
        (proxy_panic (upstream (rewritten i (req w)))
           ≠ Some (PanicError ErrNoActiveInstances) →
         req w' = proxy_req (upstream (rewritten i (req w))) (rewritten i (req w)) ∧
         rw w' = proxy_rw (upstream (rewritten i (req w))) (rw w)).
Proof.
  intros Hact Hlock Hi.
  by apply (ServeHTTP_call_run (returning upstream) w p i).
Qed.

(** A request that finds [p] in the slot, with a call of the reverse proxy
    that does not come back: the handler waits, with [Serve()] called and
    [Done()] not. *)
Lemma ServeHTTP_call_waits call w p i :
  activeInstance (app w) = Some p →
  activeInstanceLock (app w) = false →
  heap w !! p = Some i →
  call (rewritten i (req w)) = None →
  ∃ w', ServeHTTP_call call w = (Blocked, w') ∧
        trace w' = trace w ++ reserve_events p ++
                   [EvProxy (rewritten i (req w))] ∧
        heap w' = alter Instance_Serve p (heap w) ∧
        app w' = app w ∧ portPool w' = portPool w.
Proof.
  intros Hact Hlock Hi Hcall.
  unfold ServeHTTP_call, mbind, M_bind.
  rewrite (reserveInstance_some _ _ Hact Hlock).
  set (w1 := mkWorld _ _ _ _ _ _ _).
  assert (Hi1 : heap w1 !! p = Some (Instance_Serve i)).
  { unfold w1. simpl. by rewrite list_lookup_alter_eq, Hi. }
  assert (Hrw1 : rewritten (Instance_Serve i) (req w1) = rewritten i (req w)).
  { apply rewritten_Serve. }
  rewrite <- Hrw1 in Hcall.
  destruct (ServeHTTP_body_waits call p _ w1 Hi1 Hcall)
    as (w2 & Hbody & Htr2 & Hh2 & Ha2 & Hp2).
  rewrite Hrw1 in Htr2.
  exists w2. unfold defer_recover. rewrite Hbody.
  split; [done|]. split.
  { rewrite Htr2. unfold w1, reserve_events. simpl. by rewrite <- !app_assoc. }
  by rewrite Hh2, Ha2, Hp2.
Qed.

Lemma ServeHTTP_body_dangling call p w :
  heap w !! p = None →
  ServeHTTP_body call (Some p) None w =
    (Panic nil_dereference, with_req (set_URL_Scheme "http" (req w)) w).
Proof.
  intros Hp. unfold ServeHTTP_body, mbind, M_bind, modify, Hostname_of. simpl.
  by rewrite Hp.
Qed.

Lemma recovery_events_quiet recovered :
  lock_events (recovery_events recovered) = [] ∧
  active_writes (recovery_events recovered) = [] ∧
  Stop_calls (recovery_events recovered) = [] ∧
  status_reports (recovery_events recovered) = [].
Proof. destruct recovered as [v|]; simpl; [case_bool_decide|]; done. Qed.

(** X4. With the mutex free, no panic leaves [ServeHTTP], whatever the slot
    holds and whatever the call of the reverse proxy does.  The handler
    returns when that call comes back, whether it returns or panics; when
    the call does not come back (the proxy waits on the upstream, and a
    request has no deadline), the handler waits in it, with [Serve()]
    called and [Done()] not yet.  In both cases it has taken and released
    the mutex once, written neither the slot nor any other field of the
    App, taken no port and stopped no instance; its calls of [Serve()] are
    one on the instance of the slot, none when the slot is nil, and when it
    returns its calls of [Done()] are the same. *)
Theorem ServeHTTP_call_outcome call w :
  activeInstanceLock (app w) = false →
  ∃ o w' evs,
    ServeHTTP_call call w = (o, w') ∧
    trace w' = trace w ++ evs ∧
    app w' = app w ∧
    portPool w' = portPool w ∧
    lock_events evs = [true; false] ∧
    active_writes evs = [] ∧
    Stop_calls evs = [] ∧
    Serve_calls evs = option_list (activeInstance (app w)) ∧
    ((o = Ret () ∧ Done_calls evs = option_list (activeInstance (app w))) ∨
     (o = Blocked ∧ Done_calls evs = [] ∧
      ∃ r, proxied evs = [r] ∧ call r = None)).
Proof.
  intros Hlock.
  destruct (activeInstance (app w)) as [p|] eqn:Hact.
  - destruct (heap w !! p) as [i|] eqn:Hi.
    + destruct (call (rewritten i (req w))) as [res|] eqn:Hcall.
      * destruct (ServeHTTP_call_run call w p i res Hact Hlock Hi Hcall)
          as (w' & Hrun & Htr & _ & Happ & Hpp & _).
        destruct (recovery_events_quiet (proxy_panic res)) as (HL & HW & HS & _).
        destruct (recovery_events_calls (proxy_panic res)) as (HSe & HDo & _).
        eexists (Ret ()), w', _. split; [exact Hrun|]. split; [exact Htr|].
        unfold lock_events, active_writes, Stop_calls, Serve_calls, Done_calls in *.
        rewrite !omap_app, HL, HW, HS, HSe, HDo.
        split; [done|]. split; [done|]. split; [done|]. split; [done|].
        split; [done|]. split; [done|]. by left.
      * destruct (ServeHTTP_call_waits call w p i Hact Hlock Hi Hcall)
          as (w' & Hrun & Htr & _ & Happ & Hpp).
        eexists Blocked, w', _. split; [exact Hrun|]. split; [exact Htr|].
        split; [done|]. split; [done|]. split; [done|]. split; [done|].
        split; [done|]. split; [done|]. right.
        split; [done|]. split; [done|]. by exists (rewritten i (req w)).
    + unfold ServeHTTP_call, mbind, M_bind.
      rewrite (reserveInstance_some _ _ Hact Hlock).
      unfold defer_recover. rewrite ServeHTTP_body_dangling; last first.
      { simpl. by rewrite list_lookup_alter_eq, Hi. }
      eexists (Ret ()), _, (reserve_events p ++ [EvLog nil_dereference; EvDone p]).
      split; [reflexivity|]. simpl. rewrite <- !app_assoc.
      repeat (split; [done|]). by left.
  - unfold ServeHTTP_call, mbind, M_bind.
    rewrite (reserveInstance_none _ Hact Hlock).
    eexists (Ret ()), _, [EvLock; EvReadActive None; EvUnlock;
                EvLog (PanicError ErrNoActiveInstances); EvWriteHeader 503;
                EvBodyClose].
    split; [reflexivity|]. simpl. rewrite <- !app_assoc.
    repeat (split; [done|]). by left.
Qed.

Lemma ServeHTTP_call_outcome_witness :
  let w := world_stale_exited in
  let call := λ _ : Request, @None proxy_result in
  ∃ o w' evs,
    ServeHTTP_call call w = (o, w') ∧
    trace w' = trace w ++ evs ∧
    app w' = app w ∧
    portPool w' = portPool w ∧
    lock_events evs = [true; false] ∧
    active_writes evs = [] ∧
    Stop_calls evs = [] ∧
    Serve_calls evs = option_list (activeInstance (app w)) ∧
    ((o = Ret () ∧ Done_calls evs = option_list (activeInstance (app w))) ∨
     (o = Blocked ∧ Done_calls evs = [] ∧
      ∃ r, proxied evs = [r] ∧ call r = None)).
Proof.
  apply (ServeHTTP_call_outcome (λ _, None) world_stale_exited). reflexivity.
Defined.

(** X5. When the call of the reverse proxy panics with a value other than
    [ErrNoActiveInstances], the handler recovers and only logs the value:
    it writes no status of its own and closes nothing (the response writer
    and the body of the request are as the proxy left them), and it still
    calls [Done()] on the instance, last.  The counter of the instance is
    as before the request when the instance was in Serving, so that its
    [Serve()] counted. *)
Theorem ServeHTTP_proxy_panic_logged upstream w p i v :
  activeInstance (app w) = Some p →
  activeInstanceLock (app w) = false →
  heap w !! p = Some i →
  proxy_panic (upstream (rewritten i (req w))) = Some v →
  v ≠ PanicError ErrNoActiveInstances →
  ∃ w',
    ServeHTTP upstream w = (Ret (), w') ∧
    trace w' = trace w ++ reserve_events p ++
               [EvProxy (rewritten i (req w)); EvLog v; EvDone p] ∧
    rw w' = proxy_rw (upstream (rewritten i (req w))) (rw w) ∧
    req w' = proxy_req (upstream (rewritten i (req w))) (rewritten i (req w)) ∧
    heap w' = alter Instance_Done p (alter Instance_Serve p (heap w)) ∧
    (instance_status i = InstanceStatusServing → heap w' = heap w).
Proof.
  intros Hact Hlock Hi Hv Hne.
  destruct (ServeHTTP_proxied_run upstream w p i Hact Hlock Hi)
    as (w' & Hrun & Htr & Hheap & _ & _ & _ & Hkeep).
  rewrite Hv in Htr, Hkeep.
  destruct Hkeep as [Hrq Hrw]; [congruence|].
  exists w'. split; [done|]. split.
  { rewrite Htr. simpl. by rewrite bool_decide_eq_false_2. }
  split; [done|]. split; [done|]. split; [done|].
  intros Hs. rewrite Hheap. by apply (heap_Done_Serve p i).
Qed.

Lemma ServeHTTP_proxy_panic_logged_witness :
  let w := world_stale_exited in
  let up := λ _ : Request,
    mkProxyResult None (Some (PanicRuntime "net/http: abort Handler")) true in
  let i := sample_instance 2 20001 InstanceStatusServing in
  ∃ w',
    ServeHTTP up w = (Ret (), w') ∧
    trace w' = trace w ++ reserve_events 1%nat ++
               [EvProxy (rewritten i (req w));
                EvLog (PanicRuntime "net/http: abort Handler"); EvDone 1%nat] ∧
    rw w' = proxy_rw (up (rewritten i (req w))) (rw w) ∧
    req w' = proxy_req (up (rewritten i (req w))) (rewritten i (req w)) ∧
    heap w' = alter Instance_Done 1%nat (alter Instance_Serve 1%nat (heap w)) ∧
    (instance_status i = InstanceStatusServing → heap w' = heap w).
Proof.
  apply (ServeHTTP_proxy_panic_logged
           (λ _, mkProxyResult None (Some (PanicRuntime "net/http: abort Handler")) true)
           world_stale_exited 1%nat
           (sample_instance 2 20001 InstanceStatusServing)
           (PanicRuntime "net/http: abort Handler"));
    [reflexivity|reflexivity|reflexivity|reflexivity|discriminate].
Defined.

Lemma SplitHostPort_error hostport why :
  (SplitHostPort hostport).2 = Some why → (SplitHostPort hostport).1.1 = EmptyString.
Proof.
  unfold SplitHostPort. repeat case_match; simpl; done.
Qed.

(** X6. The error of [net.SplitHostPort] is dropped: when the remote
    address of the request does not parse, the request is handed to the
    reverse proxy all the same, with the empty string added as a value of
    X-Real-IP; nothing is logged for it, and [Done()] is called as for any
    request. *)
Theorem ServeHTTP_unparsable_RemoteAddr upstream w p i why :
  activeInstance (app w) = Some p →
  activeInstanceLock (app w) = false →
  heap w !! p = Some i →
  (SplitHostPort (RemoteAddr (req w))).2 = Some why →
  ∃ w' r,
    ServeHTTP upstream w = (Ret (), w') ∧
    trace w' = trace w ++ reserve_events p ++ [EvProxy r] ++
               recovery_events (proxy_panic (upstream r)) ++ [EvDone p] ∧
    URL_Scheme r = "http" ∧
    URL_Host r = Instance_Hostname i ∧
    Header r = Header_Add "X-Real-IP" EmptyString (Header (req w)) ∧
    Header r !! CanonicalMIMEHeaderKey "X-Real-IP" =
      Some (default [] (Header (req w) !! CanonicalMIMEHeaderKey "X-Real-IP")
            ++ [EmptyString]).
Proof.
  intros Hact Hlock Hi Herr.
  destruct (ServeHTTP_proxied_run upstream w p i Hact Hlock Hi)
    as (w' & Hrun & Htr & _).
  exists w', (rewritten i (req w)).
  split; [done|]. split; [done|]. split; [done|]. split; [done|].
  assert (Hh : Header (rewritten i (req w))
               = Header_Add "X-Real-IP" EmptyString (Header (req w))).
  { simpl. by rewrite (SplitHostPort_error _ _ Herr). }
  split; [done|]. rewrite Hh. apply Header_Add_lookup.
Qed.

Lemma ServeHTTP_unparsable_RemoteAddr_witness :
  let w := with_req (mkRequest "" "example.org" "@" ∅ false) world_stale_exited in
  let i := sample_instance 2 20001 InstanceStatusServing in
  ∃ w' r,
    ServeHTTP upstream_ok w = (Ret (), w') ∧
    trace w' = trace w ++ reserve_events 1%nat ++ [EvProxy r] ++
               recovery_events (proxy_panic (upstream_ok r)) ++ [EvDone 1%nat] ∧
    URL_Scheme r = "http" ∧
    URL_Host r = Instance_Hostname i ∧
    Header r = Header_Add "X-Real-IP" EmptyString (Header (req w)) ∧
    Header r !! CanonicalMIMEHeaderKey "X-Real-IP" =
      Some (default [] (Header (req w) !! CanonicalMIMEHeaderKey "X-Real-IP")
            ++ [EmptyString]).
Proof.
  apply (ServeHTTP_unparsable_RemoteAddr upstream_ok
           (with_req (mkRequest "" "example.org" "@" ∅ false) world_stale_exited)
           1%nat (sample_instance 2 20001 InstanceStatusServing)
           "missing port in address");
    vm_compute; reflexivity.
Defined.

(** X7. A value of X-Real-IP that comes with the request stays in front of
    the one the handler adds: [Header.Get("X-Real-IP")] on the request
    handed to the reverse proxy is the value the client sent, not the host
    of the remote address. *)
Theorem ServeHTTP_keeps_client_X_Real_IP upstream w p i v vs :
  activeInstance (app w) = Some p →
  activeInstanceLock (app w) = false →
  heap w !! p = Some i →
  Header (req w) !! CanonicalMIMEHeaderKey "X-Real-IP" = Some (v :: vs) →
  ∃ r,
    proxied (drop (length (trace w)) (trace (ServeHTTP upstream w).2)) = [r] ∧
    Header_Get "X-Real-IP" (Header r) = v ∧
    Header r !! CanonicalMIMEHeaderKey "X-Real-IP" =
      Some (v :: vs ++ [(SplitHostPort (RemoteAddr (req w))).1.1]).
Proof.
  intros Hact Hlock Hi Hv.
  destruct (ServeHTTP_proxied_run upstream w p i Hact Hlock Hi)
    as (w' & Hrun & Htr & _).
  exists (rewritten i (req w)). rewrite Hrun. simpl.
  split.
  { rewrite Htr, drop_app_length.
    destruct (recovery_events_calls
                (proxy_panic (upstream (rewritten i (req w))))) as (_ & _ & HP).
    unfold proxied in *. rewrite !omap_app, HP. done. }
  unfold Header_Get. rewrite Header_Add_lookup, Hv. done.
Qed.

Lemma ServeHTTP_keeps_client_X_Real_IP_witness :
  let w := with_req (mkRequest "" "example.org" "10.1.2.3:51234"
                       {[ "X-Real-Ip" := ["6.6.6.6"] ]} false)
                    world_stale_exited in
  ∃ r,
    proxied (drop (length (trace w)) (trace (ServeHTTP upstream_ok w).2)) = [r] ∧
    Header_Get "X-Real-IP" (Header r) = "6.6.6.6" ∧
    Header r !! CanonicalMIMEHeaderKey "X-Real-IP" =
      Some ("6.6.6.6" :: [] ++ [(SplitHostPort (RemoteAddr (req w))).1.1]).
Proof.
  apply (ServeHTTP_keeps_client_X_Real_IP upstream_ok
           (with_req (mkRequest "" "example.org" "10.1.2.3:51234"
                        {[ "X-Real-Ip" := ["6.6.6.6"] ]} false)
                     world_stale_exited)
           1%nat (sample_instance 2 20001 InstanceStatusServing));
    vm_compute; reflexivity.
Defined.

(** ** The request that reaches the upstream *)




(** ** Operations one after the other *)

(** X8. After a call of [StartNewInstance], no instance of the list is in
    Starting but the one the call has made, if it has made one: the older
    ones that were in Starting have been stopped.  So the list never holds
    two instances in Starting between calls. *)
Theorem StartNewInstance_leaves_one_starting w :
  ∃ r w',
    StartNewInstance w = (Ret r, w') ∧
    ∀ p, p ∈ instances (app w') →
         status_of w' p = Some InstanceStatusStarting →
         r = None ∧ last (instances (app w')) = Some p ∧ heap w !! p = None.
Proof.
  destruct (StartNewInstance_spec w)
    as (w1 & stopped & _ & _ & _ & Hheap & Hlen & Hrun).
  simpl in Hrun.
  assert (Hold : ∀ p, p ∈ instances (app w) →
                      instance_status <$> heap w1 !! p ≠ Some InstanceStatusStarting).
  { intros p Hp. rewrite Hheap. case_bool_decide as Hs.
    - destruct Hs as [_ Hs]. unfold status_of in Hs.
      destruct (heap w !! p) as [i|]; simpl in *; [|done].
      injection Hs as Hs. unfold Instance_Stop. rewrite Hs. done.
    - intros Hs'. apply Hs. by split. }
  destruct (PortPool_reserve (portPool w)) as [[port pp]|].
  - eexists _, _. split; [exact Hrun|]. simpl. intros p Hp Hst.
    unfold status_of in Hst. simpl in Hst.
    destruct (decide (p = length (heap w))) as [->|Hne].
    { split; [done|]. split; [by rewrite last_snoc|].
      by apply lookup_ge_None_2. }
    exfalso.
    apply elem_of_app in Hp as [Hp|Hp];
      [|by apply list_elem_of_singleton in Hp].
    destruct (decide (p < length (heap w1))%nat) as [Hlt|Hge].
    + rewrite lookup_app_l in Hst by done. by apply (Hold p).
    + rewrite lookup_ge_None_2 in Hst; [done|].
      rewrite length_app. simpl. lia.
  - eexists _, _. split; [exact Hrun|]. simpl. intros p Hp Hst.
    exfalso. by apply (Hold p).
Qed.

Lemma settled_alter (f : Instance → Instance) p h :
  (∀ i, instance_inFlight (f i) ≤ instance_inFlight i) →
  settled h → settled (alter f p h).
Proof.
  intros Hf Hh. unfold settled in *. rewrite Forall_lookup in Hh |- *.
  intros q i Hq. destruct (decide (p = q)) as [->|Hne].
  - rewrite list_lookup_alter_eq in Hq.
    destruct (h !! q) as [j|] eqn:Hj; simpl in Hq; [|done].
    injection Hq as <-. specialize (Hf j). specialize (Hh q j Hj).
    simpl in Hh. lia.
  - rewrite list_lookup_alter_ne in Hq by done. by apply (Hh q).
Qed.

(** A request that is over has taken the counter back to where it was, or
    below when its [Serve()] did not count. *)
Lemma Instance_Done_Serve_inFlight i :
  instance_inFlight (Instance_Done (Instance_Serve i)) ≤ instance_inFlight i.
Proof.
  unfold Instance_Done, Instance_Serve. case_bool_decide; simpl; lia.
Qed.

Lemma Instance_Stop_inFlight i :
  instance_inFlight (Instance_Stop i) = instance_inFlight i.
Proof. unfold Instance_Stop. by destruct (instance_status i). Qed.

Lemma Instance_UpdateStatus_inFlight observed i :
  instance_inFlight (Instance_UpdateStatus observed i) = instance_inFlight i.
Proof. unfold Instance_UpdateStatus. by destruct (terminal _). Qed.

Lemma forM__preserves {A} (P : World → Prop) (f : A → M unit) l :
  (∀ x w, P w → P (f x w).2) → ∀ w, P w → P (forM_ l f w).2.
Proof.
  intros Hf. induction l as [|x l IH]; intros w Hw; [done|].
  simpl. unfold mbind, M_bind. specialize (Hf x w Hw).
  destruct (f x w) as [[[]|v|] w1]; simpl in *; [by apply IH|done|done].
Qed.

Lemma updateInstance_settled observed instance w :
  settled (heap w) → settled (heap (updateInstance observed instance w).2).
Proof.
  intros Hw.
  assert (H1 : settled (alter (Instance_UpdateStatus observed) instance (heap w))).
  { apply settled_alter; [intros j; rewrite Instance_UpdateStatus_inFlight; lia|done]. }
  unfold updateInstance, mbind, M_bind, UpdateStatus, readActive, Lock. simpl.
  repeat case_bool_decide; simpl; try done;
    (destruct (activeInstanceLock (app w)); simpl; [done|]);
    unfold Unlock, Stop; simpl;
    (destruct (activeInstance (app w)) as [q|]; simpl; [|done]);
    (apply settled_alter; [intros j; rewrite Instance_Stop_inFlight; lia|done]).
Qed.

Lemma updaterTick_settled observe w :
  settled (heap w) → settled (heap (updaterTick observe w).2).
Proof.
  intros Hw. unfold updaterTick, mbind, M_bind, gets. simpl.
  pose proof (forM__preserves (λ w, settled (heap w))
                (λ instance, updateInstance (observe instance) instance)
                (instances (app w))
                (λ x w, updateInstance_settled (observe x) x w) w Hw) as H.
  simpl in H.
  destruct (forM_ _ _ w) as [[[]|v|] w1]; simpl in *; done.
Qed.

Lemma tick_events_no_requests reports a :
  Serve_calls (tick_events reports a) = [] ∧
  Done_calls (tick_events reports a) = [].
Proof.
  revert a. induction reports as [|[p s] r IH]; intros a; [done|].
  cbn [tick_events]. unfold Serve_calls, Done_calls in *.
  rewrite !omap_app. destruct (IH (next_active p s a)) as [-> ->].
  unfold update_events, promotion_events.
  repeat case_bool_decide; destruct a; done.
Qed.

Lemma active_after_mem reports a p :
  active_after reports a = Some p → a = Some p ∨ p ∈ reports.*1.
Proof.
  revert a. induction reports as [|[q s] r IH]; intros a; simpl; [by left|].
  intros H. apply IH in H as [H|H]; [|right; by apply list_elem_of_further].
  unfold next_active in H. simpl in H.
  repeat case_bool_decide; try done; [|by left].
  injection H as ->. right. apply list_elem_of_here.
Qed.

Lemma omap_Stop_events {A} (f : event → option A) l :
  (∀ p, f (EvStop p) = None) → omap f (EvStop <$> l) = [].
Proof.
  intros Hf. induction l as [|x l IH]; simpl; [done|]. by rewrite Hf.
Qed.

Lemma run_ok_StartNewInstance w :
  run_ok w →
  ∃ r w', StartNewInstance w = (Ret r, w') ∧ run_ok w' ∧
          instances (app w) `prefix_of` instances (app w') ∧
          config (app w') = config (app w).
Proof.
  intros [Hlock Hact Hvalid Hnodup Hbal Hidle].
  destruct (StartNewInstance_spec w)
    as (w1 & stopped & _ & Htr & _ & Hheap & Hlen & Hrun).
  simpl in Hrun.
  assert (Hidle1 : settled (heap w1)).
  { unfold settled in *. rewrite Forall_lookup in Hidle |- *. intros p i Hp.
    rewrite Hheap in Hp. case_bool_decide.
    - destruct (heap w !! p) as [j|] eqn:Hj; simpl in Hp; [|done].
      injection Hp as <-. rewrite Instance_Stop_inFlight. by apply (Hidle p j).
    - by apply (Hidle p). }
  assert (Hbal1 : Serve_calls (trace w1) = Done_calls (trace w1)).
  { rewrite Htr. unfold Serve_calls, Done_calls in *.
    rewrite !omap_app, !omap_Stop_events by done. by rewrite Hbal. }
  destruct (PortPool_reserve (portPool w)) as [[port pp]|].
  - eexists _, _. split; [exact Hrun|]. split; [|split; [by apply prefix_app_r|done]].
    split; simpl.
    + done.
    + intros p Hp. apply elem_of_app. left. by apply Hact.
    + intros p Hp. apply lookup_lt_is_Some. rewrite length_app. simpl.
      apply elem_of_app in Hp as [Hp|Hp].
      * apply Hvalid, lookup_lt_is_Some in Hp. lia.
      * apply list_elem_of_singleton in Hp as ->. lia.
    + apply NoDup_app. split; [done|]. split; [|apply NoDup_singleton].
      intros p Hp Hp'. apply list_elem_of_singleton in Hp' as ->.
      apply Hvalid, lookup_lt_is_Some in Hp. lia.
    + unfold Serve_calls, Done_calls in *. rewrite !omap_app. simpl.
      by rewrite Hbal1.
    + apply Forall_app. split; [done|]. by apply Forall_singleton.
  - eexists _, _. split; [exact Hrun|]. split; [|done].
    split; simpl; try done.
    + intros p Hp. apply lookup_lt_is_Some. rewrite Hlen.
      by apply lookup_lt_is_Some, Hvalid.
    + unfold Serve_calls, Done_calls in *. rewrite !omap_app. simpl.
      by rewrite Hbal1.
Qed.

Lemma run_ok_updaterTick observe w :
  run_ok w →
  ∃ w', updaterTick observe w = (Ret (), w') ∧ run_ok w' ∧
        instances (app w') = instances (app w) ∧
        config (app w') = config (app w).
Proof.
  intros [Hlock Hact Hvalid Hnodup Hbal Hidle].
  destruct (updaterTick_spec observe w Hlock)
    as (reports & w' & Hrun & Hfst & Htr & Hact' & Hlk & Hinst & _ & Hcfg & _ & Hlen).
  exists w'. split; [done|]. split; [|done].
  split.
  - done.
  - intros p Hp. rewrite Hact' in Hp. rewrite Hinst.
    apply active_after_mem in Hp as [Hp|Hp]; [by apply Hact|].
    by rewrite <- Hfst.
  - intros p Hp. rewrite Hinst in Hp. apply lookup_lt_is_Some. rewrite Hlen.
    by apply lookup_lt_is_Some, Hvalid.
  - by rewrite Hinst.
  - rewrite Htr. unfold Serve_calls, Done_calls in *. rewrite !omap_app.
    destruct (tick_events_no_requests reports (activeInstance (app w))) as [HS HD].
    unfold Serve_calls, Done_calls in HS, HD. rewrite HS, HD. simpl.
    by rewrite Hbal.
  - pose proof (updaterTick_settled observe w Hidle) as H. by rewrite Hrun in H.
Qed.

Lemma run_ok_ServeHTTP call w :
  run_ok w → (∀ r, is_Some (call r)) →
  ∃ w', ServeHTTP_call call w = (Ret (), w') ∧ run_ok w' ∧ app w' = app w.
Proof.
  intros [Hlock Hact Hvalid Hnodup Hbal Hidle] Hcall.
  destruct (activeInstance (app w)) as [p|] eqn:Ha.
  - destruct (Hvalid p (Hact p eq_refl)) as [i Hi].
    destruct (Hcall (rewritten i (req w))) as [res Hres].
    destruct (ServeHTTP_call_run call w p i res Ha Hlock Hi Hres)
      as (w' & Hrun & Htr & Hheap & Happ & _).
    exists w'. split; [done|]. split; [|done].
    split; rewrite ?Happ; try done.
    + by rewrite Ha.
    + intros q Hq. apply lookup_lt_is_Some. rewrite Hheap, !length_alter.
      by apply lookup_lt_is_Some, Hvalid.
    + rewrite Htr. unfold Serve_calls, Done_calls in *. rewrite !omap_app.
      destruct (recovery_events_calls (proxy_panic res)) as (HS & HD & _).
      unfold Serve_calls, Done_calls in HS, HD. rewrite HS, HD. simpl.
      by rewrite Hbal.
    + rewrite Hheap, list_alter_alter_eq.
      apply settled_alter; [|done]. intros j. apply Instance_Done_Serve_inFlight.
  - unfold ServeHTTP_call, mbind, M_bind.
    rewrite (reserveInstance_none _ Ha Hlock).
    eexists. split; [reflexivity|]. split; [|done].
    split; simpl; try done.
    + by rewrite Ha.
    + unfold Serve_calls, Done_calls in *. rewrite <- !app_assoc, !omap_app. simpl.
      by rewrite !app_nil_r.
Qed.

Lemma run_ok_receive r w : run_ok w → run_ok (with_rw (mkResponseWriter None) (with_req r w)).
Proof. intros [? ? ? ? ? ?]. by split. Qed.

Lemma run_ok_do_op o w :
  run_ok w → comes_back o →
  ∃ w', do_op o w = (Ret (), w') ∧ run_ok w' ∧
        instances (app w) `prefix_of` instances (app w') ∧
        config (app w') = config (app w).
Proof.
  intros Hw Hback. destruct o as [|observe|call r]; simpl.
  - destruct (run_ok_StartNewInstance w Hw) as (res & w' & Hrun & Hok & Hpre & Hcfg).
    exists w'. unfold mbind, M_bind. rewrite Hrun. done.
  - destruct (run_ok_updaterTick observe w Hw) as (w' & Hrun & Hok & Hinst & Hcfg).
    exists w'. by rewrite Hinst.
  - destruct (run_ok_ServeHTTP call _ (run_ok_receive r w Hw) Hback)
      as (w' & Hrun & Hok & Happ).
    exists w'. unfold mbind, M_bind, receive, modify. rewrite Hrun.
    by rewrite Happ.
Qed.

(** X9. Operations that come one after the other (calls of
    [StartNewInstance], rounds of the updater, requests, in any order and
    number), with calls of the reverse proxy that come back, all return,
    and they keep the App in order: the mutex is free between them, the
    slot holds nil or an instance of the list, the instances of the list
    are distinct instances of the heap, and every call of [Serve()] has been
    followed by its call of [Done()].  No counter is above zero between
    them: no request is still counted.  (A counter is below zero when a
    request was handed an instance that was not in Serving: its [Serve()]
    did not count, and its [Done()] did.)  The list only grows at its end,
    and the configuration is never changed.  The App of [NewApp] is in
    order. *)
Theorem do_ops_keeps_order l w :
  run_ok w →
  Forall comes_back l →
  ∃ w', do_ops l w = (Ret (), w') ∧ run_ok w' ∧
        instances (app w) `prefix_of` instances (app w') ∧
        config (app w') = config (app w).
Proof.
  revert w. induction l as [|o l IH]; intros w Hw Hl.
  - by exists w.
  - apply Forall_cons in Hl as [Ho Hl].
    destruct (run_ok_do_op o w Hw Ho) as (w1 & Hrun & Hok & Hpre & Hcfg).
    destruct (IH w1 Hok Hl) as (w' & Hrun' & Hok' & Hpre' & Hcfg').
    exists w'. unfold do_ops in *. simpl. unfold mbind, M_bind. rewrite Hrun.
    split; [done|]. split; [done|]. split; [by etrans|congruence].
Qed.

Lemma do_ops_keeps_order_witness :
  let w := fresh_world sample_config (mkPortPool 20000 20001 []) in
  let l := [OpServeHTTP (returning upstream_ok) sample_request; OpStartNewInstance;
            OpTick (λ _, InstanceStatusServing);
            OpServeHTTP (returning upstream_ok) sample_request; OpStartNewInstance;
            OpTick (λ _, InstanceStatusExited)] in
  ∃ w', do_ops l w = (Ret (), w') ∧ run_ok w' ∧
        instances (app w) `prefix_of` instances (app w') ∧
        config (app w') = config (app w).
Proof.
  apply (do_ops_keeps_order _ (fresh_world sample_config (mkPortPool 20000 20001 []))).
  - split; simpl.
    + reflexivity.
    + discriminate.
    + intros p Hp. by apply elem_of_nil in Hp.
    + apply NoDup_nil_2.
    + reflexivity.
    + apply Forall_nil_2.
  - repeat (apply Forall_cons; split; [simpl; try done; by eexists|]).
    apply Forall_nil_2.
Defined.

(** ** A restart *)

Lemma forM__app {A} (f : A → M unit) l1 l2 w :
  forM_ (l1 ++ l2) f w = (forM_ l1 f;; forM_ l2 f) w.
Proof.
  revert w. induction l1 as [|x l1 IH]; intros w; simpl; [done|].
  unfold mbind, M_bind in *. destruct (f x w) as [[[]|v|] w1]; [apply IH|done|done].
Qed.

Lemma forM__preserves_in {A} (P : World → Prop) (f : A → M unit) l :
  (∀ x w, x ∈ l → P w → P (f x w).2) → ∀ w, P w → P (forM_ l f w).2.
Proof.
  induction l as [|x l IH]; intros Hf w Hw; [done|].
  simpl. unfold mbind, M_bind.
  pose proof (Hf x w (list_elem_of_here _ _) Hw) as Hx.
  destruct (f x w) as [[[]|v|] w1]; simpl in *; [|done|done].
  apply IH; [|done]. intros y w' Hy. apply Hf. by apply list_elem_of_further.
Qed.

(** A pass of the updater on another instance leaves alone an instance
    that is not in the slot. *)
Lemma updateInstance_keeps b observed x w :
  x ≠ b → activeInstance (app w) ≠ Some b →
  heap (updateInstance observed x w).2 !! b = heap w !! b ∧
  activeInstance (app (updateInstance observed x w).2) ≠ Some b.
Proof.
  intros Hx Ha.
  assert (H1 : alter (Instance_UpdateStatus observed) x (heap w) !! b = heap w !! b).
  { by apply list_lookup_alter_ne. }
  unfold updateInstance, mbind, M_bind, UpdateStatus, readActive, Lock. simpl.
  repeat case_bool_decide; simpl; try done;
    (destruct (activeInstanceLock (app w)); simpl; [done|]);
    unfold Unlock, Stop; simpl;
    (destruct (activeInstance (app w)) as [q|] eqn:Hq; simpl;
     [|split; [done|congruence]]);
    (split; [|congruence]);
    rewrite list_lookup_alter_ne by congruence; done.
Qed.

(** X10. A restart, with the operations one after the other: a call of
    [StartNewInstance] that gets a port, then a round of the updater in
    which the new instance is found serving.  The new instance is the last
    of the list and, after the round, the active instance; its pass ends
    the round: the swap under the lock, then [Stop()] on the instance that
    was in the slot, if there was one. *)
Theorem restart_promotes_new_instance observe w :
  run_ok w →
  is_Some (PortPool_reserve (portPool w)) →
  observe (length (heap w)) = InstanceStatusServing →
  ∃ w' pre prior,
    do_ops [OpStartNewInstance; OpTick observe] w = (Ret (), w') ∧
    instances (app w') = instances (app w) ++ [length (heap w)] ∧
    activeInstance (app w') = Some (length (heap w)) ∧
    prior ≠ Some (length (heap w)) ∧
    drop (length (trace w)) (trace w') =
      pre ++ [EvUpdateStatus (length (heap w)) InstanceStatusServing;
              EvReadActive prior] ++
      promotion_events (length (heap w)) prior ++ [EvReport].
Proof.
  intros [Hlock Hact Hvalid Hnodup Hbal Hidle] [[port pp] Hpool] Hobs.
  destruct (StartNewInstance_spec w)
    as (w1 & stopped & _ & Htr & _ & Hheap & Hlen & Hrun).
  simpl in Hrun. rewrite Hpool in Hrun.
  set (b := length (heap w)) in *.
  set (i := mkInstance _ _ _ _ _) in Hrun.
  set (wS := mkWorld _ _ _ _ _ _ _) in Hrun.
  assert (HbS : heap wS !! b = Some i).
  { unfold wS. simpl. rewrite <- Hlen.
    by rewrite lookup_app_r, Nat.sub_diag. }
  assert (Hnew : b ∉ instances (app w)).
  { intros Hin. apply Hvalid, lookup_lt_is_Some in Hin. unfold b in Hin. lia. }
  assert (HaS : activeInstance (app wS) ≠ Some b).
  { unfold wS. simpl. intros Ha. by apply Hnew, Hact. }
  assert (HlkS : activeInstanceLock (app wS) = false) by done.
  destruct (tick_loop_spec observe (instances (app w)) wS HlkS)
    as (reports & w2 & Hrun2 & Hfst & Htr2 & Hact2 & Hlk2 & Hinst2 & _).
  assert (Hkeep : heap w2 !! b = Some i ∧ activeInstance (app w2) ≠ Some b).
  { pose proof (forM__preserves_in
                  (λ w', heap w' !! b = Some i ∧ activeInstance (app w') ≠ Some b)
                  (λ instance, updateInstance (observe instance) instance)
                  (instances (app w))) as Hp.
    simpl in Hp.
    assert (Hw2 : w2 = (forM_ (instances (app w))
                          (λ instance, updateInstance (observe instance) instance)
                          wS).2) by (by rewrite Hrun2).
    rewrite Hw2. apply Hp; [|done].
    intros x w' Hx [Hh Ha].
    destruct (updateInstance_keeps b (observe x) x w') as [Hh' Ha'];
      [by intros ->|done|].
    by rewrite Hh'. }
  destruct Hkeep as [Hb2 Ha2].
  destruct (updateInstance_returned (observe b) b w2 Hlk2)
    as (w3 & Hrun3 & Htr3 & Hact3 & Hlk3 & Hinst3 & _).
  assert (Hs : status_returned (observe b) b w2 = InstanceStatusServing).
  { unfold status_returned. rewrite list_lookup_alter_eq, Hb2. simpl.
    by unfold Instance_UpdateStatus. }
  rewrite Hs in Htr3, Hact3.
  exists (with_event EvReport w3),
         ((EvStop <$> stopped) ++
          [EvNewInstance (uint32_add (instanceId (app w)) 1) (Some b)] ++
          tick_events reports (activeInstance (app w))),
         (activeInstance (app w2)).
  split.
  { unfold do_ops. simpl. unfold mbind, M_bind. rewrite Hrun. simpl.
    unfold updaterTick, mbind, M_bind, gets. simpl.
    rewrite forM__app. unfold mbind, M_bind. rewrite Hrun2. simpl.
    unfold mbind, M_bind. rewrite Hrun3. done. }
  split. { simpl. by rewrite Hinst3, Hinst2. }
  split. { simpl. rewrite Hact3. unfold next_active. by rewrite bool_decide_eq_true_2. }
  split. { congruence. }
  simpl. rewrite Htr3, Htr2. unfold wS. simpl. rewrite Htr.
  rewrite <- !app_assoc, drop_app_length.
  unfold update_events. rewrite bool_decide_eq_true_2 by done.
  rewrite bool_decide_eq_true_2 by congruence. simpl.
  by rewrite <- ?app_assoc.
Qed.

Lemma restart_promotes_new_instance_witness :
  let w := sample_world [sample_instance 1 20000 InstanceStatusServing]
                        (Some 0%nat) 1 [20000] in
  ∃ w' pre prior,
    do_ops [OpStartNewInstance; OpTick (λ _, InstanceStatusServing)] w = (Ret (), w') ∧
    instances (app w') = instances (app w) ++ [length (heap w)] ∧
    activeInstance (app w') = Some (length (heap w)) ∧
    prior ≠ Some (length (heap w)) ∧
    drop (length (trace w)) (trace w') =
      pre ++ [EvUpdateStatus (length (heap w)) InstanceStatusServing;
              EvReadActive prior] ++
      promotion_events (length (heap w)) prior ++ [EvReport].
Proof.
  apply (restart_promotes_new_instance (λ _, InstanceStatusServing)
           (sample_world [sample_instance 1 20000 InstanceStatusServing]
                         (Some 0%nat) 1 [20000])).
  - split; simpl.
    + reflexivity.
    + intros p [= <-]. apply list_elem_of_here.
    + intros p Hp. apply list_elem_of_singleton in Hp as ->. by eexists.
    + apply NoDup_singleton.
    + reflexivity.
    + by apply Forall_singleton.
  - by eexists.
  - reflexivity.
Defined.

(** ** The address of the App *)

Lemma string_of_uint_no_byte c d :
  c ∈ [":"; "["; "]"]%char →
  index_byte c (NilEmpty.string_of_uint d) = None.
Proof.
  rewrite !elem_of_cons, elem_of_nil. intros [->|[->|[->|[]]]];
    induction d; simpl; rewrite ?IHd; done.
Qed.

Lemma fmt_d_no_byte c n :
  c ∈ [":"; "["; "]"]%char → index_byte c (fmt_d n) = None.
Proof.
  intros Hc. unfold fmt_d, NilZero.string_of_int, NilZero.string_of_uint.
  destruct (Z.to_int n) as [d|d];
    pose proof (string_of_uint_no_byte c d Hc) as Hd; revert Hc Hd;
    rewrite !elem_of_cons, elem_of_nil; intros [->|[->|[->|[]]]] Hd;
    destruct d; simpl in *; try done;
    destruct (index_byte _ _); simpl in *; done.
Qed.

Lemma append_nil s : EmptyString +:+ s = s.
Proof. reflexivity. Qed.

Lemma append_cons a s1 s2 : String a s1 +:+ s2 = String a (s1 +:+ s2).
Proof. reflexivity. Qed.

Lemma index_byte_app c s1 s2 :
  index_byte c (s1 +:+ s2) =
    match index_byte c s1 with
    | Some i => Some i
    | None => (λ i, String.length s1 + i)%nat <$> index_byte c s2
    end.
Proof.
  induction s1 as [|a s1 IH]; rewrite ?append_nil, ?append_cons; simpl.
  - by destruct (index_byte c s2).
  - destruct (Ascii.eqb a c); [done|]. rewrite IH.
    destruct (index_byte c s1); [done|]. by destruct (index_byte c s2).
Qed.

Lemma last_byte_None c s : last_byte c s = None ↔ index_byte c s = None.
Proof.
  induction s as [|a s IH]; simpl; [done|].
  destruct (last_byte c s) as [i|]; destruct (index_byte c s) as [j|];
    destruct (Ascii.eqb a c); simpl; try done.
  - destruct IH as [_ IH]. by specialize (IH eq_refl).
  - destruct IH as [IH _]. by specialize (IH eq_refl).
Qed.

Lemma last_byte_app c s1 s2 :
  last_byte c (s1 +:+ s2) =
    match last_byte c s2 with
    | Some i => Some (String.length s1 + i)%nat
    | None => last_byte c s1
    end.
Proof.
  induction s1 as [|a s1 IH]; rewrite ?append_nil, ?append_cons; simpl.
  - by destruct (last_byte c s2).
  - rewrite IH. by destruct (last_byte c s2).
Qed.

Lemma substring_0_length s : substring 0 (String.length s) s = s.
Proof. induction s as [|a s IH]; simpl; [done|]. by rewrite IH. Qed.

Lemma str_to_app s1 s2 : str_to (String.length s1) (s1 +:+ s2) = s1.
Proof.
  unfold str_to. induction s1 as [|a s1 IH]; rewrite ?append_nil, ?append_cons; simpl.
  - by destruct s2.
  - by rewrite IH.
Qed.

(** The last colon of [host:port], for a port without colon. *)
Lemma last_colon host port :
  index_byte ":" port = None →
  last_byte ":" (host +:+ ":" +:+ port) = Some (String.length host).
Proof.
  intros Hp. rewrite last_byte_app, append_cons, append_nil. simpl.
  apply last_byte_None in Hp. rewrite Hp. simpl. f_equal. lia.
Qed.

Lemma str_from_0 s : str_from 0 s = s.
Proof.
  unfold str_from. rewrite Nat.sub_0_r. apply substring_0_length.
Qed.

Lemma str_from_port host port :
  str_from (S (String.length host)) (host +:+ ":" +:+ port) = port.
Proof.
  unfold str_from.
  induction host as [|a host IH]; rewrite ?append_nil, ?append_cons; simpl.
  - rewrite Nat.sub_0_r. apply substring_0_length.
  - apply IH.
Qed.

(** X11. The address that [App.Hostname] builds is taken apart again by
    [net.SplitHostPort] into the external host and the port in decimal,
    when the external host holds no colon and no bracket. *)
Theorem Hostname_splits a :
  index_byte ":" (externalHost (config a)) = None →
  index_byte "[" (externalHost (config a)) = None →
  index_byte "]" (externalHost (config a)) = None →
  SplitHostPort (Hostname a) =
    (externalHost (config a), fmt_d (externalPort (config a)), None).
Proof.
  unfold Hostname.
  generalize (externalHost (config a)) (externalPort (config a)).
  intros host port Hc Hl Hr.
  assert (Hno : ∀ c, c ∈ [":"; "["; "]"]%char → c ≠ ":"%char →
                     index_byte c host = None →
                     index_byte c (host +:+ ":" +:+ fmt_d port) = None).
  { intros c Hin Hne Hh. rewrite index_byte_app, Hh, append_cons, append_nil.
    cbn [index_byte].
    destruct (Ascii.eqb_spec ":" c) as [<-|_]; [done|].
    by rewrite (fmt_d_no_byte c port Hin). }
  unfold SplitHostPort.
  rewrite (last_colon host _ (fmt_d_no_byte ":" port ltac:(set_solver))).
  rewrite bool_decide_eq_false_2; last first.
  { destruct host as [|c host]; simpl; [done|]. intros [= ->].
    simpl in Hl. done. }
  rewrite str_to_app, Hc, !str_from_0.
  rewrite (Hno "["%char) by (done || set_solver).
  rewrite (Hno "]"%char) by (done || set_solver).
  by rewrite str_from_port.
Qed.

Lemma Hostname_splits_witness :
  SplitHostPort (Hostname (NewApp sample_config)) = ("0.0.0.0", "8000", None).
Proof.
  apply (Hostname_splits (NewApp sample_config)); reflexivity.
Defined.

(** X12. [App.Hostname] puts no brackets around the external host: when
    the host holds a colon, as a literal IPv6 address does, and does not
    begin with a bracket, the address it builds is refused by
    [net.SplitHostPort], with too many colons. *)
Theorem Hostname_with_colon_refused a :
  is_Some (index_byte ":" (externalHost (config a))) →
  String.get 0 (externalHost (config a)) ≠ Some "["%char →
  SplitHostPort (Hostname a) =
    (EmptyString, EmptyString, Some "too many colons in address").
Proof.
  unfold Hostname.
  generalize (externalHost (config a)) (externalPort (config a)).
  intros host port [i Hc] Hb.
  unfold SplitHostPort.
  rewrite (last_colon host _ (fmt_d_no_byte ":" port ltac:(set_solver))).
  rewrite bool_decide_eq_false_2; last first.
  { destruct host as [|c host]; simpl in *; done. }
  by rewrite str_to_app, Hc.
Qed.

Lemma Hostname_with_colon_refused_witness :
  SplitHostPort (Hostname (NewApp (mkAppConfig "web" "./web" "/health" 15 10
                                     "127.0.0.1" "::1" 8000))) =
    (EmptyString, EmptyString, Some "too many colons in address").
Proof.
  apply (Hostname_with_colon_refused
           (NewApp (mkAppConfig "web" "./web" "/health" 15 10 "127.0.0.1" "::1" 8000))).
  - by exists 0%nat.
  - discriminate.
Defined.

(** * Facts on the configuration file *)

Module ConfigGoFacts.
Import ConfigGo.

(** ** The keys of the fields *)

(** The tag of [From] is not a well-formed [key:"value"] pair, so
    [StructTag.Get] finds no [yaml] value in it; the tag has a colon, so it
    is not taken as the key either; the key is the lower-cased field name,
    which is [from]. *)
Lemma tag_From_has_no_yaml_value : StructTag_Get tag_From "yaml" = EmptyString.
Proof. reflexivity. Qed.

Lemma InternalPorts_keys :
  field_key <$> InternalPorts_fields = [KeyNamed "from"; KeyNamed "to"].
Proof. reflexivity. Qed.

Lemma Config_keys :
  field_key <$> Config_fields =
  [KeyNamed "port_range"; KeyNamed "apps"; KeyNamed "rpc"].
Proof. reflexivity. Qed.

Lemma structs_accepted :
  struct_ok Config_fields && struct_ok InternalPorts_fields
  && struct_ok AppConfig_fields && struct_ok RpcConfig_fields = true.
Proof. reflexivity. Qed.

(** ** One step and then the next *)

Lemma gave_up_nil {T} (r : decoded T) : terrors r = [] → gave_up r = false.
Proof.
  unfold gave_up. intros ->. apply bool_decide_eq_false, not_elem_of_nil.
Qed.

Lemma gave_up_true {T} (r : decoded T) : gave_up r = true → wantMap ∈ terrors r.
Proof. unfold gave_up. apply bool_decide_eq_true. Qed.

Lemma gave_up_false {T} (r : decoded T) : gave_up r = false → wantMap ∉ terrors r.
Proof. unfold gave_up. apply bool_decide_eq_false. Qed.

Lemma gave_up_app {T} (v : T) g es es' :
  gave_up (mkDecoded v g (es ++ es')) =
  bool_decide (wantMap ∈ es) || bool_decide (wantMap ∈ es').
Proof.
  unfold gave_up. simpl.
  repeat case_bool_decide; simpl; try done; rewrite elem_of_app in *; tauto.
Qed.

Lemma gave_up_terrors {T U} (r : decoded T) (r' : decoded U) :
  terrors r = terrors r' → gave_up r = gave_up r'.
Proof. unfold gave_up. by intros ->. Qed.

Lemma and_then_ret {S} (out : S) g (next : S → decoded S) :
  and_then (mkDecoded out g []) next = next out.
Proof.
  unfold and_then. rewrite gave_up_nil by done. simpl. by destruct (next out).
Qed.

Lemma and_then_ext {S} (r : decoded S) f g :
  (∀ s, f s = g s) → and_then r f = and_then r g.
Proof. intros H. unfold and_then. by rewrite H. Qed.

Lemma terrors_and_then {S} (r : decoded S) f :
  terrors (and_then r f) =
    if gave_up r then terrors r else terrors r ++ terrors (f (value r)).
Proof. unfold and_then. by destruct (gave_up r). Qed.

Lemma value_and_then {S} (r : decoded S) f :
  value (and_then r f) = if gave_up r then value r else value (f (value r)).
Proof. unfold and_then. by destruct (gave_up r). Qed.

Lemma and_then_assoc {S} (r : decoded S) f g :
  and_then (and_then r f) g = and_then r (λ s, and_then (f s) g).
Proof.
  unfold and_then at 2 3. destruct (gave_up r) eqn:Hr.
  { unfold and_then. by rewrite Hr. }
  unfold and_then at 1. rewrite gave_up_app. cbn [value terrors].
  fold (gave_up r). rewrite Hr. simpl. fold (gave_up (f (value r))).
  unfold and_then. destruct (gave_up (f (value r))); cbn [value good terrors]; [done|].
  by rewrite app_assoc.
Qed.

(** The type errors of two steps depend on the type errors of each. *)
Lemma terrors_and_then_congr {S S'} (r : decoded S) (r' : decoded S') f f' :
  terrors r = terrors r' →
  (∀ s s', terrors (f s) = terrors (f' s')) →
  terrors (and_then r f) = terrors (and_then r' f').
Proof.
  intros Hr Hf. rewrite !terrors_and_then, (gave_up_terrors r r' Hr), Hr.
  destruct (gave_up r'); [done|]. f_equal. apply Hf.
Qed.

Lemma and_then_terrors_nil {S} (r : decoded S) f :
  terrors (and_then r f) = [] → terrors r = [] ∧ terrors (f (value r)) = [].
Proof.
  rewrite terrors_and_then. destruct (gave_up r) eqn:Hr.
  - intros H. by rewrite (gave_up_nil r H) in Hr.
  - by intros [? ?]%app_eq_nil.
Qed.

(** ** Facts on [mappingStruct] *)

Lemma mappingStruct_nil {S} (fields : list (field S)) out :
  mappingStruct fields [] out = mkDecoded out true [].
Proof. reflexivity. Qed.

Lemma mappingStruct_cons {S} (fields : list (field S)) k v rest out :
  mappingStruct fields ((k, v) :: rest) out =
  and_then (entry fields k v out) (mappingStruct fields rest).
Proof. reflexivity. Qed.

Lemma entry_keyed {S} (fields : list (field S)) k v out :
  isMerge k = false → entry fields k v out = keyed_entry fields k v out.
Proof. unfold entry. by intros ->. Qed.

(** A key that is decoded into another name than [<<] is no merge key. *)
Lemma key_name_not_merge k name :
  key_name k = Some name → name ≠ "<<" → isMerge k = false.
Proof.
  destruct k as [v [| | | | |]| |]; try done.
  unfold key_name. simpl. intros [= <-] Hne.
  by apply String.eqb_neq.
Qed.

Lemma no_merge_app l1 l2 : no_merge (l1 ++ l2) ↔ no_merge l1 ∧ no_merge l2.
Proof.
  unfold no_merge. split.
  - intros H. split; intros k v Hin; apply (H k v), elem_of_app; auto.
  - intros [H1 H2] k v [Hin|Hin]%elem_of_app; eauto.
Qed.

Lemma no_merge_cons k v l : no_merge ((k, v) :: l) ↔ isMerge k = false ∧ no_merge l.
Proof.
  unfold no_merge. split.
  - intros H. split; [apply (H k v), list_elem_of_here|].
    intros k' v' Hin. by apply (H k' v'), list_elem_of_further.
  - intros [H1 H2] k' v' [[= -> ->]|Hin]%elem_of_cons; eauto.
Qed.

Section MappingStruct.
Context {S : Type} (fields : list (field S)).

Lemma lookup_field_Some name f :
  lookup_field fields name = Some f →
  f ∈ fields ∧ field_key f = KeyNamed name.
Proof.
  unfold lookup_field. intros H. apply find_some in H as [Hin Hk].
  split; [by apply list_elem_of_In|]. by apply bool_decide_eq_true in Hk.
Qed.

(** Decoding a list of entries is decoding its parts one after the other. *)
Lemma mappingStruct_app l1 l2 out :
  mappingStruct fields (l1 ++ l2) out =
  and_then (mappingStruct fields l1 out) (mappingStruct fields l2).
Proof.
  revert out. induction l1 as [|[k v] l1 IH]; intros out.
  - by rewrite mappingStruct_nil, and_then_ret.
  - change (((k, v) :: l1) ++ l2) with ((k, v) :: (l1 ++ l2)).
    rewrite !mappingStruct_cons, and_then_assoc. by apply and_then_ext.
Qed.

Lemma keyed_entry_terrors_stable k v s1 s2 :
  Forall terrors_stable fields →
  terrors (keyed_entry fields k v s1) = terrors (keyed_entry fields k v s2).
Proof.
  intros Hst. unfold keyed_entry.
  destruct (key_name k) as [name|]; [|done].
  destruct (lookup_field fields name) as [f|] eqn:Hf; [|done].
  apply lookup_field_Some in Hf as [Hin _].
  rewrite Forall_forall in Hst. apply (Hst f Hin).
Qed.

(** The type errors met in a mapping, and in the value under a merge key,
    depend on the node only. *)
Lemma mapping_merge_terrors_stable n :
  Forall terrors_stable fields →
  (∀ s1 s2, terrors (mapping fields n s1) = terrors (mapping fields n s2)) ∧
  (∀ s1 s2, terrors (merge fields n s1) = terrors (merge fields n s2)).
Proof.
  intros Hst. induction n as [v r|children IH|children IH] using node_ind.
  - done.
  - assert (H : ∀ s1 s2, terrors (mappingStruct fields children s1) =
                          terrors (mappingStruct fields children s2)); [|done].
    induction children as [|[k v] l IHl]; intros s1 s2; [done|].
    apply Forall_cons_1 in IH as [[_ [_ Hv]] IH].
    rewrite !mappingStruct_cons. apply terrors_and_then_congr.
    + unfold entry. destruct (isMerge k); [apply Hv|].
      by apply keyed_entry_terrors_stable.
    + intros s s'. by apply IHl.
  - split; [done|]. simpl.
    induction children as [|m l IHl]; intros s1 s2; [done|].
    apply Forall_cons_1 in IH as [[Hm _] IH]. simpl.
    apply terrors_and_then_congr; [by apply IHl|].
    intros s s'. destruct m; [done| |done]. apply Hm.
Qed.

Lemma mappingStruct_terrors_stable children s1 s2 :
  Forall terrors_stable fields →
  terrors (mappingStruct fields children s1) =
  terrors (mappingStruct fields children s2).
Proof.
  intros Hst. by apply (mapping_merge_terrors_stable (mappingNode children)).
Qed.

(** Entries under other keys leave alone what the fields of other keys
    leave alone. *)
Lemma keyed_entry_frame {A} (get : S → A) (key : string) k v out :
  (∀ f, f ∈ fields → field_key f ≠ KeyNamed key →
        ∀ n s, get (value (field_decode f n s)) = get s) →
  key_name k ≠ Some key →
  get (value (keyed_entry fields k v out)) = get out.
Proof.
  intros Hframe Hk. unfold keyed_entry.
  destruct (key_name k) as [name|] eqn:Hname; [|done].
  destruct (lookup_field fields name) as [f|] eqn:Hf; [|done].
  apply lookup_field_Some in Hf as [Hin Hkey].
  apply Hframe; [done|]. rewrite Hkey. by intros [= ->].
Qed.

Lemma mappingStruct_frame {A} (get : S → A) (key : string) children out :
  (∀ f, f ∈ fields → field_key f ≠ KeyNamed key →
        ∀ n s, get (value (field_decode f n s)) = get s) →
  no_merge children →
  (∀ k v, (k, v) ∈ children → key_name k ≠ Some key) →
  get (value (mappingStruct fields children out)) = get out.
Proof.
  intros Hframe. revert out.
  induction children as [|[k v] l IH]; intros out Hnm Hkeys; [done|].
  apply no_merge_cons in Hnm as [Hk Hnm].
  assert (Hl : ∀ k' v', (k', v') ∈ l → key_name k' ≠ Some key).
  { intros k' v' Hin. apply (Hkeys k' v'). by apply list_elem_of_further. }
  rewrite mappingStruct_cons, value_and_then, entry_keyed by done.
  assert (He : get (value (keyed_entry fields k v out)) = get out).
  { apply (keyed_entry_frame get key); [done|].
    apply (Hkeys k v), list_elem_of_here. }
  destruct (gave_up _); [done|]. by rewrite IH.
Qed.

(** The value that the only entry under a key gives to its field is the
    one the struct ends with, when the decoder has not given up before the
    entry. *)
Lemma mappingStruct_only_entry {A} (get : S → A)
    (key : string) l1 k v l2 (out : S) (f : field S) (g : A) :
  lookup_field fields key = Some f →
  (∀ s, get (value (field_decode f v s)) = g) →
  (∀ f', f' ∈ fields → field_key f' ≠ KeyNamed key →
         ∀ n s, get (value (field_decode f' n s)) = get s) →
  key_name k = Some key → isMerge k = false →
  no_merge l2 →
  (∀ k' v', (k', v') ∈ l2 → key_name k' ≠ Some key) →
  gave_up (mappingStruct fields l1 out) = false →
  get (value (mappingStruct fields (l1 ++ (k, v) :: l2) out)) = g.
Proof.
  intros Hf Hset Hframe Hk Hm Hnm Hother Hl1.
  rewrite mappingStruct_app, value_and_then, Hl1.
  rewrite mappingStruct_cons, value_and_then, entry_keyed by done.
  unfold keyed_entry. rewrite Hk, Hf.
  destruct (gave_up (field_decode f v _)); [apply Hset|].
  rewrite (mappingStruct_frame get key); [apply Hset|done|done|done].
Qed.

(** A type error met in an entry is among the type errors of the struct,
    unless the decoder gives up. *)
Lemma mappingStruct_terror_in children out k v name f e :
  (k, v) ∈ children →
  key_name k = Some name → isMerge k = false →
  lookup_field fields name = Some f →
  (∀ s, e ∈ terrors (field_decode f v s) ∨ wantMap ∈ terrors (field_decode f v s)) →
  e ∈ terrors (mappingStruct fields children out) ∨
  wantMap ∈ terrors (mappingStruct fields children out).
Proof.
  intros Hin Hk Hm Hf He.
  apply list_elem_of_split in Hin as (l1 & l2 & ->).
  rewrite mappingStruct_app, terrors_and_then.
  destruct (gave_up (mappingStruct fields l1 out)) eqn:Hl1.
  { right. by apply gave_up_true. }
  rewrite mappingStruct_cons, terrors_and_then, entry_keyed by done.
  unfold keyed_entry. rewrite Hk, Hf.
  destruct (gave_up (field_decode f v _)) eqn:Hg.
  { right. apply elem_of_app. right. by apply gave_up_true. }
  left. apply elem_of_app. right. apply elem_of_app. left.
  destruct (He (value (mappingStruct fields l1 out))) as [H|H]; [done|].
  by apply gave_up_false in Hg.
Qed.
End MappingStruct.

Lemma decode_uint32_uint16 n z out :
  uint16_scalar n z → decode_uint32 n out = mkDecoded z true [].
Proof.
  intros [Hz [text ->]]. unfold decode_uint32.
  assert ((0 <=? z) && (z <? 2 ^ 32) = true) as ->; [|done].
  apply andb_true_iff. split; [apply Z.leb_le|apply Z.ltb_lt]; lia.
Qed.

Lemma only_entry_unique key v children k' v' :
  only_entry key v children →
  (k', v') ∈ children → key_name k' = Some key → v' = v.
Proof.
  intros (l1 & k & l2 & -> & Hk & Hother) Hin Hk'.
  apply elem_of_app in Hin as [Hin|Hin].
  - exfalso. apply (Hother k' v'); [|done]. apply elem_of_app. by left.
  - apply elem_of_cons in Hin as [[= -> ->]|Hin]; [done|].
    exfalso. apply (Hother k' v'); [|done]. apply elem_of_app. by right.
Qed.

(** *** InternalPorts *)

Lemma InternalPorts_lookup name :
  lookup_field InternalPorts_fields name =
    if bool_decide (name = "from") then Some field_From
    else if bool_decide (name = "to") then Some field_To
    else None.
Proof.
  unfold lookup_field, InternalPorts_fields. simpl.
  change (field_key (mkField "From" tag_From (into From set_From decode_uint32)))
    with (KeyNamed "from").
  change (field_key (mkField "To" (yaml_tag "to") (into To set_To decode_uint32)))
    with (KeyNamed "to").
  repeat case_bool_decide; try done; congruence.
Qed.

Lemma InternalPorts_frame_From f :
  f ∈ InternalPorts_fields → field_key f ≠ KeyNamed "from" →
  ∀ n s, From (value (field_decode f n s)) = From s.
Proof.
  unfold InternalPorts_fields. rewrite !elem_of_cons, elem_of_nil.
  intros [->|[->|[]]] Hk n s; [|done].
  exfalso. by apply Hk.
Qed.

Lemma InternalPorts_frame_To f :
  f ∈ InternalPorts_fields → field_key f ≠ KeyNamed "to" →
  ∀ n s, To (value (field_decode f n s)) = To s.
Proof.
  unfold InternalPorts_fields. rewrite !elem_of_cons, elem_of_nil.
  intros [->|[->|[]]] Hk n s; [done|].
  exfalso. by apply Hk.
Qed.

(** Entries under [from] and [to] that hold 16-bit integers raise no type
    error, whatever other scalar keys the mapping has, as long as none is a
    merge key. *)
Lemma InternalPorts_no_terror pr out :
  scalar_keys pr → no_merge pr →
  (∀ k v, (k, v) ∈ pr → key_name k = Some "from" → ∃ z, uint16_scalar v z) →
  (∀ k v, (k, v) ∈ pr → key_name k = Some "to" → ∃ z, uint16_scalar v z) →
  terrors (mappingStruct InternalPorts_fields pr out) = [].
Proof.
  revert out. induction pr as [|[k v] l IH]; intros out Hkeys Hnm Hfrom Hto; [done|].
  apply no_merge_cons in Hnm as [Hm Hnm].
  assert (Hrest : ∀ out', terrors (mappingStruct InternalPorts_fields l out') = []).
  { intros out'. apply IH; [|done| |].
    - intros k' v' Hin. apply (Hkeys k' v'). by apply list_elem_of_further.
    - intros k' v' Hin. apply Hfrom. by apply list_elem_of_further.
    - intros k' v' Hin. apply Hto. by apply list_elem_of_further. }
  rewrite mappingStruct_cons, entry_keyed by done.
  assert (He : terrors (keyed_entry InternalPorts_fields k v out) = []).
  { unfold keyed_entry.
    destruct (key_name k) as [name|] eqn:Hk; last first.
    { destruct (Hkeys k v (list_elem_of_here _ _)) as [name Hname]. congruence. }
    rewrite InternalPorts_lookup.
    case_bool_decide as H1; [|case_bool_decide as H2]; [| |done].
    - subst name. destruct (Hfrom k v (list_elem_of_here _ _) Hk) as [z Hz].
      unfold field_From, into. cbn [field_decode terrors].
      by rewrite (decode_uint32_uint16 _ _ _ Hz).
    - subst name. destruct (Hto k v (list_elem_of_here _ _) Hk) as [z Hz].
      unfold field_To, into. cbn [field_decode terrors].
      by rewrite (decode_uint32_uint16 _ _ _ Hz). }
  rewrite terrors_and_then, (gave_up_nil _ He), He. apply Hrest.
Qed.

(** The mapping under [port_range], decoded: [From] and [To] are the
    values under [from] and [to]. *)
Lemma decode_InternalPorts pr nfrom nto a b out :
  scalar_keys pr → no_merge pr →
  only_entry "from" nfrom pr → uint16_scalar nfrom a →
  only_entry "to" nto pr → uint16_scalar nto b →
  value (mappingStruct InternalPorts_fields pr out) = mkInternalPorts a b ∧
  terrors (mappingStruct InternalPorts_fields pr out) = [].
Proof.
  intros Hkeys Hnm Hef Ha Het Hb.
  assert (Hfrom : ∀ k v, (k, v) ∈ pr → key_name k = Some "from" → ∃ z, uint16_scalar v z).
  { intros k v Hin Hk. exists a. by rewrite (only_entry_unique _ _ _ _ _ Hef Hin Hk). }
  assert (Hto : ∀ k v, (k, v) ∈ pr → key_name k = Some "to" → ∃ z, uint16_scalar v z).
  { intros k v Hin Hk. exists b. by rewrite (only_entry_unique _ _ _ _ _ Het Hin Hk). }
  assert (Hpre : ∀ l1 l2, pr = l1 ++ l2 →
                  gave_up (mappingStruct InternalPorts_fields l1 out) = false).
  { intros l1 l2 ->. apply gave_up_nil.
    apply no_merge_app in Hnm as [Hnm _].
    apply InternalPorts_no_terror; [|done| |].
    - intros k v Hin. apply (Hkeys k v), elem_of_app. by left.
    - intros k v Hin. apply Hfrom, elem_of_app. by left.
    - intros k v Hin. apply Hto, elem_of_app. by left. }
  split; [|by apply InternalPorts_no_terror].
  assert (HF : From (value (mappingStruct InternalPorts_fields pr out)) = a).
  { destruct Hef as (l1 & k & l2 & Hpr & Hk & Hother).
    pose proof (Hpre l1 _ Hpr) as Hl1. subst pr.
    apply no_merge_app in Hnm as [_ [Hm Hnm]%no_merge_cons].
    apply (mappingStruct_only_entry InternalPorts_fields From "from" l1 k nfrom l2 out
             field_From a); [by rewrite InternalPorts_lookup| |
             apply InternalPorts_frame_From|done|done|done| |done].
    - intros s. simpl. unfold into. by rewrite (decode_uint32_uint16 _ _ _ Ha).
    - intros k' v' Hin. apply (Hother k' v'), elem_of_app. by right. }
  assert (HT : To (value (mappingStruct InternalPorts_fields pr out)) = b).
  { destruct Het as (l1 & k & l2 & Hpr & Hk & Hother).
    pose proof (Hpre l1 _ Hpr) as Hl1. subst pr.
    apply no_merge_app in Hnm as [_ [Hm Hnm]%no_merge_cons].
    apply (mappingStruct_only_entry InternalPorts_fields To "to" l1 k nto l2 out
             field_To b); [by rewrite InternalPorts_lookup| |
             apply InternalPorts_frame_To|done|done|done| |done].
    - intros s. simpl. unfold into. by rewrite (decode_uint32_uint16 _ _ _ Hb).
    - intros k' v' Hin. apply (Hother k' v'), elem_of_app. by right. }
  destruct (value _) as [x y]. simpl in *. by subst.
Qed.

(** *** The type errors of a decoder depend on the node only *)

Lemma decode_uint32_node_only : node_only decode_uint32.
Proof.
  intros [v [| |z|z| |]| |] a1 a2; simpl; try done;
    by destruct ((0 <=? z) && (z <? 2 ^ 32)).
Qed.

Lemma decode_int_node_only : node_only decode_int.
Proof.
  intros [v [| |z|z| |]| |] a1 a2; simpl; try done.
  - by destruct ((- 2 ^ 63 <=? z) && (z <? 2 ^ 63)).
  - by destruct (z <=? 2 ^ 63).
Qed.

Lemma decode_string_node_only : node_only decode_string.
Proof. intros [v [| | | | |]| |] a1 a2; done. Qed.

Lemma into_stable {S A} fname ftag (get : S → A) set d :
  node_only d → terrors_stable (mkField fname ftag (into get set d)).
Proof. intros Hd n s1 s2. simpl. apply Hd. Qed.

Lemma decode_struct_node_only {S} type (zero : S) (fields : list (field S)) :
  Forall terrors_stable fields → node_only (decode_struct type zero fields).
Proof.
  intros Hst [v [| | | | |]|children|l] a1 a2; simpl; try done.
  by apply (mappingStruct_terrors_stable fields children).
Qed.

Lemma decode_ptr_node_only {T} (zero : T) d :
  node_only d → node_only (decode_ptr zero d).
Proof.
  intros Hd [v [| | | | |]|children|l] a1 a2; simpl; try done; apply Hd.
Qed.

Lemma decode_slice_node_only {T} type (zero : T) d :
  node_only (decode_slice type zero d).
Proof.
  intros [v [| | | | |]|children|l] a1 a2; simpl; try done.
Qed.

Lemma InternalPorts_stable : Forall terrors_stable InternalPorts_fields.
Proof.
  repeat apply Forall_cons_2; try apply Forall_nil_2;
    apply into_stable, decode_uint32_node_only.
Qed.

Lemma AppConfig_stable : Forall terrors_stable AppConfig_fields.
Proof.
  repeat apply Forall_cons_2; try apply Forall_nil_2; apply into_stable;
    first [apply decode_string_node_only | apply decode_int_node_only
          | apply decode_uint32_node_only].
Qed.

Lemma RpcConfig_stable : Forall terrors_stable RpcConfig_fields.
Proof.
  repeat apply Forall_cons_2; try apply Forall_nil_2; apply into_stable;
    first [apply decode_string_node_only | apply decode_uint32_node_only].
Qed.

Lemma Config_stable : Forall terrors_stable Config_fields.
Proof.
  repeat apply Forall_cons_2; try apply Forall_nil_2; apply into_stable.
  - apply decode_ptr_node_only, decode_struct_node_only, InternalPorts_stable.
  - apply decode_slice_node_only.
  - apply decode_ptr_node_only, decode_struct_node_only, RpcConfig_stable.
Qed.

(** *** Config *)

Lemma Config_lookup_port_range :
  lookup_field Config_fields "port_range" = Some field_PortRange.
Proof. reflexivity. Qed.

Lemma Config_frame_PortRange f :
  f ∈ Config_fields → field_key f ≠ KeyNamed "port_range" →
  ∀ n s, PortRange (value (field_decode f n s)) = PortRange s.
Proof.
  unfold Config_fields. rewrite !elem_of_cons, elem_of_nil.
  intros [->|[->|[->|[]]]] Hk n s; [|done|done].
  exfalso. by apply Hk.
Qed.

(** The entry [port_range] decoded into the field [PortRange]. *)
Lemma decode_PortRange pr nfrom nto a b s :
  scalar_keys pr → no_merge pr →
  only_entry "from" nfrom pr → uint16_scalar nfrom a →
  only_entry "to" nto pr → uint16_scalar nto b →
  PortRange (value (field_decode field_PortRange (mappingNode pr) s))
    = Some (mkInternalPorts a b) ∧
  terrors (field_decode field_PortRange (mappingNode pr) s) = [].
Proof.
  intros Hkeys Hnm Hef Ha Het Hb.
  destruct (decode_InternalPorts pr nfrom nto a b
              (default zero_InternalPorts (PortRange s)) Hkeys Hnm Hef Ha Het Hb)
    as [Hv Ht].
  unfold field_PortRange, into, decode_ptr, decode_struct.
  cbn [field_decode value terrors PortRange set_PortRange].
  fold (mappingStruct InternalPorts_fields pr (default zero_InternalPorts (PortRange s))).
  by rewrite Hv, Ht.
Qed.

(** The document decoded into [&Config{}]. *)
Lemma decode_Config l1 k pr l2 nfrom nto a b :
  key_name k = Some "port_range" →
  (∀ k' v', (k', v') ∈ l1 ++ l2 → key_name k' ≠ Some "port_range") →
  no_merge (l1 ++ l2) →
  scalar_keys pr → no_merge pr →
  only_entry "from" nfrom pr → uint16_scalar nfrom a →
  only_entry "to" nto pr → uint16_scalar nto b →
  terrors (mappingStruct Config_fields (l1 ++ l2) zero_Config) = [] →
  let r := mappingStruct Config_fields (l1 ++ (k, mappingNode pr) :: l2) zero_Config in
  PortRange (value r) = Some (mkInternalPorts a b) ∧ terrors r = [].
Proof.
  intros Hk Hother Hnm Hkeys Hnmpr Hef Ha Het Hb Hrest r.
  assert (Hm : isMerge k = false) by by apply (key_name_not_merge k "port_range").
  apply no_merge_app in Hnm as [Hnm1 Hnm2].
  rewrite mappingStruct_app in Hrest.
  apply and_then_terrors_nil in Hrest as [Hl1 Hl2].
  split.
  - apply (mappingStruct_only_entry Config_fields PortRange "port_range"
             l1 k (mappingNode pr) l2 zero_Config field_PortRange);
      [apply Config_lookup_port_range| |apply Config_frame_PortRange
      |done|done|done| |by apply gave_up_nil].
    + intros s.
      by destruct (decode_PortRange pr nfrom nto a b s Hkeys Hnmpr Hef Ha Het Hb).
    + intros k' v' Hin. apply (Hother k' v'), elem_of_app. by right.
  - unfold r.
    rewrite mappingStruct_app, terrors_and_then, (gave_up_nil _ Hl1), Hl1.
    rewrite mappingStruct_cons, entry_keyed by done.
    unfold keyed_entry. rewrite Hk, Config_lookup_port_range.
    destruct (decode_PortRange pr nfrom nto a b
                (value (mappingStruct Config_fields l1 zero_Config))
                Hkeys Hnmpr Hef Ha Het Hb) as [_ Ht].
    rewrite terrors_and_then, (gave_up_nil _ Ht), Ht. simpl.
    rewrite <- Hl2. apply mappingStruct_terrors_stable, Config_stable.
Qed.

(** C10, as stated, fails: the file
    [{port_range: {from: 20000, to: 20010}, rpc: 5}] has a [port_range]
    mapping with keys [from] and [to] that hold 16-bit integers, and
    [ParseConfing] returns no [Config] for it, but the type error that the
    entry [rpc] raises. *)
Lemma ParseConfing_loses_port_range :
  ParseConfing sample_path_Join bad_rpc_ReadFile bad_rpc_yaml_parse "/etc/gracevisor"
  = (None, Some (YamlTypeError [mkTerror "!!int" "5" "main.RpcConfig"])).
Proof. reflexivity. Qed.

(** C10, amended. A configuration file that can be read and parsed, whose
    top-level mapping has one entry [port_range] and no merge key, where
    [port_range] is a mapping with scalar keys, no merge key, one entry
    [from] and one entry [to] that hold 16-bit integers, and whose other
    entries decode without error: [ParseConfing] returns a [Config] and no
    error, and its [PortRange] has the value under [from] as [From] and the
    value under [to] as [To].  (The tag of [From] is malformed; the decoder
    then keys the field by its lower-cased name.) *)
Theorem ParseConfing_port_range path_Join ReadFile yaml_parse
    configPath data l1 k pr l2 nfrom nto a b :
  ReadFile (path_Join configPath configFile) = inl data →
  yaml_parse data = inl (Some (mappingNode (l1 ++ (k, mappingNode pr) :: l2))) →
  key_name k = Some "port_range" →
  (∀ k' v', (k', v') ∈ l1 ++ l2 → key_name k' ≠ Some "port_range") →
  no_merge (l1 ++ l2) →
  scalar_keys pr → no_merge pr →
  only_entry "from" nfrom pr → uint16_scalar nfrom a →
  only_entry "to" nto pr → uint16_scalar nto b →
  terrors (mappingStruct Config_fields (l1 ++ l2) zero_Config) = [] →
  ∃ config,
    ParseConfing path_Join ReadFile yaml_parse configPath = (Some config, None) ∧
    ∃ ports, PortRange config = Some ports ∧ From ports = a ∧ To ports = b.
Proof.
  intros Hread Hparse Hk Hother Hnm Hkeys Hnmpr Hef Ha Het Hb Hrest.
  destruct (decode_Config l1 k pr l2 nfrom nto a b
              Hk Hother Hnm Hkeys Hnmpr Hef Ha Het Hb Hrest) as [Hport Hterr].
  unfold ParseConfing. rewrite Hread, Hparse.
  unfold Unmarshal. rewrite structs_accepted.
  cbn [negb decode_struct].
  fold (mappingStruct Config_fields (l1 ++ (k, mappingNode pr) :: l2) zero_Config).
  rewrite Hterr.
  eexists. split; [reflexivity|].
  exists (mkInternalPorts a b). done.
Qed.

Lemma ParseConfing_port_range_witness :
  ∃ config,
    ParseConfing sample_path_Join sample_ReadFile sample_yaml_parse "/etc/gracevisor"
      = (Some config, None) ∧
    ∃ ports, PortRange config = Some ports ∧ From ports = 20000 ∧ To ports = 20010.
Proof.
  apply (ParseConfing_port_range sample_path_Join sample_ReadFile sample_yaml_parse
           "/etc/gracevisor" sample_data
           [] (str_scalar "port_range") sample_port_range [(str_scalar "apps", sample_apps)]
           (int_scalar "20000" 20000) (int_scalar "20010" 20010) 20000 20010).
  - reflexivity.
  - reflexivity.
  - reflexivity.
  - intros k' v' Hin. apply list_elem_of_singleton in Hin.
    injection Hin as -> ->. discriminate.
  - intros k' v' Hin. apply list_elem_of_singleton in Hin.
    injection Hin as -> ->. reflexivity.
  - intros k' v' Hin. unfold sample_port_range in Hin.
    apply elem_of_cons in Hin as [Hin|Hin];
      [|apply list_elem_of_singleton in Hin];
      injection Hin as -> ->; by eexists.
  - intros k' v' Hin. unfold sample_port_range in Hin.
    apply elem_of_cons in Hin as [Hin|Hin];
      [|apply list_elem_of_singleton in Hin];
      injection Hin as -> ->; reflexivity.
  - exists [], (str_scalar "from"), [(str_scalar "to", int_scalar "20010" 20010)].
    split; [reflexivity|]. split; [reflexivity|].
    intros k' v' Hin. apply list_elem_of_singleton in Hin.
    injection Hin as -> ->. discriminate.
  - split; [lia|]. by exists "20000".
  - exists [(str_scalar "from", int_scalar "20000" 20000)], (str_scalar "to"), [].
    split; [reflexivity|]. split; [reflexivity|].
    intros k' v' Hin. apply list_elem_of_singleton in Hin.
    injection Hin as -> ->. discriminate.
  - split; [lia|]. by exists "20010".
  - reflexivity.
Defined.

(** ** What [ParseConfing] lets through, and what it does not *)

Lemma decode_uint32_unfit text r out :
  fits_uint32 r = false →
  terrors (decode_uint32 (scalarNode text r) out)
    = [mkTerror (tag_of r) (short_value text) "uint32"].
Proof.
  unfold fits_uint32, decode_uint32. destruct r as [|b|z|z| |]; try done;
    intros ->; done.
Qed.

Lemma Config_lookup_other name :
  name ∉ ["port_range"; "apps"; "rpc"] →
  lookup_field Config_fields name = None.
Proof.
  intros Hname. destruct (lookup_field Config_fields name) as [f|] eqn:Hf; [|done].
  exfalso. apply lookup_field_Some in Hf as [Hin Hk].
  unfold Config_fields in Hin. rewrite !elem_of_cons, elem_of_nil in Hin.
  destruct Hin as [->|[->|[->|[]]]]; vm_compute in Hk; injection Hk as <-;
    apply Hname; rewrite !elem_of_cons; tauto.
Qed.

(** X13. A scalar under [from] or [to] of [port_range] that does not go
    into a [uint32] (a negative integer, one above 2^32 - 1, a string, a
    boolean) makes [ParseConfing] return no configuration and an error,
    whatever the rest of the file holds: the error of a merge at which the
    decoder gave up, or else the type errors, one of which names the scalar
    (with its text cut to 7 bytes and three dots when it is longer than 10
    bytes). *)
Theorem ParseConfing_type_error path_Join ReadFile yaml_parse
    configPath data children k pr kf name text r :
  ReadFile (path_Join configPath configFile) = inl data →
  yaml_parse data = inl (Some (mappingNode children)) →
  (k, mappingNode pr) ∈ children →
  key_name k = Some "port_range" →
  (kf, scalarNode text r) ∈ pr →
  key_name kf = Some name →
  name ∈ ["from"; "to"] →
  fits_uint32 r = false →
  ∃ err,
    ParseConfing path_Join ReadFile yaml_parse configPath = (None, Some err) ∧
    (err = YamlMergeError ∨
     ∃ es, err = YamlTypeError es ∧
           mkTerror (tag_of r) (short_value text) "uint32" ∈ es).
Proof.
  intros Hread Hparse Hin Hk Hinf Hkf Hname Hr.
  set (e := mkTerror (tag_of r) (short_value text) "uint32").
  assert (Hm : isMerge k = false) by by apply (key_name_not_merge k "port_range").
  assert (Hmf : isMerge kf = false).
  { apply (key_name_not_merge kf name); [done|].
    rewrite !elem_of_cons, elem_of_nil in Hname. by destruct Hname as [->|[->|[]]]. }
  assert (Hpr : ∀ s, e ∈ terrors (mappingStruct InternalPorts_fields pr s) ∨
                     wantMap ∈ terrors (mappingStruct InternalPorts_fields pr s)).
  { intros s. rewrite !elem_of_cons, elem_of_nil in Hname.
    destruct Hname as [->|[->|[]]].
    - apply (mappingStruct_terror_in InternalPorts_fields pr s
               kf (scalarNode text r) "from" field_From);
        [done|done|done|by rewrite InternalPorts_lookup|].
      intros s'. left. unfold field_From, into. cbn [field_decode terrors].
      rewrite (decode_uint32_unfit _ _ _ Hr). apply list_elem_of_here.
    - apply (mappingStruct_terror_in InternalPorts_fields pr s
               kf (scalarNode text r) "to" field_To);
        [done|done|done|by rewrite InternalPorts_lookup|].
      intros s'. left. unfold field_To, into. cbn [field_decode terrors].
      rewrite (decode_uint32_unfit _ _ _ Hr). apply list_elem_of_here. }
  assert (He : e ∈ terrors (mappingStruct Config_fields children zero_Config) ∨
               wantMap ∈ terrors (mappingStruct Config_fields children zero_Config)).
  { apply (mappingStruct_terror_in Config_fields children zero_Config
             k (mappingNode pr) "port_range" field_PortRange);
      [done|done|done|apply Config_lookup_port_range|].
    intros s. apply Hpr. }
  unfold ParseConfing. rewrite Hread, Hparse.
  unfold Unmarshal. rewrite structs_accepted.
  cbn [negb decode_struct].
  fold (mappingStruct Config_fields children zero_Config).
  destruct (terrors (mappingStruct Config_fields children zero_Config))
    as [|e' es] eqn:Hes.
  - exfalso. destruct He as [He|He]; by apply elem_of_nil in He.
  - case_bool_decide as Hw.
    + exists YamlMergeError. split; [done|by left].
    + exists (YamlTypeError (e' :: es)). split; [done|]. right.
      exists (e' :: es). split; [done|]. by destruct He.
Qed.

Lemma ParseConfing_type_error_witness :
  ∃ err,
    ParseConfing sample_path_Join sample_ReadFile
                 (λ _, inl (Some sample_doc_bad_port)) "/etc/gracevisor"
      = (None, Some err) ∧
    (err = YamlMergeError ∨
     ∃ es, err = YamlTypeError es ∧
           mkTerror (tag_of (RInt (-1))) (short_value "-1") "uint32" ∈ es).
Proof.
  apply (ParseConfing_type_error sample_path_Join sample_ReadFile
           (λ _, inl (Some sample_doc_bad_port)) "/etc/gracevisor" sample_data
           [(str_scalar "port_range",
             mappingNode [(str_scalar "from", int_scalar "20000" 20000);
                          (str_scalar "to", int_scalar "-1" (-1))]);
            (str_scalar "apps", sample_apps)]
           (str_scalar "port_range")
           [(str_scalar "from", int_scalar "20000" 20000);
            (str_scalar "to", int_scalar "-1" (-1))]
           (str_scalar "to") "to" "-1" (RInt (-1))).
  - reflexivity.
  - reflexivity.
  - apply list_elem_of_here.
  - reflexivity.
  - apply list_elem_of_further, list_elem_of_here.
  - reflexivity.
  - apply list_elem_of_further, list_elem_of_here.
  - reflexivity.
Defined.

(** X14. Nothing is required of a configuration file: when its top-level
    mapping has no entry [port_range] and no merge key, and its entries
    decode without error, [ParseConfing] returns a configuration and no
    error, and the [PortRange] of that configuration is nil. *)
Theorem ParseConfing_without_port_range path_Join ReadFile yaml_parse
    configPath data children :
  ReadFile (path_Join configPath configFile) = inl data →
  yaml_parse data = inl (Some (mappingNode children)) →
  no_entry "port_range" children →
  no_merge children →
  terrors (mappingStruct Config_fields children zero_Config) = [] →
  ∃ config,
    ParseConfing path_Join ReadFile yaml_parse configPath = (Some config, None) ∧
    PortRange config = None.
Proof.
  intros Hread Hparse Hno Hnm Hterr.
  unfold ParseConfing. rewrite Hread, Hparse.
  unfold Unmarshal. rewrite structs_accepted.
  cbn [negb decode_struct].
  fold (mappingStruct Config_fields children zero_Config).
  rewrite Hterr.
  eexists. split; [reflexivity|].
  rewrite (mappingStruct_frame Config_fields PortRange "port_range");
    [done|apply Config_frame_PortRange|done|done].
Qed.

Lemma ParseConfing_without_port_range_witness :
  ∃ config,
    ParseConfing sample_path_Join sample_ReadFile
                 (λ _, inl (Some (mappingNode sample_doc_no_port_range)))
                 "/etc/gracevisor" = (Some config, None) ∧
    PortRange config = None.
Proof.
  apply (ParseConfing_without_port_range sample_path_Join sample_ReadFile
           (λ _, inl (Some (mappingNode sample_doc_no_port_range)))
           "/etc/gracevisor" sample_data sample_doc_no_port_range).
  - reflexivity.
  - reflexivity.
  - intros k v Hin. apply list_elem_of_singleton in Hin.
    injection Hin as -> ->. discriminate.
  - intros k v Hin. apply list_elem_of_singleton in Hin.
    injection Hin as -> ->. reflexivity.
  - reflexivity.
Defined.

(** X15. An entry of the top-level mapping whose key is no merge key and
    none of [port_range], [apps] and [rpc] is passed over: [ParseConfing]
    returns what it returns for the document without the entry,
    configuration and error alike.  A misspelt key is not reported. *)
Theorem ParseConfing_ignores_unknown_key path_Join ReadFile yaml_parse yaml_parse'
    configPath data l1 k v l2 name :
  ReadFile (path_Join configPath configFile) = inl data →
  yaml_parse data = inl (Some (mappingNode (l1 ++ (k, v) :: l2))) →
  yaml_parse' data = inl (Some (mappingNode (l1 ++ l2))) →
  isMerge k = false →
  key_name k = Some name →
  name ∉ ["port_range"; "apps"; "rpc"] →
  ParseConfing path_Join ReadFile yaml_parse configPath =
  ParseConfing path_Join ReadFile yaml_parse' configPath.
Proof.
  intros Hread Hparse Hparse' Hm Hk Hname.
  unfold ParseConfing. rewrite Hread, Hparse, Hparse'.
  unfold Unmarshal. rewrite structs_accepted.
  cbn [negb decode_struct].
  fold (mappingStruct Config_fields (l1 ++ (k, v) :: l2) zero_Config).
  fold (mappingStruct Config_fields (l1 ++ l2) zero_Config).
  assert (mappingStruct Config_fields (l1 ++ (k, v) :: l2) zero_Config =
          mappingStruct Config_fields (l1 ++ l2) zero_Config) as ->; [|done].
  rewrite !mappingStruct_app. apply and_then_ext. intros s.
  rewrite mappingStruct_cons, entry_keyed by done.
  unfold keyed_entry. rewrite Hk, (Config_lookup_other _ Hname).
  apply and_then_ret.
Qed.

Lemma ParseConfing_ignores_unknown_key_witness :
  ParseConfing sample_path_Join sample_ReadFile
               (λ _, inl (Some (mappingNode sample_doc_unknown_key)))
               "/etc/gracevisor" =
  ParseConfing sample_path_Join sample_ReadFile sample_yaml_parse "/etc/gracevisor".
Proof.
  apply (ParseConfing_ignores_unknown_key sample_path_Join sample_ReadFile
           (λ _, inl (Some (mappingNode sample_doc_unknown_key))) sample_yaml_parse
           "/etc/gracevisor" sample_data
           [(str_scalar "port_range", mappingNode sample_port_range)]
           (str_scalar "colour") (str_scalar "blue")
           [(str_scalar "apps", sample_apps)] "colour").
  - reflexivity.
  - reflexivity.
  - reflexivity.
  - reflexivity.
  - reflexivity.
  - rewrite !elem_of_cons, elem_of_nil. intros [H|[H|[H|[]]]]; discriminate.
Defined.

End ConfigGoFacts.

(** * Facts on the interleaved runs *)

Module InterleavingFacts.
Import Interleaving.

Lemma Inv_init a : Inv (init a).
Proof. split; simpl; try done. Qed.

(** *** What a goroutine knows survives the moves of the others *)

Lemma thread_ok_None a th : thread_ok a th → thread_ok None th.
Proof.
  unfold thread_ok. destruct (pc th) as [| | |tg| |[i|] e| |[i|] e| |]; try done.
  - intros [Hc _]. by split.
  - intros (p & Hc & _). exists p. by split.
Qed.

Lemma thread_ok_not_holding a a' th :
  holding th = false → thread_ok a th → thread_ok a' th.
Proof.
  unfold thread_ok, holding.
  destruct (pc th) as [| | |tg| |[i|] e| |[i|] e| |]; done.
Qed.

(** A move of the request goroutine [t], from [th] to [th'], that follows
    the discipline of the mutex: it takes it only when free, keeps it or
    gives it back. *)
Lemma Inv_req_step s t th th' b f :
  Inv s →
  threads s !! t = Some th →
  (holding th = false → holding th' = true → b = true) →
  (holding th = false → holding th' = true → locked s = false) →
  (holding th = holding th' → b = locked s) →
  (holding th = true → holding th' = false → b = false) →
  thread_ok (active s) th' →
  Inv (mkState (active s) b f (status s) (<[t := th']> (threads s)) (updater s)).
Proof.
  intros [M1 M2 M3 T] Ht Hb' Hacq Hkeep Hrel Hok.
  assert (Hlt : (t < length (threads s))%nat) by (by eapply lookup_lt_Some).
  assert (Hb : holding th' = true → b = true).
  { intros Hh'. destruct (holding th) eqn:Hth; [|by apply Hb'].
    rewrite Hkeep by congruence. by apply (M1 t th). }
  split; simpl.
  - intros t' th'' Hl Hh. destruct (decide (t' = t)) as [->|Hne].
    + rewrite list_lookup_insert_eq in Hl by done. injection Hl as <-.
      split; [by apply Hb|].
      destruct (holding th) eqn:Hth; [by apply (M1 t th)|].
      destruct (upd_holding (updater s)) eqn:Hu; [|done].
      rewrite (M3 eq_refl) in Hacq. by discriminate Hacq.
    + rewrite list_lookup_insert_ne in Hl by done.
      destruct (M1 t' th'' Hl Hh) as [Hlk Hu]. split; [|done].
      destruct (holding th) eqn:Hth, (holding th') eqn:Hth'.
      * by rewrite Hkeep.
      * exfalso. apply Hne. by apply (M2 t' t th'' th).
      * rewrite Hacq in Hlk by done. discriminate.
      * by rewrite Hkeep.
  - intros t1 t2 th1 th2 H1 H2 Hh1 Hh2.
    destruct (decide (t1 = t)) as [->|Hne1], (decide (t2 = t)) as [->|Hne2];
      try done.
    + rewrite list_lookup_insert_eq in H1 by done. injection H1 as <-.
      rewrite list_lookup_insert_ne in H2 by done.
      destruct (holding th) eqn:Hth; [by apply (M2 t t2 th th2)|].
      destruct (M1 t2 th2 H2 Hh2) as [Hlk _].
      rewrite Hacq in Hlk by done. discriminate.
    + rewrite list_lookup_insert_eq in H2 by done. injection H2 as <-.
      rewrite list_lookup_insert_ne in H1 by done.
      destruct (holding th) eqn:Hth; [by apply (M2 t1 t th1 th)|].
      destruct (M1 t1 th1 H1 Hh1) as [Hlk _].
      rewrite Hacq in Hlk by done. discriminate.
    + rewrite list_lookup_insert_ne in H1, H2 by done.
      by apply (M2 t1 t2 th1 th2).
  - intros Hu. specialize (M3 Hu).
    destruct (holding th) eqn:Hth, (holding th') eqn:Hth'.
    + by rewrite Hkeep.
    + destruct (M1 t th Ht Hth) as [_ Hu']. congruence.
    + rewrite Hacq in M3 by done. discriminate.
    + by rewrite Hkeep.
  - intros t' th'' Hl. destruct (decide (t' = t)) as [->|Hne].
    + rewrite list_lookup_insert_eq in Hl by done. by injection Hl as <-.
    + rewrite list_lookup_insert_ne in Hl by done. by apply (T t').
Qed.

(** A move of the updater, under the same discipline; it writes an instance
    to the slot only while it holds the mutex. *)
Lemma Inv_upd_step s u' a' b st' :
  Inv s →
  (upd_holding (updater s) = false → upd_holding u' = true → b = true) →
  (upd_holding (updater s) = false → upd_holding u' = true → locked s = false) →
  (upd_holding (updater s) = upd_holding u' → b = locked s) →
  (upd_holding (updater s) = true → upd_holding u' = false → b = false) →
  (a' = active s ∨ a' = None ∨ upd_holding (updater s) = true) →
  Inv (mkState a' b (inFlight s) st' (threads s) u').
Proof.
  intros [M1 M2 M3 T] Hb' Hacq Hkeep Hrel Ha.
  assert (Hb : upd_holding u' = true → b = true).
  { intros Hh'. destruct (upd_holding (updater s)) eqn:Hu; [|by apply Hb'].
    rewrite Hkeep by congruence. by apply M3. }
  split; simpl; try done.
  - intros t th Hl Hh. destruct (M1 t th Hl Hh) as [Hlk Hu].
    destruct (upd_holding u') eqn:Hu'.
    + rewrite Hacq in Hlk by done. discriminate.
    + split; [|done]. rewrite Hkeep by congruence. done.
  - intros t th Hl. specialize (T t th Hl).
    destruct Ha as [->|[->|Hu]]; [done|by eapply thread_ok_None|].
    apply (thread_ok_not_holding (active s)); [|done].
    destruct (holding th) eqn:Hh; [|done].
    destruct (M1 t th Hl Hh) as [_ Hu']. congruence.
Qed.

Lemma Inv_arrive s :
  Inv s →
  Inv (mkState (active s) (locked s) (inFlight s) (status s)
               (threads s ++ [mkThread RStart None None]) (updater s)).
Proof.
  intros [M1 M2 M3 T].
  assert (Hnew : ∀ t th, (threads s ++ [mkThread RStart None None]) !! t = Some th →
                         threads s !! t = Some th ∨ th = mkThread RStart None None).
  { intros t th Hl. apply lookup_app_Some in Hl as [Hl|[_ Hl]]; [by left|right].
    apply list_lookup_singleton_Some in Hl as [_ <-]. done. }
  split; simpl; try done.
  - intros t th Hl Hh. destruct (Hnew t th Hl) as [Hold| ->]; [by eapply M1|done].
  - intros t1 t2 th1 th2 H1 H2 Hh1 Hh2.
    destruct (Hnew t1 th1 H1) as [Hold1| ->]; [|done].
    destruct (Hnew t2 th2 H2) as [Hold2| ->]; [|done].
    by eapply M2.
  - intros t th Hl. destruct (Hnew t th Hl) as [Hold| ->]; [by eapply T|done].
Qed.

(** *** Every step keeps the invariant *)

Lemma Inv_step_req t th s s' :
  Inv s → threads s !! t = Some th → step_req t th s = Some s' → Inv s'.
Proof.
  intros HI Ht Hstep. pose proof (inv_thread s HI t th Ht) as Hok.
  unfold step_req in Hstep. unfold thread_ok in Hok.
  destruct th as [c cnt sn]. simpl in *.
  destruct c as [| | |[p|]| |res err| |[p|] err| |].
  - (* Lock() *)
    destruct (locked s) eqn:Hlk; [done|]. injection Hstep as <-.
    apply (Inv_req_step s t _ _ _ _ HI Ht); simpl; done.
  - (* a.activeInstance == nil *)
    destruct (active s) as [q|]; injection Hstep as <-;
      apply (Inv_req_step s t _ _ _ _ HI Ht); simpl; done.
  - (* the receiver of Serve() *)
    injection Hstep as <-.
    apply (Inv_req_step s t _ _ _ _ HI Ht); simpl; done.
  - (* Serve() *)
    injection Hstep as <-. destruct Hok as [Hc Hact].
    apply (Inv_req_step s t _ _ _ _ HI Ht); simpl; try done.
    exists p. split.
    + unfold counted_at_most. simpl. case_bool_decide; auto.
    + intros q Hq. specialize (Hact q Hq). injection Hact as ->. by rewrite Hq.
  - (* Serve() on nil *)
    injection Hstep as <-.
    apply (Inv_req_step s t _ _ _ _ HI Ht); simpl; done.
  - (* return a.activeInstance, nil *)
    injection Hstep as <-. destruct Hok as (p & Hc & Hact).
    apply (Inv_req_step s t _ _ _ _ HI Ht); simpl; try done.
    unfold thread_ok. simpl. destruct (active s) as [q|]; [|done].
    destruct (Hact q eq_refl) as [-> Hs]. done.
  - (* the deferred Unlock() *)
    injection Hstep as <-.
    apply (Inv_req_step s t _ _ _ _ HI Ht); simpl; done.
  - (* the deferred Unlock(), panicking *)
    injection Hstep as <-.
    apply (Inv_req_step s t _ _ _ _ HI Ht); simpl; done.
  - (* Done() *)
    injection Hstep as <-.
    apply (Inv_req_step s t _ _ _ _ HI Ht); simpl; done.
  - (* no instance to call Done() on *)
    injection Hstep as <-.
    apply (Inv_req_step s t _ _ _ _ HI Ht); simpl; done.
  - done.
  - done.
Qed.

Lemma Inv_step_upd i st s s' :
  Inv s → step_upd i st s = Some s' → Inv s'.
Proof.
  intros HI Hstep. unfold step_upd in Hstep.
  destruct (updater s) as [|i' st'|i'|i'|i' cur|cur|[c|]] eqn:Hu.
  - injection Hstep as <-.
    apply (Inv_upd_step s _ _ _ _ HI); rewrite ?Hu; simpl; auto; done.
  - repeat case_bool_decide; injection Hstep as <-;
      apply (Inv_upd_step s _ _ _ _ HI); rewrite ?Hu; simpl; auto; done.
  - destruct (locked s) eqn:Hlk; [done|]. injection Hstep as <-.
    apply (Inv_upd_step s _ _ _ _ HI); rewrite ?Hu; simpl; auto; done.
  - injection Hstep as <-.
    apply (Inv_upd_step s _ _ _ _ HI); rewrite ?Hu; simpl; auto; done.
  - injection Hstep as <-.
    apply (Inv_upd_step s _ _ _ _ HI); rewrite ?Hu; simpl; auto; done.
  - injection Hstep as <-.
    apply (Inv_upd_step s _ _ _ _ HI); rewrite ?Hu; simpl; auto; done.
  - injection Hstep as <-.
    apply (Inv_upd_step s _ _ _ _ HI); rewrite ?Hu; simpl; auto; done.
  - injection Hstep as <-.
    apply (Inv_upd_step s _ _ _ _ HI); rewrite ?Hu; simpl; auto; done.
Qed.

Lemma Inv_step a s s' : Inv s → step a s = Some s' → Inv s'.
Proof.
  intros HI Hstep. destruct a as [|t|i st]; simpl in Hstep.
  - injection Hstep as <-. by apply Inv_arrive.
  - destruct (threads s !! t) as [th|] eqn:Ht; [|done].
    by eapply Inv_step_req.
  - by eapply Inv_step_upd.
Qed.

Lemma Inv_run sched s s' : Inv s → run sched s = Some s' → Inv s'.
Proof.
  revert s. induction sched as [|a sched IH]; intros s HI Hrun; simpl in Hrun.
  - by injection Hrun as <-.
  - destruct (step a s) as [s1|] eqn:Hstep; [|done].
    apply (IH s1); [by eapply Inv_step|done].
Qed.

Lemma run_app l1 l2 s :
  run (l1 ++ l2) s = run l1 s ≫= run l2.
Proof.
  revert s. induction l1 as [|a l1 IH]; intros s; simpl; [done|].
  destruct (step a s); simpl; [apply IH|done].
Qed.

(** ** Admission *)

(** The mutex excludes: in every run, interleaved in any way, two
    request goroutines are never both between the [Lock()] and the
    [Unlock()] of [reserveInstance], and while one is there the updater is
    not between the [Lock()] and the [Unlock()] of its swap. *)
Lemma mutual_exclusion sched a0 s t1 t2 th1 th2 :
  run sched (init a0) = Some s →
  threads s !! t1 = Some th1 → threads s !! t2 = Some th2 →
  holding th1 = true → holding th2 = true →
  t1 = t2 ∧ upd_holding (updater s) = false.
Proof.
  intros Hrun H1 H2 Hh1 Hh2.
  pose proof (Inv_run _ _ _ (Inv_init a0) Hrun) as HI.
  split; [by eapply (inv_one s HI)|]. by eapply (inv_locked s HI).
Qed.

Lemma mutual_exclusion_witness :
  let s := default (init None)
             (run [Arrive; Arrive; StepReq 1; StepReq 1] (init (Some 0%nat))) in
  1%nat = 1%nat ∧ upd_holding (updater s) = false.
Proof.
  apply (mutual_exclusion [Arrive; Arrive; StepReq 1; StepReq 1] (Some 0%nat) _
           1%nat 1%nat (mkThread RChecked None None) (mkThread RChecked None None));
    vm_compute; reflexivity.
Defined.

(** What the mutex does give: in every run, a request to which
    [reserveInstance] has returned [i] had its [Serve()] run on [i] at a
    step at which the slot held [i], and is counted on no other instance.
    Whether it is counted on [i] is what [Serve()] made of the status of
    [i]. *)
Lemma reserved_saw_instance sched a0 s t i :
  run sched (init a0) = Some s →
  reserved s t i →
  ∃ th,
    threads s !! t = Some th ∧
    seen th = Some (Some i) ∧
    (counted th = None ∨ counted th = Some i).
Proof.
  intros Hrun (th & err & Ht & Hpc).
  pose proof (Inv_run _ _ _ (Inv_init a0) Hrun) as HI.
  pose proof (inv_thread s HI t th Ht) as Hok.
  unfold thread_ok in Hok. rewrite Hpc in Hok. destruct Hok as [Hc Hs].
  by exists th.
Qed.

Lemma reserved_saw_instance_witness :
  ∃ s,
    run schedule_promotion_mid_request (init (Some 0%nat)) = Some s ∧
    active s = Some 1%nat ∧
    ∃ th,
      threads s !! 0%nat = Some th ∧
      seen th = Some (Some 0%nat) ∧
      (counted th = None ∨ counted th = Some 0%nat).
Proof.
  eexists. split; [vm_compute; reflexivity|]. split; [reflexivity|].
  apply (reserved_saw_instance schedule_promotion_mid_request (Some 0%nat) _
           0%nat 0%nat).
  - vm_compute. reflexivity.
  - eexists _, _. split; reflexivity.
Defined.

(** C1 fails in the code.  Instance 0 is promoted; its child exits, and the
    [UpdateStatus()] of the updater's next round returns Exited.  Before the
    updater writes nil to the slot, a request goes through
    [reserveInstance]: it finds the slot at instance 0 and calls [Serve()]
    on it, which refuses, the instance being no longer in Serving: nothing
    is counted.  [reserveInstance] drops what [Serve()] returns and hands
    instance 0 to [ServeHTTP] with no error.  So the request is let in
    against instance 0 (the slot held 0 at its [Serve()]) and is counted on
    no instance, the count of instance 0 being 0; and the [Done()] of its
    deferred closure takes the count to -1. *)
Theorem admission_uncounted :
  ∃ s s',
    run schedule_exit_before_reservation (init None) = Some s ∧
    status s 0%nat = InstanceStatusExited ∧
    active s = Some 0%nat ∧
    threads s = [mkThread (RHandler (Some 0%nat) None) None (Some (Some 0%nat))] ∧
    reserved s 0%nat 0%nat ∧
    inFlight s 0%nat = 0 ∧
    step (StepReq 0) s = Some s' ∧
    (pc <$> threads s') = [RFinished] ∧
    inFlight s' 0%nat = -1.
Proof.
  eexists _, _. split; [vm_compute; reflexivity|].
  split; [reflexivity|]. split; [reflexivity|]. split; [reflexivity|].
  split; [by eexists _, _|]. split; [reflexivity|].
  split; [vm_compute; reflexivity|]. split; reflexivity.
Qed.

(** Once let in against [i], a request stays so, whatever the other
    requests and the updater do (promotion, [Stop()], the write of nil),
    until its own next step, which is its [Done()] on [i] and takes one off
    the count of [i]. *)
Lemma reserved_until_Done s a s' t i :
  reserved s t i → step a s = Some s' →
  reserved s' t i ∨ (a = StepReq t ∧ inFlight s' i = inFlight s i - 1).
Proof.
  intros (th & err & Ht & Hpc) Hstep. destruct a as [|t'|p st]; simpl in Hstep.
  - injection Hstep as <-. left. exists th, err. split; [|done]. simpl.
    by apply lookup_app_l_Some.
  - destruct (decide (t' = t)) as [->|Hne].
    + right. split; [done|]. rewrite Ht in Hstep.
      unfold step_req in Hstep. rewrite Hpc in Hstep. injection Hstep as <-.
      simpl. unfold Done_inFlight, bump.
      rewrite bool_decide_eq_true_2 by done. lia.
    + left. exists th, err. split; [|done].
      destruct (threads s !! t') as [th'|] eqn:Ht'; [|done].
      unfold step_req in Hstep.
      destruct (pc th') as [| | |[q|]| |res e| |[q|] e| |];
        repeat (match type of Hstep with
                | context [if locked s then _ else _] => destruct (locked s)
                | context [match active s with _ => _ end] => destruct (active s)
                end);
        try discriminate; injection Hstep as <-; simpl;
        by rewrite list_lookup_insert_ne.
  - left. exists th, err. split; [|done].
    unfold step_upd in Hstep.
    destruct (updater s) as [| | | | | |[c|]]; repeat case_bool_decide;
      repeat (match type of Hstep with
              | context [if locked s then _ else _] => destruct (locked s)
              end);
      try discriminate; by injection Hstep as <-.
Qed.

Lemma reserved_until_Done_witness :
  let s := default (init None)
             (run [Arrive; StepReq 0; StepReq 0; StepReq 0; StepReq 0;
                   StepReq 0; StepReq 0; StepUpd 1 InstanceStatusExited]
                  (init (Some 0%nat))) in
  let a := StepUpd 1%nat InstanceStatusExited in
  let s' := default (init None) (step a s) in
  reserved s' 0%nat 0%nat ∨
  (a = StepReq 0 ∧ inFlight s' 0%nat = inFlight s 0%nat - 1).
Proof.
  apply (reserved_until_Done _ (StepUpd 1%nat InstanceStatusExited)).
  - exists (mkThread (RHandler (Some 0%nat) None) (Some 0%nat) (Some (Some 0%nat))), None.
    split; vm_compute; reflexivity.
  - vm_compute. reflexivity.
Defined.

(** The [Done()] of the deferred closure takes one off the count, whether
    or not the [Serve()] of the request had added one. *)
Lemma completion_uncounts s t th i err s' :
  threads s !! t = Some th → pc th = RHandler (Some i) err →
  step (StepReq t) s = Some s' →
  inFlight s' i = inFlight s i - 1 ∧
  ∃ th', threads s' !! t = Some th' ∧ pc th' = RFinished ∧ counted th' = None.
Proof.
  intros Ht Hpc Hstep. simpl in Hstep. rewrite Ht in Hstep.
  unfold step_req in Hstep. rewrite Hpc in Hstep. injection Hstep as <-.
  simpl. split.
  - unfold Done_inFlight, bump. rewrite bool_decide_eq_true_2 by done. lia.
  - exists (mkThread RFinished None (seen th)). split; [|done].
    apply list_lookup_insert_eq. by eapply lookup_lt_Some.
Qed.

Lemma unlocked_clear_during_reservation :
  ∃ s,
    run schedule_clear_during_reservation (init (Some 0%nat)) = Some s ∧
    (pc <$> threads s) = [RFinished] ∧
    inFlight s 0%nat = 1.
Proof. eexists. split; [vm_compute; reflexivity|]. split; reflexivity. Qed.

(** ** The counts *)

(** X17. The write of nil by the updater's branch for Exited, made without
    the mutex, can fall between the [Serve()] of a request and the read of
    its result.  From any state of a run in which a request is there,
    counted on [p] by its [Serve()], and the updater has got Exited from
    [UpdateStatus()], four more steps end the request: the updater writes
    nil, [reserveInstance] returns nil with no error, the handler has no
    instance to call [Done()] on, and the request, over, is still counted
    on [p]: what its [Serve()] added to the count of [p] is never taken
    off. *)
Theorem exited_write_leaks_count sched a0 s t th p i x st :
  run sched (init a0) = Some s →
  threads s !! t = Some th →
  pc th = RServed →
  counted th = Some p →
  updater s = UStatus i InstanceStatusExited →
  ∃ s',
    run (sched ++ [StepUpd x st; StepReq t; StepReq t; StepReq t]) (init a0)
      = Some s' ∧
    threads s' !! t = Some (mkThread RFinished (Some p) (seen th)) ∧
    step (StepReq t) s' = None ∧
    active s' = None ∧
    inFlight s' = inFlight s.
Proof.
  intros Hrun Ht Hpc Hc Hupd.
  assert (Hlt : (t < length (threads s))%nat) by by eapply lookup_lt_Some.
  eexists. rewrite run_app, Hrun. simpl.
  unfold step_upd. rewrite Hupd. simpl.
  rewrite Ht. unfold step_req at 1. rewrite Hpc. simpl.
  rewrite list_lookup_insert_eq by done. simpl.
  rewrite list_lookup_insert_eq by (by rewrite length_insert). simpl.
  split; [reflexivity|]. simpl.
  rewrite list_lookup_insert_eq by (by rewrite !length_insert).
  unfold at_pc. simpl. rewrite Hc. done.
Qed.

Lemma exited_write_leaks_count_witness :
  let sched := schedule_exit_seen_during_reservation in
  let s := default (init None) (run sched (init (Some 0%nat))) in
  inFlight s 0%nat = 1 ∧
  ∃ s',
    run (sched ++ [StepUpd 0%nat InstanceStatusExited;
                   StepReq 0; StepReq 0; StepReq 0]) (init (Some 0%nat))
      = Some s' ∧
    threads s' !! 0%nat
      = Some (mkThread RFinished (Some 0%nat) (Some (Some 0%nat))) ∧
    step (StepReq 0) s' = None ∧
    active s' = None ∧
    inFlight s' = inFlight s.
Proof.
  split; [reflexivity|].
  apply (exited_write_leaks_count schedule_exit_seen_during_reservation
           (Some 0%nat) _ 0%nat
           (mkThread RServed (Some 0%nat) (Some (Some 0%nat)))
           0%nat 0%nat 0%nat InstanceStatusExited);
    vm_compute; reflexivity.
Defined.

(** ** Requests that are refused *)

Lemma step_upd_threads i st s s' :
  step_upd i st s = Some s' → threads s' = threads s.
Proof.
  unfold step_upd. intros H.
  destruct (updater s) as [| | | | | |[c|]]; repeat case_bool_decide;
    repeat (match type of H with
            | context [if locked s then _ else _] => destruct (locked s)
            end);
    try discriminate; by injection H as <-.
Qed.

Lemma step_req_uncounted t th s s' :
  uncounted_ok th → step_req t th s = Some s' →
  ∃ th', threads s' = <[t := th']> (threads s) ∧ uncounted_ok th'.
Proof.
  unfold uncounted_ok, step_req. intros Hok H.
  destruct (pc th) as [| | |[q|]| |res [e|]| |[q|] [e|]| |] eqn:Hpc;
    repeat (match type of H with
            | context [if locked s then _ else _] => destruct (locked s)
            | context [match active s with _ => _ end] => destruct (active s)
            end);
    try discriminate; injection H as <-;
    eexists; (split; [reflexivity|]); simpl; done.
Qed.

Lemma uncounted_step a s s' :
  Forall uncounted_ok (threads s) → step a s = Some s' →
  Forall uncounted_ok (threads s').
Proof.
  intros Hall Hstep. destruct a as [|t|i st]; simpl in Hstep.
  - injection Hstep as <-. simpl. apply Forall_app. split; [done|].
    by apply Forall_singleton.
  - destruct (threads s !! t) as [th|] eqn:Ht; [|done].
    assert (Hth : uncounted_ok th).
    { rewrite Forall_lookup in Hall. by apply (Hall t). }
    destruct (step_req_uncounted t th s s' Hth Hstep) as (th' & -> & Hok).
    by apply Forall_insert.
  - by rewrite (step_upd_threads _ _ _ _ Hstep).
Qed.

Lemma uncounted_run sched s s' :
  Forall uncounted_ok (threads s) → run sched s = Some s' →
  Forall uncounted_ok (threads s').
Proof.
  revert s. induction sched as [|a sched IH]; intros s Hall Hrun; simpl in Hrun.
  - by injection Hrun as <-.
  - destruct (step a s) as [s1|] eqn:Hstep; [|done].
    apply (IH s1); [by eapply uncounted_step|done].
Qed.

(** X18. In every run of request goroutines and the updater, interleaved in
    any way, a request whose [reserveInstance] has returned an error has a
    nil instance, has run [Serve()] on no instance, and the rest of its
    handler leaves every count as it is: a refused request is never
    counted. *)
Theorem refused_never_counted sched a0 s t th res e :
  run sched (init a0) = Some s →
  threads s !! t = Some th →
  pc th = RHandler res (Some e) →
  res = None ∧ counted th = None ∧
  ∃ s', step (StepReq t) s = Some s' ∧ inFlight s' = inFlight s ∧
        (pc <$> threads s' !! t) = Some RFinished.
Proof.
  intros Hrun Ht Hpc.
  assert (Hall : Forall uncounted_ok (threads s)).
  { apply (uncounted_run sched (init a0)); [apply Forall_nil_2|done]. }
  rewrite Forall_lookup in Hall. specialize (Hall t th Ht).
  unfold uncounted_ok in Hall. rewrite Hpc in Hall. destruct Hall as [-> Hc].
  split; [done|]. split; [done|].
  simpl. rewrite Ht. unfold step_req. rewrite Hpc.
  eexists. split; [reflexivity|]. simpl. split; [done|].
  rewrite list_lookup_insert_eq; [done|]. by eapply lookup_lt_Some.
Qed.

Lemma refused_never_counted_witness :
  let s := default (init None) (run schedule_no_active (init None)) in
  (None : option nat) = None ∧
  counted (mkThread (RHandler None (Some ErrNoActiveInstances)) None None) = None ∧
  ∃ s', step (StepReq 0) s = Some s' ∧ inFlight s' = inFlight s ∧
        (pc <$> threads s' !! 0%nat) = Some RFinished.
Proof.
  apply (refused_never_counted schedule_no_active None _ 0%nat
           (mkThread (RHandler None (Some ErrNoActiveInstances)) None None)
           None ErrNoActiveInstances);
    vm_compute; reflexivity.
Defined.

End InterleavingFacts.
